(** * The wasm native code manager (src/wasm/wasm-code-manager.{h,cc})

    A shallow embedding of the address-range pool, the per-module code
    bookkeeping and the process-wide commit budget, followed by the
    properties established about them.

    Conventions.
    - [Address] (uintptr_t) and [size_t] are 64-bit words, kept as [Z] with the
      wrap-around written out ([wrap]); [uint32_t] values go through [u32].
    - A [DCHECK] is a debug-only assertion: it is recorded as a comment or as a
      named predicate, never as behaviour.  A [CHECK] or a fatal OOM stops the
      process: operations that can hit one return [Fatal].
    - What the operating system answers is an input: a script telling, for the
      n-th permission change of the run, whether it succeeds. *)

From Stdlib Require Import ZArith Lia Bool List Sorted.
From stdpp Require Import base numbers list gmap sorting.
Import ListNotations.

Local Open Scope Z_scope.

(** ** Machine words *)

Definition Address := Z.
Definition kNullAddress : Address := 0.

Definition kWordBits : Z := 64.
Definition wrap (z : Z) : Z := z mod 2 ^ kWordBits.
Definition u32 (z : Z) : Z := z mod 2 ^ 32.

Definition is_word (z : Z) : Prop := 0 <= z < 2 ^ kWordBits.

(** ** AddressRange (wasm-code-manager.h) *)

Module AddressRange.

Record t : Set := mk { start : Address; end_ : Address }.

(** The two DCHECKs of the constructor. *)
Definition valid (r : t) : Prop :=
  start r <= end_ r /\ (start r = kNullAddress -> end_ r = kNullAddress).

(** [AddressRange()]. *)
Definition default : t := mk kNullAddress kNullAddress.

Definition size (r : t) : Z := wrap (end_ r - start r).
Definition is_empty (r : t) : bool := start r =? end_ r.
(** [operator bool() const { return start == kNullAddress; }] *)
Definition to_bool (r : t) : bool := start r =? kNullAddress.

(** Both ends are machine words and the constructor's first DCHECK holds. *)
Definition wf (r : t) : Prop := 0 <= start r <= end_ r /\ end_ r < 2 ^ kWordBits.

End AddressRange.

Abbreviation range := AddressRange.t.
Abbreviation Range := AddressRange.mk.
Abbreviation r_start := AddressRange.start.
Abbreviation r_end := AddressRange.end_.

(** ** DisjointAllocationPool *)

Module DisjointAllocationPool.

(** [std::list<AddressRange> ranges_]. *)
Definition t := list range.

(** [Merge]: the [while] loop skips the ranges that end strictly before
    [r]; the first range that does not is [dest_it]. *)
Fixpoint Merge (ranges_ : t) (r : range) : t :=
  match ranges_ with
  | [] => [r]                                         (* push_back *)
  | d :: rest =>
      if r_end d <? r_start r then d :: Merge rest r  (* ++dest_it *)
      else if r_start d =? r_end r then
        Range (r_start r) (r_end d) :: rest           (* dest_it->start = range.start *)
      else if r_start d >? r_end r then
        r :: d :: rest                                (* insert before dest_it *)
      else
        (* DCHECK_EQ(dest_it->end, range.start); dest_it->end = range.end, then
           look at the successor *)
        match rest with
        | n :: rest' =>
            if r_end r =? r_start n
            then Range (r_start d) (r_end n) :: rest' (* fold and erase *)
            else Range (r_start d) (r_end r) :: rest
        | [] => [Range (r_start d) (r_end r)]
        end
  end.

(** [Allocate]: the returned range and the pool that is left. *)
Fixpoint Allocate (ranges_ : t) (size : Z) : range * t :=
  match ranges_ with
  | [] => (AddressRange.default, [])
  | it :: rest =>
      let range_size := AddressRange.size it in
      if size >? range_size then
        let '(ret, rest') := Allocate rest size in (ret, it :: rest')
      else
        let ret := Range (r_start it) (wrap (r_start it + size)) in
        if size =? range_size then (ret, rest)        (* erase *)
        else (ret, Range (wrap (r_start it + size)) (r_end it) :: rest)
  end.

Definition IsEmpty (ranges_ : t) : bool :=
  match ranges_ with [] => true | _ => false end.

(** The header's invariant: "Sorted, disjoint and non-overlapping memory
    ranges ... there's no [start, end), [end, other_end)". *)
Fixpoint sorted (p : t) : Prop :=
  match p with
  | [] => True
  | a :: q => match q with
              | [] => True
              | b :: _ => r_end a < r_start b
              end /\ sorted q
  end.

Definition all_valid (p : t) : Prop := Forall (fun d => r_start d <= r_end d) p.
Definition no_empty (p : t) : Prop := Forall (fun d => r_start d < r_end d) p.

(** [r] intersects no stored range. *)
Definition disjoint_from (p : t) (r : range) : Prop :=
  Forall (fun d => r_end r <= r_start d \/ r_end d <= r_start r) p.

(** The successor step of the fourth case of [Merge]. *)
Definition fold_next (d : range) (rest : t) : t :=
  match rest with
  | n :: rest' =>
      if r_end d =? r_start n then Range (r_start d) (r_end n) :: rest' else d :: rest
  | [] => [d]
  end.

End DisjointAllocationPool.

Module Pool := DisjointAllocationPool.

(** ** Platform constants and flags

    The build-time and run-time switches the code branches on, and the
    constants it reads from other headers (globals.h,
    jump-table-assembler.h, flag-definitions.h), all taken as parameters. *)

Record Platform : Set := {
  V8_OS_WIN : bool;
  FLAG_wasm_write_protect_code_memory : bool;
  kRequiresCodeRange : bool;
  kMaxWasmCodeMemory : Z;
  kCodeAlignment : Z;
  AllocatePageSize : Z;
  (** [JumpTableAssembler::kJumpTableSlotSize]. *)
  kJumpTableSlotSize : Z;
  (** Width of the arithmetic in [slot_idx * kJumpTableSlotSize]: 32 when the
      constant is an [int] (the product of a [uint32_t] and an [int] is a
      [uint32_t]), 64 when it is a [size_t]. *)
  kSlotProductBits : Z
}.

(** Modelled from the spec: [round_up(x, m)], the smallest multiple of [m]
    that is at least [x], in word arithmetic; the [RoundUp] template of
    src/base/macros.h is not among the sources. *)
Definition RoundUp (x m : Z) : Z :=
  let y := wrap (x + m - 1) in y - y mod m.

(** ** WasmCode *)

Inductive Kind : Set :=
  kFunction | kWasmToJsWrapper | kLazyStub | kRuntimeStub | kInterpreterEntry | kJumpTable.

Inductive Tier : Set := kLiftoff | kTurbofan | kOther.

Module WasmCode.

(** The instruction bytes, the relocation info and the source positions are
    not carried: only where the instructions live and how long they are. *)
Record t : Set := mk {
  instructions_start : Address;
  instructions_size : Z;
  reloc_size_ : Z;
  source_position_size_ : Z;
  index_ : option Z;
  kind_ : Kind;
  constant_pool_offset_ : Z;
  stack_slots_ : Z;
  safepoint_table_offset_ : Z;
  handler_table_offset_ : Z;
  trap_handler_index_ : Z;
  tier_ : Tier
}.

Definition instruction_start (c : t) : Address := instructions_start c.
(** [instructions_.end()], that is [start_ + length_]. *)
Definition instructions_end (c : t) : Address :=
  wrap (instructions_start c + instructions_size c).

Definition contains (c : t) (pc : Address) : bool :=
  (instructions_start c <=? pc) && (pc <? instructions_end c).

Definition HasTrapHandlerIndex (c : t) : bool := trap_handler_index_ c >=? 0.

End WasmCode.

(** [WasmCodeUniquePtrComparator]: [pc < code->instruction_start()]. *)
Definition WasmCodeUniquePtrComparator (pc : Address) (code : WasmCode.t) : bool :=
  pc <? WasmCode.instruction_start code.

(** ** std::upper_bound

    The standard library's halving loop over a random-access sequence: [first] and [len]
    delimit the part still to search, [fuel] bounds the number of rounds
    ([len] shrinks at every round, so [length v] rounds always suffice). *)

Fixpoint upper_bound_loop {A : Type} (comp : A -> bool) (v : list A)
    (fuel first len : nat) : nat :=
  match fuel with
  | O => first
  | S fuel' =>
      match len with
      | O => first
      | _ =>
          let half := Nat.div2 len in
          let middle := (first + half)%nat in
          match v !! middle with
          | Some x =>
              if comp x then upper_bound_loop comp v fuel' first half
              else upper_bound_loop comp v fuel' (S middle) (len - half - 1)%nat
          | None => first
          end
      end
  end.

(** [std::upper_bound(v.begin(), v.end(), value, comp)] as an index into [v];
    [comp x] stands for [comp(value, x)]. *)
Definition upper_bound {A : Type} (comp : A -> bool) (v : list A) : nat :=
  upper_bound_loop comp v (length v) 0 (length v).

(** [vector::insert(v.begin() + i, x)]. *)
Definition vector_insert {A : Type} (i : nat) (x : A) (v : list A) : list A :=
  take i v ++ x :: drop i v.

(** ** VirtualMemory (one OS reservation)

    Modelled from the spec: "owns one OS reservation (base, size)", released
    when uninitialized; the class [VirtualMemory] of src/allocation.h is not
    among the sources.  [end()] is [address + size] and a region is reserved
    when its address is not null. *)

Module VirtualMemory.

Record t : Set := mk { address : Address; size : Z }.

(** A default-constructed, or released, region. *)
Definition empty : t := mk kNullAddress 0.
Definition end_ (m : t) : Address := wrap (address m + size m).
Definition IsReserved (m : t) : bool := negb (address m =? kNullAddress).

End VirtualMemory.

(** ** The operating system

    A permission change is recorded in a log; whether the n-th change of the
    run succeeds is read from a script, and so is the outcome of the n-th
    reservation and the number of spurious failures of the n-th
    compare-and-swap loop. *)

Inductive Permission : Set := kReadWrite | kReadExecute | kReadWriteExecute.

Record Syscall : Set := { sc_start : Address; sc_size : Z; sc_perm : Permission }.

Record Env : Type := {
  platform : Platform;
  permission_ok : nat -> bool;
  reservation : nat -> Z -> Address -> option Address;
  cas_failures : nat -> nat
}.

Record OS : Set := {
  permission_log : list Syscall;   (* oldest first *)
  reservation_count : nat;
  cas_count : nat
}.

(** ** NativeModule: the data *)

Module NativeModule.

(** [runtime_stub_table_], [compilation_state_], [module_object_] and the
    mutex play no part in what follows and are left out; a [WasmCode*] is
    the code object it points to. *)
Record t : Set := mk {
  instance_id : nat;
  owned_code_ : list WasmCode.t;
  num_functions_ : Z;
  num_imported_functions_ : Z;
  code_table_ : list (option WasmCode.t);
  jump_table_ : option WasmCode.t;
  free_code_space_ : Pool.t;
  allocated_code_space_ : Pool.t;
  owned_code_space_ : list VirtualMemory.t;
  committed_code_space_ : Z;
  modification_scope_depth_ : Z;
  can_request_more_memory_ : bool;
  use_trap_handler_ : bool;
  is_executable_ : bool;
  lazy_compile_frozen_ : bool
}.

Definition set_owned_code (v : list WasmCode.t) (m : t) : t :=
  mk (instance_id m) v (num_functions_ m) (num_imported_functions_ m)
     (code_table_ m) (jump_table_ m) (free_code_space_ m)
     (allocated_code_space_ m) (owned_code_space_ m) (committed_code_space_ m)
     (modification_scope_depth_ m) (can_request_more_memory_ m)
     (use_trap_handler_ m) (is_executable_ m) (lazy_compile_frozen_ m).

Definition set_code_table (v : list (option WasmCode.t)) (m : t) : t :=
  mk (instance_id m) (owned_code_ m) (num_functions_ m) (num_imported_functions_ m)
     v (jump_table_ m) (free_code_space_ m)
     (allocated_code_space_ m) (owned_code_space_ m) (committed_code_space_ m)
     (modification_scope_depth_ m) (can_request_more_memory_ m)
     (use_trap_handler_ m) (is_executable_ m) (lazy_compile_frozen_ m).

Definition set_jump_table (v : option WasmCode.t) (m : t) : t :=
  mk (instance_id m) (owned_code_ m) (num_functions_ m) (num_imported_functions_ m)
     (code_table_ m) v (free_code_space_ m)
     (allocated_code_space_ m) (owned_code_space_ m) (committed_code_space_ m)
     (modification_scope_depth_ m) (can_request_more_memory_ m)
     (use_trap_handler_ m) (is_executable_ m) (lazy_compile_frozen_ m).

Definition set_free_code_space (v : Pool.t) (m : t) : t :=
  mk (instance_id m) (owned_code_ m) (num_functions_ m) (num_imported_functions_ m)
     (code_table_ m) (jump_table_ m) v
     (allocated_code_space_ m) (owned_code_space_ m) (committed_code_space_ m)
     (modification_scope_depth_ m) (can_request_more_memory_ m)
     (use_trap_handler_ m) (is_executable_ m) (lazy_compile_frozen_ m).

Definition set_allocated_code_space (v : Pool.t) (m : t) : t :=
  mk (instance_id m) (owned_code_ m) (num_functions_ m) (num_imported_functions_ m)
     (code_table_ m) (jump_table_ m) (free_code_space_ m)
     v (owned_code_space_ m) (committed_code_space_ m)
     (modification_scope_depth_ m) (can_request_more_memory_ m)
     (use_trap_handler_ m) (is_executable_ m) (lazy_compile_frozen_ m).

Definition set_owned_code_space (v : list VirtualMemory.t) (m : t) : t :=
  mk (instance_id m) (owned_code_ m) (num_functions_ m) (num_imported_functions_ m)
     (code_table_ m) (jump_table_ m) (free_code_space_ m)
     (allocated_code_space_ m) v (committed_code_space_ m)
     (modification_scope_depth_ m) (can_request_more_memory_ m)
     (use_trap_handler_ m) (is_executable_ m) (lazy_compile_frozen_ m).

Definition set_committed_code_space (v : Z) (m : t) : t :=
  mk (instance_id m) (owned_code_ m) (num_functions_ m) (num_imported_functions_ m)
     (code_table_ m) (jump_table_ m) (free_code_space_ m)
     (allocated_code_space_ m) (owned_code_space_ m) v
     (modification_scope_depth_ m) (can_request_more_memory_ m)
     (use_trap_handler_ m) (is_executable_ m) (lazy_compile_frozen_ m).

Definition set_modification_scope_depth (v : Z) (m : t) : t :=
  mk (instance_id m) (owned_code_ m) (num_functions_ m) (num_imported_functions_ m)
     (code_table_ m) (jump_table_ m) (free_code_space_ m)
     (allocated_code_space_ m) (owned_code_space_ m) (committed_code_space_ m)
     v (can_request_more_memory_ m)
     (use_trap_handler_ m) (is_executable_ m) (lazy_compile_frozen_ m).

Definition set_use_trap_handler (v : bool) (m : t) : t :=
  mk (instance_id m) (owned_code_ m) (num_functions_ m) (num_imported_functions_ m)
     (code_table_ m) (jump_table_ m) (free_code_space_ m)
     (allocated_code_space_ m) (owned_code_space_ m) (committed_code_space_ m)
     (modification_scope_depth_ m) (can_request_more_memory_ m)
     v (is_executable_ m) (lazy_compile_frozen_ m).

Definition set_is_executable (v : bool) (m : t) : t :=
  mk (instance_id m) (owned_code_ m) (num_functions_ m) (num_imported_functions_ m)
     (code_table_ m) (jump_table_ m) (free_code_space_ m)
     (allocated_code_space_ m) (owned_code_space_ m) (committed_code_space_ m)
     (modification_scope_depth_ m) (can_request_more_memory_ m)
     (use_trap_handler_ m) v (lazy_compile_frozen_ m).

(** [num_functions_ - num_imported_functions_] in [uint32_t]. *)
Definition num_wasm_functions (m : t) : Z :=
  u32 (num_functions_ m - num_imported_functions_ m).

(** The [code_table()] accessor: the first [num_wasm_functions] entries. *)
Definition code_table (m : t) : list (option WasmCode.t) :=
  take (Z.to_nat (num_wasm_functions m)) (code_table_ m).

End NativeModule.

(** ** WasmCodeManager: the data *)

Module WasmCodeManager.

(** A [NativeModule*] is the module's [instance_id]. *)
Record t : Type := mk {
  lookup_map_ : gmap Z (Address * nat);
  active_ : Z;
  remaining_uncommitted_code_space_ : Z
}.

Definition set_remaining (v : Z) (m : t) : t :=
  mk (lookup_map_ m) (active_ m) v.
Definition set_lookup_map (v : gmap Z (Address * nat)) (m : t) : t :=
  mk v (active_ m) (remaining_uncommitted_code_space_ m).
Definition set_active (v : Z) (m : t) : t :=
  mk (lookup_map_ m) v (remaining_uncommitted_code_space_ m).

(** [WasmCodeManager(max_committed)]. *)
Definition create (max_committed : Z) : t := mk ∅ 0 max_committed.

End WasmCodeManager.

(** ** A small state monad

    A method of a module runs against the operating system, the code manager
    and the module itself ([this]). *)

Record Ctx : Type := {
  os : OS;
  manager : WasmCodeManager.t;
  this : NativeModule.t
}.

Definition M (A : Type) : Type := Ctx -> A * Ctx.

Definition ret {A} (a : A) : M A := fun c => (a, c).
Definition bind {A B} (m : M A) (k : A -> M B) : M B :=
  fun c => let '(a, c') := m c in k a c'.

Notation "x <- m ;; k" := (bind m (fun x => k))
  (at level 20, m at level 99, k at level 200).
Notation "m ;;; k" := (bind m (fun _ => k))
  (at level 20, k at level 200).

Definition get_this : M NativeModule.t := fun c => (this c, c).
Definition modify_this (f : NativeModule.t -> NativeModule.t) : M unit :=
  fun c => (tt, {| os := os c; manager := manager c; this := f (this c) |}).
Definition get_manager : M WasmCodeManager.t := fun c => (manager c, c).
Definition modify_manager (f : WasmCodeManager.t -> WasmCodeManager.t) : M unit :=
  fun c => (tt, {| os := os c; manager := f (manager c); this := this c |}).
Definition get_os : M OS := fun c => (os c, c).
Definition put_os (o : OS) : M unit :=
  fun c => (tt, {| os := o; manager := manager c; this := this c |}).

(** What a call that may stop the process yields. *)
Inductive Outcome (A : Type) : Type :=
| Done (a : A)
| Fatal.
Arguments Done {A} a.
Arguments Fatal {A}.

(** Modelled from the spec: "page-aligned"; the [IsAligned] template of
    src/utils.h is not among the sources. *)
Definition IsAligned (x m : Z) : Prop := x mod m = 0.

Section Operations.

Variable E : Env.

(** ** Operating-system calls *)

(** [SetPermissions(start, size, permission)]: logs the call; the script
    says whether it succeeds. *)
Definition SetPermissions (start : Address) (size : Z) (p : Permission) : M bool :=
  o <- get_os ;;
  put_os {| permission_log :=
              permission_log o ++ [{| sc_start := start; sc_size := size; sc_perm := p |}];
            reservation_count := reservation_count o;
            cas_count := cas_count o |} ;;;
  ret (permission_ok E (length (permission_log o))).

(** ** WasmCodeManager: Commit, AssignRanges, TryAllocate *)

(** The CAS loop of [Commit] on the value [remaining] of the counter:
    [None] when the loop returns false, otherwise the stored value.  A
    [compare_exchange_weak] may fail spuriously, [failures] times here, and
    the loop then loads again. *)
Fixpoint Commit_cas (failures : nat) (size remaining : Z) : option Z :=
  let old_value := remaining in
  if old_value <? size then None
  else match failures with
       | O => Some (wrap (old_value - size))
       | S failures' => Commit_cas failures' size remaining
       end.

Definition next_cas_failures : M nat :=
  o <- get_os ;;
  put_os {| permission_log := permission_log o;
            reservation_count := reservation_count o;
            cas_count := S (cas_count o) |} ;;;
  ret (cas_failures E (cas_count o)).

Definition Commit (start : Address) (size : Z) : M bool :=
  (* DCHECK(IsAligned(start, AllocatePageSize())); DCHECK(IsAligned(size, ...)) *)
  failures <- next_cas_failures ;;
  mgr <- get_manager ;;
  match Commit_cas failures size (WasmCodeManager.remaining_uncommitted_code_space_ mgr) with
  | None => ret false
  | Some v =>
      modify_manager (WasmCodeManager.set_remaining v) ;;;
      let permission := if FLAG_wasm_write_protect_code_memory (platform E)
                        then kReadWrite else kReadWriteExecute in
      r <- SetPermissions start size permission ;;
      if negb r then
        (* remaining_uncommitted_code_space_.fetch_add(size) *)
        modify_manager (fun m => WasmCodeManager.set_remaining
            (wrap (WasmCodeManager.remaining_uncommitted_code_space_ m + size)) m) ;;;
        ret false
      else ret r
  end.

(** [lookup_map_.insert(...)]: [std::map::insert] keeps an existing entry. *)
Definition AssignRanges (start end_ : Address) (native_module : nat) : M unit :=
  modify_manager (fun m =>
    match WasmCodeManager.lookup_map_ m !! start with
    | Some _ => m
    | None => WasmCodeManager.set_lookup_map
                (<[start := (end_, native_module)]> (WasmCodeManager.lookup_map_ m)) m
    end).

(** [TryAllocate(size, ret, hint)]: the region written to [ret], reserved or
    not.  A null hint is replaced by a random address before the call. *)
Definition TryAllocate (size : Z) (hint : Address) : M VirtualMemory.t :=
  (* DCHECK_GT(size, 0) *)
  let size := RoundUp size (AllocatePageSize (platform E)) in
  o <- get_os ;;
  put_os {| permission_log := permission_log o;
            reservation_count := S (reservation_count o);
            cas_count := cas_count o |} ;;;
  ret (match reservation E (reservation_count o) size hint with
       | Some a => VirtualMemory.mk a size
       | None => VirtualMemory.empty
       end).

(** ** NativeModule::AllocateForCode *)

Definition free_Allocate (size : Z) : M range :=
  nm <- get_this ;;
  let '(mem, rest) := Pool.Allocate (NativeModule.free_code_space_ nm) size in
  modify_this (NativeModule.set_free_code_space rest) ;;;
  ret mem.

Definition add_committed (commit_size : Z) : M unit :=
  modify_this (fun nm => NativeModule.set_committed_code_space
                 (wrap (NativeModule.committed_code_space_ nm + commit_size)) nm).

(** The Windows loop over [owned_code_space_], newest reservation first:
    [true] when no commit failed. *)
Fixpoint commit_chunks (spaces : list VirtualMemory.t)
    (commit_start commit_end : Address) : M bool :=
  match spaces with
  | [] => ret true
  | it :: spaces' =>
      if negb (commit_start <? commit_end) then ret true
      else if (commit_end >? VirtualMemory.end_ it)
              || (VirtualMemory.address it >=? commit_end)
      then commit_chunks spaces' commit_start commit_end
      else
        let start := Z.max commit_start (VirtualMemory.address it) in
        let commit_size := wrap (commit_end - start) in
        ok <- Commit start commit_size ;;
        if negb ok then ret false
        else add_committed commit_size ;;;
             commit_chunks spaces' commit_start start
  end.

(** The part of [AllocateForCode] that runs when the free pool is dry:
    [None] stands for the early [return kNullAddress]. *)
Definition grow_code_space (size : Z) : M (option range) :=
  nm <- get_this ;;
  if negb (NativeModule.can_request_more_memory_ nm) then ret None
  else
    let hint := match last (NativeModule.owned_code_space_ nm) with
                | None => kNullAddress
                | Some v => VirtualMemory.end_ v
                end in
    new_mem <- TryAllocate size hint ;;
    (* the region is the new last element of owned_code_space_, reserved or not *)
    modify_this (fun nm => NativeModule.set_owned_code_space
                   (NativeModule.owned_code_space_ nm ++ [new_mem]) nm) ;;;
    if negb (VirtualMemory.IsReserved new_mem) then ret None
    else
      AssignRanges (VirtualMemory.address new_mem) (VirtualMemory.end_ new_mem)
                   (NativeModule.instance_id nm) ;;;
      modify_this (fun nm => NativeModule.set_free_code_space
                     (Pool.Merge (NativeModule.free_code_space_ nm)
                        (Range (VirtualMemory.address new_mem) (VirtualMemory.end_ new_mem)))
                     nm) ;;;
      mem <- free_Allocate size ;;
      if AddressRange.is_empty mem then ret None else ret (Some mem).

Definition commit_for (mem : range) : M bool :=
  let commit_start := RoundUp (r_start mem) (AllocatePageSize (platform E)) in
  let commit_end := RoundUp (r_end mem) (AllocatePageSize (platform E)) in
  if commit_start <? commit_end then
    if V8_OS_WIN (platform E) then
      nm <- get_this ;;
      commit_chunks (rev (NativeModule.owned_code_space_ nm)) commit_start commit_end
    else
      let commit_size := wrap (commit_end - commit_start) in
      ok <- Commit commit_start commit_size ;;
      if negb ok then ret false
      else add_committed commit_size ;;; ret true
  else ret true.

Definition AllocateForCode (size : Z) : M Address :=
  let size := RoundUp size (kCodeAlignment (platform E)) in
  mem <- free_Allocate size ;;
  found <- (if AddressRange.is_empty mem then grow_code_space size else ret (Some mem)) ;;
  match found with
  | None => ret kNullAddress
  | Some mem =>
      ok <- commit_for mem ;;
      if negb ok then ret kNullAddress
      else
        modify_this (fun nm => NativeModule.set_allocated_code_space
                       (Pool.Merge (NativeModule.allocated_code_space_ nm) mem) nm) ;;;
        ret (r_start mem)
  end.

End Operations.

(** ** NativeModule: the methods *)

(** [int] arithmetic on [modification_scope_depth_], two's complement. *)
Definition wrap_int (z : Z) : Z := (z + 2 ^ 31) mod 2 ^ 32 - 2 ^ 31.

(** [memset(table, 0, n * sizeof(WasmCode* ))]: the first [n] entries become
    null. *)
Fixpoint clear_entries {A : Type} (n : nat) (table : list (option A)) : list (option A) :=
  match n, table with
  | S n', _ :: table' => None :: clear_entries n' table'
  | _, _ => table
  end.

Section Methods.

Variable E : Env.

(** [slot_idx * JumpTableAssembler::kJumpTableSlotSize]. *)
Definition slot_offset (slot_idx : Z) : Z :=
  (slot_idx * kJumpTableSlotSize (platform E)) mod 2 ^ kSlotProductBits (platform E).

(** [AddOwnedCode]: a null buffer is a fatal out-of-memory.  Copying the
    instruction bytes and flushing the instruction cache leave no trace
    here. *)
Definition AddOwnedCode (orig_instructions_size reloc_size source_pos_size : Z)
    (index : option Z) (kind : Kind)
    (constant_pool_offset stack_slots safepoint_table_offset handler_table_offset : Z)
    (tier : Tier) (c : Ctx) : Outcome (WasmCode.t * Ctx) :=
  let '(executable_buffer, c1) := AllocateForCode E orig_instructions_size c in
  if executable_buffer =? kNullAddress then Fatal
  else
    let code := WasmCode.mk executable_buffer orig_instructions_size reloc_size
                  source_pos_size index kind constant_pool_offset stack_slots
                  safepoint_table_offset handler_table_offset (-1) tier in
    let owned := NativeModule.owned_code_ (this c1) in
    let insert_before :=
      upper_bound (WasmCodeUniquePtrComparator (WasmCode.instruction_start code)) owned in
    let '(_, c2) :=
      modify_this (NativeModule.set_owned_code (vector_insert insert_before code owned)) c1 in
    Done (code, c2).

Definition CreateEmptyJumpTable (num_wasm_functions : Z) (c : Ctx)
    : Outcome (WasmCode.t * Ctx) :=
  (* DCHECK_LT(0, num_wasm_functions) *)
  let jump_table_size := slot_offset num_wasm_functions in
  AddOwnedCode jump_table_size 0 0 None kJumpTable 0 0 0 0 kOther c.

(** The constructor, run on a context whose [this] is the storage of the
    new module; [code_space] is the reservation handed over. *)
Definition NativeModule_new (id : nat) (num_functions num_imported_functions : Z)
    (can_request_more : bool) (code_space : VirtualMemory.t)
    (use_trap_handler : bool) (o : OS) (mgr : WasmCodeManager.t)
    : Outcome Ctx :=
  let nm :=
    NativeModule.mk id [] num_functions num_imported_functions [] None
      [Range (VirtualMemory.address code_space) (VirtualMemory.end_ code_space)]
      [] [code_space] 0 0 can_request_more use_trap_handler false false in
  let c := {| os := o; manager := mgr; this := nm |} in
  (* DCHECK_LE(num_imported_functions, num_functions) *)
  let num_wasm_functions := u32 (num_functions - num_imported_functions) in
  if num_wasm_functions >? 0 then
    let '(_, c1) :=
      modify_this (NativeModule.set_code_table
                     (repeat None (Z.to_nat num_wasm_functions))) c in
    match CreateEmptyJumpTable num_wasm_functions c1 with
    | Fatal => Fatal
    | Done (jt, c2) =>
        Done (snd (modify_this (NativeModule.set_jump_table (Some jt)) c2))
    end
  else Done c.

(** [set_code(index, code)]; indices are [uint32_t]. *)
Definition set_code (index : Z) (code : WasmCode.t) (nm : NativeModule.t) : NativeModule.t :=
  let i := Z.to_nat (u32 (index - NativeModule.num_imported_functions_ nm)) in
  NativeModule.set_code_table (<[i := Some code]> (NativeModule.code_table_ nm)) nm.

(** [code(index)]: null is [None]. *)
Definition code (nm : NativeModule.t) (index : Z) : option WasmCode.t :=
  let i := Z.to_nat (u32 (index - NativeModule.num_imported_functions_ nm)) in
  match NativeModule.code_table_ nm !! i with
  | Some entry => entry
  | None => None
  end.

Definition Lookup (nm : NativeModule.t) (pc : Address) : option WasmCode.t :=
  match NativeModule.owned_code_ nm with
  | [] => None
  | _ =>
      let iter := upper_bound (WasmCodeUniquePtrComparator pc)
                    (NativeModule.owned_code_ nm) in
      match iter with
      | O => None                                    (* iter == begin() *)
      | S prev =>
          match NativeModule.owned_code_ nm !! prev with
          | Some candidate =>
              if WasmCode.contains candidate pc then Some candidate else None
          | None => None
          end
      end
  end.

(** [None] when [jump_table_] is null (the DCHECK_NOT_NULL). *)
Definition GetCallTargetForFunction (nm : NativeModule.t) (func_index : Z)
    : option Address :=
  match NativeModule.jump_table_ nm with
  | None => None
  | Some jump_table =>
      let slot_idx := u32 (func_index - NativeModule.num_imported_functions_ nm) in
      (* DCHECK_LT(slot_idx, jump_table_->instructions().size() / kJumpTableSlotSize) *)
      Some (wrap (WasmCode.instruction_start jump_table + slot_offset slot_idx))
  end.

Definition is_jump_table_slot (nm : NativeModule.t) (address : Address) : bool :=
  match NativeModule.jump_table_ nm with
  | None => false
  | Some jump_table => WasmCode.contains jump_table address
  end.

Definition GetFunctionIndexFromJumpTableSlot (nm : NativeModule.t)
    (slot_address : Address) : option Z :=
  match NativeModule.jump_table_ nm with
  | None => None
  | Some jump_table =>
      (* DCHECK(is_jump_table_slot(slot_address)) *)
      let offset := u32 (wrap (slot_address - WasmCode.instruction_start jump_table)) in
      let slot_idx := u32 (offset / kJumpTableSlotSize (platform E)) in
      (* DCHECK_LT(slot_idx, num_functions_ - num_imported_functions_) *)
      Some (u32 (NativeModule.num_imported_functions_ nm + slot_idx))
  end.

Definition DisableTrapHandler (nm : NativeModule.t) : NativeModule.t :=
  (* DCHECK(use_trap_handler_) *)
  let nm := NativeModule.set_use_trap_handler false nm in
  let num_wasm_functions := NativeModule.num_wasm_functions nm in
  NativeModule.set_code_table
    (clear_entries (Z.to_nat num_wasm_functions) (NativeModule.code_table_ nm)) nm.

(** The two loops of [SetExecutable]: [false] at the first failed call. *)
Fixpoint set_permissions_of_reservations (spaces : list VirtualMemory.t)
    (permission : Permission) : M bool :=
  match spaces with
  | [] => ret true
  | vmem :: spaces' =>
      ok <- SetPermissions E (VirtualMemory.address vmem) (VirtualMemory.size vmem)
              permission ;;
      if negb ok then ret false
      else set_permissions_of_reservations spaces' permission
  end.

Fixpoint set_permissions_of_ranges (ranges : list range)
    (permission : Permission) : M bool :=
  match ranges with
  | [] => ret true
  | r :: ranges' =>
      let range_size := RoundUp (AddressRange.size r) (AllocatePageSize (platform E)) in
      ok <- SetPermissions E (r_start r) range_size permission ;;
      if negb ok then ret false
      else set_permissions_of_ranges ranges' permission
  end.

Definition SetExecutable (executable : bool) : M bool :=
  nm <- get_this ;;
  if Bool.eqb (NativeModule.is_executable_ nm) executable then ret true
  else
    let permission := if executable then kReadExecute else kReadWrite in
    if FLAG_wasm_write_protect_code_memory (platform E) then
      if V8_OS_WIN (platform E) && NativeModule.can_request_more_memory_ nm then
        ok <- set_permissions_of_reservations (NativeModule.owned_code_space_ nm)
                permission ;;
        if negb ok then ret false
        else modify_this (NativeModule.set_is_executable executable) ;;; ret true
      else
        ok <- set_permissions_of_ranges (NativeModule.allocated_code_space_ nm)
                permission ;;
        if negb ok then ret false
        else modify_this (NativeModule.set_is_executable executable) ;;; ret true
    else
      modify_this (NativeModule.set_is_executable executable) ;;; ret true.

(** ** NativeModuleModificationScope

    The constructor and the destructor on a non-null module; [CHECK(success)]
    makes a failed permission change fatal. *)
Definition ModificationScope_enter (c : Ctx) : Outcome Ctx :=
  let depth := NativeModule.modification_scope_depth_ (this c) in
  let '(_, c1) :=
    modify_this (NativeModule.set_modification_scope_depth (wrap_int (depth + 1))) c in
  if depth =? 0 then
    let '(success, c2) := SetExecutable false c1 in
    if success then Done c2 else Fatal
  else Done c1.

Definition ModificationScope_leave (c : Ctx) : Outcome Ctx :=
  let depth := NativeModule.modification_scope_depth_ (this c) in
  let '(_, c1) :=
    modify_this (NativeModule.set_modification_scope_depth (wrap_int (depth - 1))) c in
  if depth =? 1 then
    let '(success, c2) := SetExecutable true c1 in
    if success then Done c2 else Fatal
  else Done c1.

(** ** WasmCodeManager::FreeNativeModule, with [this] the module freed *)
Definition FreeNativeModule : M unit :=
  (* DCHECK_GE(active_, 1) *)
  modify_manager (fun m => WasmCodeManager.set_active
                    (wrap (WasmCodeManager.active_ m - 1)) m) ;;;
  nm <- get_this ;;
  modify_manager (fun m => WasmCodeManager.set_lookup_map
     (foldl (fun map vmem => delete (VirtualMemory.address vmem) map)
            (WasmCodeManager.lookup_map_ m) (NativeModule.owned_code_space_ nm)) m) ;;;
  modify_this (NativeModule.set_owned_code_space []) ;;;
  let code_size := NativeModule.committed_code_space_ nm in
  modify_manager (fun m => WasmCodeManager.set_remaining
     (wrap (WasmCodeManager.remaining_uncommitted_code_space_ m + code_size)) m).

End Methods.

(** ** The process: one code manager and the live modules *)

Record World : Type := {
  w_os : OS;
  w_manager : WasmCodeManager.t;
  heap : gmap nat NativeModule.t;   (* live modules, by instance id *)
  next_id_ : nat                    (* NativeModule::next_id_ *)
}.

(** What a client can do between two observations of the process. *)
Inductive Op : Set :=
| OpNewNativeModule (memory_estimate num_functions num_imported_functions : Z)
                    (can_request_more use_trap_handler : bool)
| OpAddOwnedCode (id : nat) (orig_instructions_size reloc_size source_pos_size : Z)
                 (index : option Z) (kind : Kind)
                 (constant_pool_offset stack_slots safepoint_table_offset
                  handler_table_offset : Z) (tier : Tier)
| OpSetCode (id : nat) (index : Z) (code : WasmCode.t)
| OpSetExecutable (id : nat) (executable : bool)
| OpDisableTrapHandler (id : nat)
| OpEnterModificationScope (id : nat)
| OpLeaveModificationScope (id : nat)
| OpDeleteNativeModule (id : nat).

Section Process.

Variable E : Env.

Definition focus (w : World) (nm : NativeModule.t) : Ctx :=
  {| os := w_os w; manager := w_manager w; this := nm |}.

(** Writes the context back, the module under its id. *)
Definition unfocus (w : World) (id : nat) (c : Ctx) : World :=
  {| w_os := os c; w_manager := manager c;
     heap := <[id := this c]> (heap w); next_id_ := next_id_ w |}.

(** [WasmCodeManager::NewNativeModule]; the memory-pressure notification
    changes nothing here. *)
Definition NewNativeModule (memory_estimate num_functions num_imported_functions : Z)
    (can_request_more use_trap_handler : bool) (w : World) : Outcome (nat * World) :=
  let vmem_size := if kRequiresCodeRange (platform E)
                   then kMaxWasmCodeMemory (platform E) else memory_estimate in
  let c0 := {| os := w_os w; manager := w_manager w;
               this := NativeModule.mk 0 [] 0 0 [] None [] [] [] 0 0 false false false false |} in
  let '(mem, c1) := TryAllocate E vmem_size kNullAddress c0 in
  if VirtualMemory.IsReserved mem then
    let start := VirtualMemory.address mem in
    let end_ := VirtualMemory.end_ mem in
    let id := S (next_id_ w) in                (* next_id_.Increment(1) *)
    match NativeModule_new E id num_functions num_imported_functions can_request_more
            mem use_trap_handler (os c1) (manager c1) with
    | Fatal => Fatal
    | Done c2 =>
        let '(_, c3) := AssignRanges start end_ id c2 in
        let '(_, c4) := modify_manager (fun m => WasmCodeManager.set_active
                                          (wrap (WasmCodeManager.active_ m + 1)) m) c3 in
        Done (id, {| w_os := os c4; w_manager := manager c4;
                     heap := <[id := this c4]> (heap w); next_id_ := id |})
    end
  else Fatal.                                  (* FatalProcessOutOfMemory *)

(** [~NativeModule]: the manager frees the module, which then is gone. *)
Definition DeleteNativeModule (id : nat) (nm : NativeModule.t) (w : World) : World :=
  let '(_, c) := FreeNativeModule (focus w nm) in
  {| w_os := os c; w_manager := manager c;
     heap := delete id (heap w); next_id_ := next_id_ w |}.

(** One operation; an operation on a module that is not live has no
    meaning and stops the run. *)
Definition exec (op : Op) (w : World) : Outcome World :=
  match op with
  | OpNewNativeModule est nf ni more trap =>
      match NewNativeModule est nf ni more trap w with
      | Done (_, w') => Done w'
      | Fatal => Fatal
      end
  | OpAddOwnedCode id sz rs sp ix k cpo ss spo hto tier =>
      match heap w !! id with
      | Some nm =>
          match AddOwnedCode E sz rs sp ix k cpo ss spo hto tier (focus w nm) with
          | Done (_, c) => Done (unfocus w id c)
          | Fatal => Fatal
          end
      | None => Fatal
      end
  | OpSetCode id index code =>
      match heap w !! id with
      | Some nm => Done (unfocus w id (focus w (set_code index code nm)))
      | None => Fatal
      end
  | OpSetExecutable id executable =>
      match heap w !! id with
      | Some nm => Done (unfocus w id (snd (SetExecutable E executable (focus w nm))))
      | None => Fatal
      end
  | OpDisableTrapHandler id =>
      match heap w !! id with
      | Some nm => Done (unfocus w id (focus w (DisableTrapHandler nm)))
      | None => Fatal
      end
  | OpEnterModificationScope id =>
      match heap w !! id with
      | Some nm =>
          match ModificationScope_enter E (focus w nm) with
          | Done c => Done (unfocus w id c)
          | Fatal => Fatal
          end
      | None => Fatal
      end
  | OpLeaveModificationScope id =>
      match heap w !! id with
      | Some nm =>
          match ModificationScope_leave E (focus w nm) with
          | Done c => Done (unfocus w id c)
          | Fatal => Fatal
          end
      | None => Fatal
      end
  | OpDeleteNativeModule id =>
      match heap w !! id with
      | Some nm => Done (DeleteNativeModule id nm w)
      | None => Fatal
      end
  end.

Fixpoint run (ops : list Op) (w : World) : Outcome World :=
  match ops with
  | [] => Done w
  | op :: ops' =>
      match exec op w with
      | Done w' => run ops' w'
      | Fatal => Fatal
      end
  end.

(** A process that has just created its manager with cap [max_committed]. *)
Definition initial (max_committed : Z) : World :=
  {| w_os := {| permission_log := []; reservation_count := 0; cas_count := 0 |};
     w_manager := WasmCodeManager.create max_committed;
     heap := ∅; next_id_ := 0 |}.

Definition reachable (max_committed : Z) (w : World) : Prop :=
  exists ops, run ops (initial max_committed) = Done w.

(** The sum of [committed_code_space_] over the live modules. *)
Definition total_committed (h : gmap nat NativeModule.t) : Z :=
  map_fold (fun _ nm acc => NativeModule.committed_code_space_ nm + acc) 0 h.

End Process.

(** ** The order kept on [owned_code_]

    "Holds all allocated code objects, is maintained to be in ascending order
    according to the codes instruction start address": each object starts
    after the ones before it, and their instruction ranges do not overlap. *)
Definition code_before (a b : WasmCode.t) : Prop :=
  WasmCode.instruction_start a < WasmCode.instruction_start b /\
  WasmCode.instructions_end a <= WasmCode.instruction_start b.

Definition owned_code_sorted (v : list WasmCode.t) : Prop :=
  StronglySorted code_before v.

(** The order on instruction starts alone, which is all the binary searches
    rely on. *)
Definition starts_sorted (v : list WasmCode.t) : Prop :=
  StronglySorted
    (fun a b => WasmCode.instruction_start a <= WasmCode.instruction_start b) v.

(** The number of leading code objects that start at or below [pc]: what a
    linear scan for the upper bound returns. *)
Fixpoint count_upto (pc : Address) (v : list WasmCode.t) : nat :=
  match v with
  | [] => O
  | c :: v' =>
      if WasmCode.instruction_start c <=? pc then S (count_upto pc v') else O
  end.

(** ** The permission changes of one [SetExecutable] *)

Definition call_of_reservation (p : Permission) (vmem : VirtualMemory.t) : Syscall :=
  {| sc_start := VirtualMemory.address vmem; sc_size := VirtualMemory.size vmem;
     sc_perm := p |}.

Definition call_of_range (E : Env) (p : Permission) (r : range) : Syscall :=
  {| sc_start := r_start r;
     sc_size := RoundUp (AddressRange.size r) (AllocatePageSize (platform E));
     sc_perm := p |}.

(** The calls [SetExecutable(executable)] makes on module [nm] when none is
    refused: one per reservation or one per allocated range, or none. *)
Definition permission_changes (E : Env) (executable : bool) (nm : NativeModule.t)
    : list Syscall :=
  if Bool.eqb (NativeModule.is_executable_ nm) executable then []
  else
    let p := if executable then kReadExecute else kReadWrite in
    if FLAG_wasm_write_protect_code_memory (platform E) then
      if V8_OS_WIN (platform E) && NativeModule.can_request_more_memory_ nm
      then map (call_of_reservation p) (NativeModule.owned_code_space_ nm)
      else map (call_of_range E p) (NativeModule.allocated_code_space_ nm)
    else [].

(** Issues the calls in order and stops after the first refused one. *)
Fixpoint issue (E : Env) (calls : list Syscall) : M bool :=
  match calls with
  | [] => ret true
  | call :: calls' =>
      ok <- SetPermissions E (sc_start call) (sc_size call) (sc_perm call) ;;
      if negb ok then ret false else issue E calls'
  end.

(** The script grants the [n] permission changes that follow the first
    [base] ones. *)
Fixpoint granted (E : Env) (base n : nat) : bool :=
  match n with
  | O => true
  | S n' => permission_ok E base && granted E (S base) n'
  end.

Abbreviation log_of c := (permission_log (os c)).

(** [c'] differs from [c] in the permission log at most. *)
Definition same_but_log (c c' : Ctx) : Prop :=
  manager c' = manager c /\ this c' = this c /\
  reservation_count (os c') = reservation_count (os c) /\
  cas_count (os c') = cas_count (os c).

(** [n] is the partition point of [v]: [comp] is false on the first [n]
    elements and true from there on. *)
Definition partition_point {A} (comp : A -> bool) (v : list A) (n : nat) : Prop :=
  (n <= length v)%nat /\
  forall i x, v !! i = Some x -> (comp x = true <-> (n <= i)%nat).

(** ** What a pool covers *)

(** Address [x] lies in one of the ranges of [p]. *)
Definition covers (p : Pool.t) (x : Address) : Prop :=
  Exists (fun d => r_start d <= x < r_end d) p.

Definition in_range (r : range) (x : Address) : Prop := r_start r <= x < r_end r.

(** A method that leaves [owned_code_] of the module at hand alone. *)
Definition code_preserving {A} (f : M A) : Prop :=
  forall c, NativeModule.owned_code_ (this (snd (f c))) = NativeModule.owned_code_ (this c).

(** Every live module keeps its code ordered by instruction start. *)
Definition code_invariant (w : World) : Prop :=
  map_Forall (fun _ nm => starts_sorted (NativeModule.owned_code_ nm)) (heap w).

(** ** Reading a context *)

Abbreviation remaining c :=
  (WasmCodeManager.remaining_uncommitted_code_space_ (manager c)).

(** The next permission change succeeds. *)
Definition os_grants (E : Env) (c : Ctx) : bool :=
  permission_ok E (length (permission_log (os c))).

(** ** The commit budget *)

Abbreviation committed nm := (NativeModule.committed_code_space_ nm).

(** What the module at hand has committed plus what may still be
    committed. *)
Definition ctx_budget (c : Ctx) : Z :=
  committed (this c) + WasmCodeManager.remaining_uncommitted_code_space_ (manager c).

(** Both counters are non-negative and their sum is a word. *)
Definition ctx_ok (c : Ctx) : Prop :=
  0 <= committed (this c) /\
  0 <= WasmCodeManager.remaining_uncommitted_code_space_ (manager c) /\
  ctx_budget c < 2 ^ kWordBits.

(** A method that moves no byte of budget in or out of the context. *)
Definition budget_preserving {A} (f : M A) : Prop :=
  forall c, ctx_ok c -> ctx_ok (snd (f c)) /\ ctx_budget (snd (f c)) = ctx_budget c.

(** The invariant of the process with cap [cap]. *)
Definition budget_invariant (cap : Z) (w : World) : Prop :=
  0 <= WasmCodeManager.remaining_uncommitted_code_space_ (w_manager w) /\
  map_Forall (fun _ nm => 0 <= committed nm) (heap w) /\
  total_committed (heap w)
    + WasmCodeManager.remaining_uncommitted_code_space_ (w_manager w) = cap /\
  (forall id, is_Some (heap w !! id) -> (id <= next_id_ w)%nat).

(** [GetFunctionIndexFromJumpTableSlot(GetCallTargetForFunction(f))]. *)
Definition round_trip (E : Env) (nm : NativeModule.t) (func_index : Z) : option Z :=
  match GetCallTargetForFunction E nm func_index with
  | Some slot => GetFunctionIndexFromJumpTableSlot E nm slot
  | None => None
  end.

(** ** Sample configurations, for running the model *)

(** A 64-bit non-Windows target with write protection on: 4 KiB pages, 32-byte
    code alignment, 16-byte jump-table slots, an [int] slot size. *)
Definition sample_platform : Platform :=
  {| V8_OS_WIN := false;
     FLAG_wasm_write_protect_code_memory := true;
     kRequiresCodeRange := true;
     kMaxWasmCodeMemory := 268435456;
     kCodeAlignment := 32;
     AllocatePageSize := 4096;
     kJumpTableSlotSize := 16;
     kSlotProductBits := 32 |}.

(** The same target with the slot size a [size_t], and no contiguous code
    range required. *)
Definition sample_platform_wide : Platform :=
  {| V8_OS_WIN := false;
     FLAG_wasm_write_protect_code_memory := true;
     kRequiresCodeRange := false;
     kMaxWasmCodeMemory := 268435456;
     kCodeAlignment := 32;
     AllocatePageSize := 4096;
     kJumpTableSlotSize := 16;
     kSlotProductBits := 64 |}.

(** A Windows target whose modules may grow. *)
Definition sample_platform_win : Platform :=
  {| V8_OS_WIN := true;
     FLAG_wasm_write_protect_code_memory := true;
     kRequiresCodeRange := false;
     kMaxWasmCodeMemory := 268435456;
     kCodeAlignment := 32;
     AllocatePageSize := 4096;
     kJumpTableSlotSize := 16;
     kSlotProductBits := 32 |}.

(** An operating system that grants every permission change, reserves the
    n-th region at [(n + 1) * 2^33] and never makes a CAS fail. *)
Definition obliging (P : Platform) : Env :=
  {| platform := P;
     permission_ok := fun _ => true;
     reservation := fun n _ _ => Some ((Z.of_nat n + 1) * 2 ^ 33);
     cas_failures := fun _ => O |}.

(** One that grants the first [n] permission changes of the run and refuses
    the later ones. *)
Definition fickle (P : Platform) (n : nat) : Env :=
  {| platform := P;
     permission_ok := fun i => (i <? n)%nat;
     reservation := fun n _ _ => Some ((Z.of_nat n + 1) * 2 ^ 33);
     cas_failures := fun _ => 2%nat |}.

Definition quiet_os : OS :=
  {| permission_log := []; reservation_count := 0; cas_count := 0 |}.

(** A module with two code objects in one reservation of four pages. *)
Definition sample_jump_table : WasmCode.t :=
  WasmCode.mk 8192 64 0 0 None kJumpTable 0 0 0 0 (-1) kOther.
Definition sample_function : WasmCode.t :=
  WasmCode.mk 8256 64 0 0 (Some 1) kFunction 0 0 0 0 (-1) kLiftoff.

Definition sample_module : NativeModule.t :=
  NativeModule.mk 1 [sample_jump_table; sample_function] 5 1
    [Some sample_function; None; None; None] (Some sample_jump_table)
    [Range 8320 24576] [Range 8192 8320] [VirtualMemory.mk 8192 16384]
    4096 0 false true false false.

Definition sample_ctx (budget : Z) : Ctx :=
  {| os := quiet_os;
     manager := WasmCodeManager.mk ∅ 1 budget;
     this := sample_module |}.

(** A module with one import and four declared functions, hence a jump table
    of 64 bytes, and then a function of 64 bytes: two adjacent code objects. *)
Definition adjacent_code : list Op :=
  [OpNewNativeModule 65536 5 1 false true;
   OpAddOwnedCode 1 64 0 0 (Some 1) kFunction 64 0 0 0 kLiftoff].

(** A module that grows into a second reservation: one declared function in
    a reservation of one page, then two code objects of 3000 bytes. *)
Definition growing : list Op :=
  [OpNewNativeModule 4096 1 0 true false;
   OpAddOwnedCode 1 3000 0 0 (Some 0) kFunction 3000 4 0 0 kLiftoff;
   OpAddOwnedCode 1 3000 0 0 (Some 0) kFunction 3000 4 0 0 kTurbofan].

(** A module with 2^28 + 1 declared functions and no import, as the
    constructor lays it out at 2^33 on [sample_platform]: the size of the jump
    table, [(2^28 + 1) * 16] in [uint32_t], is 16. *)
Definition crowded_jump_table : WasmCode.t :=
  WasmCode.mk (2 ^ 33) 16 0 0 None kJumpTable 0 0 0 0 (-1) kOther.

Definition crowded_module : NativeModule.t :=
  NativeModule.mk 1 [crowded_jump_table] 268435457 0
    (repeat None (Z.to_nat 268435457)) (Some crowded_jump_table)
    [Range (2 ^ 33 + 32) (2 ^ 33 + 2 ^ 28)] [Range (2 ^ 33) (2 ^ 33 + 32)]
    [VirtualMemory.mk (2 ^ 33) (2 ^ 28)]
    4096 0 false false false false.

(** The same module on [sample_platform_wide], in a reservation of 8 GiB: the
    jump table has all its 2^28 + 1 slots. *)
Definition crowded_jump_table_wide : WasmCode.t :=
  WasmCode.mk (2 ^ 33) (2 ^ 32 + 16) 0 0 None kJumpTable 0 0 0 0 (-1) kOther.

Definition crowded_module_wide : NativeModule.t :=
  NativeModule.mk 1 [crowded_jump_table_wide] 268435457 0
    (repeat None (Z.to_nat 268435457)) (Some crowded_jump_table_wide)
    [Range (2 ^ 33 + 2 ^ 32 + 32) (2 ^ 33 + 2 ^ 33)]
    [Range (2 ^ 33) (2 ^ 33 + 2 ^ 32 + 32)]
    [VirtualMemory.mk (2 ^ 33) (2 ^ 33)]
    (2 ^ 32 + 4096) 0 false false false false.

(** ** WasmCodeManager: the lookups *)

(** An entry of [lookup_map_]: the key and the pair stored under it. *)
Abbreviation Entry := (Z * (Address * nat))%type.

Definition key_le (a b : Entry) : Prop := fst a <= fst b.

#[global] Instance key_le_dec : RelDecision key_le.
Proof. intros a b. unfold key_le. apply Z_le_dec. Defined.

(** The entries in the order a [std::map] iterates over them: ascending
    keys. *)
Definition entries (m : gmap Z (Address * nat)) : list Entry :=
  merge_sort key_le (map_to_list m).

(** [std::map::upper_bound(pc)] as a position in that order: the first entry
    whose key is greater than [pc], the length when there is none. *)
Fixpoint map_upper_bound (pc : Address) (es : list Entry) : nat :=
  match es with
  | [] => O
  | e :: es' => if pc <? fst e then O else S (map_upper_bound pc es')
  end.

(** [LookupNativeModule(pc)]; a module is named by its id, null is [None]. *)
Definition LookupNativeModule (mgr : WasmCodeManager.t) (pc : Address) : option nat :=
  let es := entries (WasmCodeManager.lookup_map_ mgr) in
  match es with
  | [] => None                                       (* lookup_map_.empty() *)
  | _ =>
      match map_upper_bound pc es with
      | O => None                                    (* iter == begin() *)
      | S prev =>
          match (es !! prev : option Entry) with
          | Some (range_start, (range_end, candidate)) =>
              (* DCHECK_NOT_NULL(candidate) *)
              if (range_start <=? pc) && (pc <? range_end) then Some candidate else None
          | None => None
          end
      end
  end.

(** The registered ranges do not overlap: a range ends at or before the
    start of every range registered above it. *)
Definition ranges_disjoint (m : gmap Z (Address * nat)) : Prop :=
  forall k1 e1 id1 k2 e2 id2,
    m !! k1 = Some (e1, id1) -> m !! k2 = Some (e2, id2) -> k1 < k2 -> e1 <= k2.

(** A manager with two modules registered, of 16 KB and 32 KB. *)
Definition two_modules : WasmCodeManager.t :=
  WasmCodeManager.mk (<[8192 := (24576, 1%nat)]> (<[32768 := (65536, 2%nat)]> ∅)) 2 0.

(** ** A context before and after a method *)

Definition with_os (o : OS) (c : Ctx) : Ctx :=
  {| os := o; manager := manager c; this := this c |}.
Definition with_manager (f : WasmCodeManager.t -> WasmCodeManager.t) (c : Ctx) : Ctx :=
  {| os := os c; manager := f (manager c); this := this c |}.
Definition with_this (f : NativeModule.t -> NativeModule.t) (c : Ctx) : Ctx :=
  {| os := os c; manager := manager c; this := f (this c) |}.

(** Whatever context [f] starts from, the one it leaves is related to it by
    [R]. *)
Definition follows {A} (R : Ctx -> Ctx -> Prop) (f : M A) : Prop :=
  forall c, R c (snd (f c)).

(** The part [proj] of the context is the same in both. *)
Definition same {B} (proj : Ctx -> B) (c c' : Ctx) : Prop := proj c' = proj c.

(** What one operation on a live module does to the context it runs in. *)
Inductive method_step (E : Env) (c : Ctx) : Ctx -> Prop :=
| step_AddOwnedCode sz rs sp ix k cpo ss spo hto tier code c' :
    AddOwnedCode E sz rs sp ix k cpo ss spo hto tier c = Done (code, c') ->
    method_step E c c'
| step_set_code index code :
    method_step E c (with_this (set_code index code) c)
| step_SetExecutable executable :
    method_step E c (snd (SetExecutable E executable c))
| step_DisableTrapHandler :
    method_step E c (with_this DisableTrapHandler c)
| step_enter c' :
    ModificationScope_enter E c = Done c' -> method_step E c c'
| step_leave c' :
    ModificationScope_leave E c = Done c' -> method_step E c c'.

(** The permission [Commit] asks for. *)
Definition commit_permission (E : Env) : Permission :=
  if FLAG_wasm_write_protect_code_memory (platform E)
  then kReadWrite else kReadWriteExecute.

(** Everything [AllocateForCode] has no business with: the module apart from
    its two pools, its reservations and its committed size, and the count of
    live modules. *)
Definition outside_allocation (c : Ctx) :=
  (NativeModule.instance_id (this c), NativeModule.owned_code_ (this c),
   NativeModule.num_functions_ (this c), NativeModule.num_imported_functions_ (this c),
   NativeModule.code_table_ (this c), NativeModule.jump_table_ (this c),
   NativeModule.modification_scope_depth_ (this c),
   NativeModule.can_request_more_memory_ (this c),
   NativeModule.use_trap_handler_ (this c), NativeModule.is_executable_ (this c),
   NativeModule.lazy_compile_frozen_ (this c), WasmCodeManager.active_ (manager c)).

(** The code table has one entry per declared function, and the jump table
    is there exactly when a function is declared: an owned, anonymous code
    object of kind [kJumpTable], of the size [CreateEmptyJumpTable] computes
    for it, which is the product [num_wasm_functions * kJumpTableSlotSize]
    in the width of that multiplication.  Where the product wraps, the
    table is shorter than one slot per declared function:
    [crowded_jump_table] has 16 bytes for 2^28 + 1 functions. *)
Definition table_shape (E : Env) (nm : NativeModule.t) : Prop :=
  let n := NativeModule.num_wasm_functions nm in
  length (NativeModule.code_table_ nm) = Z.to_nat n /\
  match NativeModule.jump_table_ nm with
  | None => n = 0
  | Some jt =>
      0 < n /\ jt ∈ NativeModule.owned_code_ nm /\
      WasmCode.kind_ jt = kJumpTable /\ WasmCode.index_ jt = None /\
      WasmCode.instructions_size jt = slot_offset E n
  end.

(** The slots of all declared functions fit the width in which
    [CreateEmptyJumpTable] multiplies. *)
Definition slots_fit (E : Env) (nm : NativeModule.t) : Prop :=
  0 <= NativeModule.num_wasm_functions nm * kJumpTableSlotSize (platform E)
    < 2 ^ kSlotProductBits (platform E).

(** Unless the product wraps, the jump table has exactly one slot per
    declared function. *)
Definition one_slot_each (E : Env) (nm : NativeModule.t) : Prop :=
  slots_fit E nm ->
  forall jt, NativeModule.jump_table_ nm = Some jt ->
    WasmCode.instructions_size jt
      = NativeModule.num_wasm_functions nm * kJumpTableSlotSize (platform E).

(** Where [AddOwnedCode] puts the object it returns: the upper bound of its
    instruction start in [owned_code_] as it is when the method is entered
    ([AllocateForCode] does not touch [owned_code_]). *)
Definition inserted_at (nm : NativeModule.t) (code : WasmCode.t) : nat :=
  upper_bound (WasmCodeUniquePtrComparator (WasmCode.instruction_start code))
    (NativeModule.owned_code_ nm).

(** A module that cannot request more memory keeps its reservations, and
    the manager keeps its map and the operating system its count of
    reservations. *)
Definition no_growth (c c' : Ctx) : Prop :=
  same outside_allocation c c' /\
  (NativeModule.can_request_more_memory_ (this c) = false ->
   NativeModule.owned_code_space_ (this c') = NativeModule.owned_code_space_ (this c) /\
   WasmCodeManager.lookup_map_ (manager c') = WasmCodeManager.lookup_map_ (manager c) /\
   reservation_count (os c') = reservation_count (os c)).

(** [has_code(index)]. *)
Definition has_code (nm : NativeModule.t) (index : Z) : bool :=
  let i := Z.to_nat (u32 (index - NativeModule.num_imported_functions_ nm)) in
  match NativeModule.code_table_ nm !! i with
  | Some (Some _) => true
  | _ => false
  end.

(** The code of a module and the tables that point into it. *)
Definition tables (c : Ctx) :=
  (NativeModule.owned_code_ (this c), NativeModule.num_functions_ (this c),
   NativeModule.num_imported_functions_ (this c), NativeModule.code_table_ (this c),
   NativeModule.jump_table_ (this c)).

(** The module as the member initialisers of the constructor leave it,
    before its body runs. *)
Definition initialised (id : nat) (num_functions num_imported_functions : Z)
    (can_request_more : bool) (code_space : VirtualMemory.t) (use_trap_handler : bool)
    : NativeModule.t :=
  NativeModule.mk id [] num_functions num_imported_functions [] None
    [Range (VirtualMemory.address code_space) (VirtualMemory.end_ code_space)]
    [] [code_space] 0 0 can_request_more use_trap_handler false false.

(** What [TryAllocate] gets from the operating system, and the operating
    system once it has answered. *)
Definition reserve (E : Env) (o : OS) (size : Z) (hint : Address) : VirtualMemory.t :=
  let size := RoundUp size (AllocatePageSize (platform E)) in
  match reservation E (reservation_count o) size hint with
  | Some a => VirtualMemory.mk a size
  | None => VirtualMemory.empty
  end.

Definition after_reserve (o : OS) : OS :=
  {| permission_log := permission_log o;
     reservation_count := S (reservation_count o);
     cas_count := cas_count o |}.

(** The size of the first reservation of a module. *)
Definition vmem_size (E : Env) (memory_estimate : Z) : Z :=
  if kRequiresCodeRange (platform E)
  then kMaxWasmCodeMemory (platform E) else memory_estimate.

(** [LookupCode(pc)]: the candidate module is looked up among the live
    ones; a candidate that is gone would be a dangling pointer, and the
    call then has no meaning. *)
Definition LookupCode (w : World) (pc : Address) : Outcome (option WasmCode.t) :=
  match LookupNativeModule (w_manager w) pc with
  | Some candidate =>
      match heap w !! candidate with
      | Some nm => Done (Lookup nm pc)
      | None => Fatal
      end
  | None => Done None
  end.

(** ** The registered ranges and the reservations *)

(** [[base, end_)] is one of the reservations of the module. *)
Definition owns_range (nm : NativeModule.t) (base end_ : Address) : Prop :=
  exists v, v ∈ NativeModule.owned_code_space_ nm /\
            VirtualMemory.address v = base /\ VirtualMemory.end_ v = end_.

(** The module keeps its id and its reservations, and whatever the manager
    has registered in between is a reservation of this module, under its
    id. *)
Definition registers_own (c c' : Ctx) : Prop :=
  NativeModule.instance_id (this c') = NativeModule.instance_id (this c) /\
  (forall base end_, owns_range (this c) base end_ -> owns_range (this c') base end_) /\
  forall (base end_ : Address) (id : nat),
    WasmCodeManager.lookup_map_ (manager c') !! base = Some (end_, id) ->
    WasmCodeManager.lookup_map_ (manager c) !! base = Some (end_, id) \/
    (id = NativeModule.instance_id (this c) /\ owns_range (this c') base end_).

(** Every live module is stored under its id, no id is ahead of the
    counter, and every registered range is a reservation of a live
    module. *)
Definition registry_sound (w : World) : Prop :=
  (forall id nm, heap w !! id = Some nm ->
                 NativeModule.instance_id nm = id /\ (id <= next_id_ w)%nat) /\
  forall (base end_ : Address) (id : nat),
    WasmCodeManager.lookup_map_ (w_manager w) !! base = Some (end_, id) ->
    exists nm, heap w !! id = Some nm /\ owns_range nm base end_.

(** What [registers_own] reads of a context. *)
Definition registration (c : Ctx) :=
  (NativeModule.instance_id (this c), NativeModule.owned_code_space_ (this c),
   WasmCodeManager.lookup_map_ (manager c)).

(** [grow_code_space] once the new region is reserved and registered. *)
Definition grow_tail (size : Z) (new_mem : VirtualMemory.t) : M (option range) :=
  modify_this (fun nm => NativeModule.set_free_code_space
                 (Pool.Merge (NativeModule.free_code_space_ nm)
                    (Range (VirtualMemory.address new_mem) (VirtualMemory.end_ new_mem)))
                 nm) ;;;
  mem <- free_Allocate size ;;
  if AddressRange.is_empty mem then ret None else ret (Some mem).

(** [owned_code_space_.push_back(new_mem)]. *)
Definition push_back_space (new_mem : VirtualMemory.t) (nm : NativeModule.t)
    : NativeModule.t :=
  NativeModule.set_owned_code_space (NativeModule.owned_code_space_ nm ++ [new_mem]) nm.

(** ** What is asked of the operating system *)

(** A permission change never makes memory both writable and executable
    when write protection is on, and it always does when it is off. *)
Definition write_xor_execute (E : Env) (call : Syscall) : Prop :=
  sc_perm call = kReadWriteExecute <->
  FLAG_wasm_write_protect_code_memory (platform E) = false.

(** The log has grown by calls that all satisfy [P]. *)
Definition log_grows (P : Syscall -> Prop) (c c' : Ctx) : Prop :=
  exists calls, log_of c' = log_of c ++ calls /\ Forall P calls.

(** Every range of the pool starts at a machine word. *)
Definition starts_are_words (p : Pool.t) : Prop :=
  Forall (fun d => is_word (r_start d)) p.

(** The region the operating system would hand out next starts at a
    machine word. *)
Definition reserves_word (E : Env) (o : OS) : Prop :=
  forall size hint a, reservation E (reservation_count o) size hint = Some a -> is_word a.

(** ** WasmCode: the trap handler index *)

Definition WasmCode_set_index (v : option Z) (c : WasmCode.t) : WasmCode.t :=
  WasmCode.mk (WasmCode.instructions_start c) (WasmCode.instructions_size c)
    (WasmCode.reloc_size_ c) (WasmCode.source_position_size_ c) v (WasmCode.kind_ c)
    (WasmCode.constant_pool_offset_ c) (WasmCode.stack_slots_ c)
    (WasmCode.safepoint_table_offset_ c) (WasmCode.handler_table_offset_ c)
    (WasmCode.trap_handler_index_ c) (WasmCode.tier_ c).

Definition WasmCode_set_trap_handler_index (v : Z) (c : WasmCode.t) : WasmCode.t :=
  WasmCode.mk (WasmCode.instructions_start c) (WasmCode.instructions_size c)
    (WasmCode.reloc_size_ c) (WasmCode.source_position_size_ c) (WasmCode.index_ c)
    (WasmCode.kind_ c) (WasmCode.constant_pool_offset_ c) (WasmCode.stack_slots_ c)
    (WasmCode.safepoint_table_offset_ c) (WasmCode.handler_table_offset_ c)
    v (WasmCode.tier_ c).

(** [intptr_t] arithmetic, two's complement on the width of a word. *)
Definition wrap_intptr (z : Z) : Z := (z + 2 ^ 63) mod 2 ^ 64 - 2 ^ 63.

(** [std::numeric_limits<int>::max()]. *)
Definition kMaxInt : Z := 2 ^ 31 - 1.

(** [trap_handler_index()]: [CHECK(HasTrapHandlerIndex())], then the index
    as a [size_t]. *)
Definition trap_handler_index (code : WasmCode.t) : Outcome Z :=
  if WasmCode.HasTrapHandlerIndex code
  then Done (wrap (WasmCode.trap_handler_index_ code)) else Fatal.

(** [set_trap_handler_index(value)]: a [size_t] stored in an [intptr_t]. *)
Definition set_trap_handler_index (value : Z) (code : WasmCode.t) : WasmCode.t :=
  WasmCode_set_trap_handler_index (wrap_intptr value) code.

(** [RegisterTrapHandlerData]; [registered] is the [int] that
    [RegisterHandlerData] answers, the trap handler registry being no part
    of the sources. *)
Definition RegisterTrapHandlerData (registered : Z) (code : WasmCode.t)
    : Outcome WasmCode.t :=
  (* DCHECK(!HasTrapHandlerIndex()) *)
  match WasmCode.kind_ code with
  | kFunction =>
      let index := registered in
      if 0 <=? index                                  (* CHECK_LE(0, index) *)
      then Done (set_trap_handler_index (wrap index) code)
      else Fatal
  | _ => Done code
  end.

(** [~WasmCode]: the index handed to [ReleaseHandlerData], if any. *)
Definition WasmCode_destructor (code : WasmCode.t) : Outcome (option Z) :=
  if WasmCode.HasTrapHandlerIndex code then
    match trap_handler_index code with
    | Done index =>
        if index <? wrap kMaxInt                      (* CHECK_LT(..., INT_MAX) *)
        then Done (Some (wrap_int index))
        else Fatal
    | Fatal => Fatal
    end
  else Done None.

(** ** NativeModule: adding code *)

(** Modelled from the spec: "an opaque code-description buffer containing
    instructions and a relocation table" of the host VM, for the wrappers
    compiled by another pipeline, reduced to what [AddAnonymousCode] reads
    of it; class [Code] is not among the sources.  All sizes and offsets
    are [int]. *)
Record Code : Set := {
  InstructionSize : Z;
  relocation_size : Z;
  SourcePositionTable_length : Z;
  constant_pool_offset : Z;
  has_safepoint_info : bool;
  stack_slots : Z;
  safepoint_table_offset : Z;
  handler_table_offset : Z
}.

(** Modelled from the spec: "A [CodeDescriptor { buffer, instr_size,
    reloc_size, reloc_offset, constant_pool_size }]", reduced to the sizes
    [AddCode] reads; struct [CodeDesc] is not among the sources.  All are
    [int]. *)
Record CodeDesc : Set := {
  instr_size : Z;
  reloc_size : Z;
  constant_pool_size : Z
}.

(** A write through the pointer that [AddOwnedCode] returned: the object it
    points to is the element of [owned_code_] at the place of insertion. *)
Definition write_code (pos : nat) (code : WasmCode.t) (nm : NativeModule.t)
    : NativeModule.t :=
  NativeModule.set_owned_code (<[pos := code]> (NativeModule.owned_code_ nm)) nm.

Section AddingCode.

Variable E : Env.

(** [AddAnonymousCode]: the copy of the relocation info and of the source
    positions, the relocation loop, the flush of the instruction cache and
    the debug-only [Validate] work on bytes that are not carried here. *)
Definition AddAnonymousCode (code : Code) (kind : Kind) (c : Ctx)
    : Outcome (WasmCode.t * Ctx) :=
  let stack_slots := if has_safepoint_info code then stack_slots code else 0 in
  let safepoint_table_offset :=
    if has_safepoint_info code then safepoint_table_offset code else 0 in
  AddOwnedCode E
    (wrap (InstructionSize code))              (* instructions *)
    (wrap (relocation_size code))              (* reloc_size *)
    (wrap (SourcePositionTable_length code))   (* source positions *)
    None                                       (* index *)
    kind
    (wrap (constant_pool_offset code))
    (u32 stack_slots)
    (wrap safepoint_table_offset)
    (wrap (handler_table_offset code))
    kOther c.

(** [PatchJumpTable]: the slot and the target handed to
    [JumpTableAssembler::PatchJumpTableSlot]; [None] when [jump_table_] is
    null. *)
Definition PatchJumpTable (nm : NativeModule.t) (func_index : Z) (target : Address)
    : option (Address * Address) :=
  match NativeModule.jump_table_ nm with
  | None => None
  | Some jump_table =>
      (* DCHECK_LE(num_imported_functions_, func_index) *)
      let slot_idx := u32 (func_index - NativeModule.num_imported_functions_ nm) in
      let jump_table_slot :=
        wrap (WasmCode.instruction_start jump_table + slot_offset E slot_idx) in
      Some (jump_table_slot, target)
  end.

(** [AddCodeCopy]. *)
Definition AddCodeCopy (code : Code) (kind : Kind) (index : Z) (c : Ctx)
    : Outcome (WasmCode.t * Ctx) :=
  match AddAnonymousCode code kind c with
  | Fatal => Fatal
  | Done (ret, c1) =>
      (* ret->index_ = Just(index) *)
      let ret := WasmCode_set_index (Some index) ret in
      let c2 := with_this (write_code (inserted_at (this c) ret) ret) c1 in
      if index >=? NativeModule.num_imported_functions_ (this c2)
      then Done (ret, with_this (set_code index ret) c2)
      else Done (ret, c2)
  end.

(** [AddInterpreterEntry]: the code object, and the patch of the jump
    table. *)
Definition AddInterpreterEntry (code : Code) (index : Z) (c : Ctx)
    : Outcome (WasmCode.t * option (Address * Address) * Ctx) :=
  match AddAnonymousCode code kInterpreterEntry c with
  | Fatal => Fatal
  | Done (ret, c1) =>
      (* ret->index_ = Just(index) *)
      let ret := WasmCode_set_index (Some index) ret in
      let c2 := with_this (write_code (inserted_at (this c) ret) ret) c1 in
      Done (ret, PatchJumpTable (this c2) index (WasmCode.instruction_start ret), c2)
  end.

(** [AddCode]; [registered] is what the trap handler registry answers if it
    is asked.  The relocation loop and the flush of the instruction cache
    work on bytes that are not carried here. *)
Definition AddCode (desc : CodeDesc) (frame_slots index safepoint_table_offset
    handler_table_offset source_pos_table_length : Z) (tier : Tier) (registered : Z)
    (c : Ctx) : Outcome (WasmCode.t * option (Address * Address) * Ctx) :=
  match AddOwnedCode E
          (wrap (instr_size desc)) (wrap (reloc_size desc))
          (wrap source_pos_table_length) (Some index) kFunction
          (wrap (wrap_int (instr_size desc - constant_pool_size desc)))
          frame_slots safepoint_table_offset handler_table_offset tier c with
  | Fatal => Fatal
  | Done (ret, c1) =>
      match (if NativeModule.use_trap_handler_ (this c1)
             then RegisterTrapHandlerData registered ret else Done ret) with
      | Fatal => Fatal
      | Done ret =>
          let c2 := with_this (write_code (inserted_at (this c) ret) ret) c1 in
          let c3 := with_this (set_code index ret) c2 in
          Done (ret, PatchJumpTable (this c3) index (WasmCode.instruction_start ret), c3)
      end
  end.

End AddingCode.

(** What adding code leaves alone, the code table apart. *)
Definition directory (c : Ctx) :=
  (NativeModule.num_functions_ (this c), NativeModule.num_imported_functions_ (this c),
   NativeModule.jump_table_ (this c), NativeModule.use_trap_handler_ (this c)).

(** [index] is a declared function of the module: the two DCHECKs of
    [code], [has_code] and [set_code], on [uint32_t] values. *)
Definition declared (nm : NativeModule.t) (index : Z) : Prop :=
  0 <= NativeModule.num_imported_functions_ nm <= index /\
  index < NativeModule.num_functions_ nm < 2 ^ 32.

(** A function compiled to 100 bytes, and a wrapper of 64 bytes compiled by
    the other pipeline. *)
Definition sample_desc : CodeDesc :=
  {| instr_size := 100; reloc_size := 12; constant_pool_size := 0 |}.

Definition sample_wrapper : Code :=
  {| InstructionSize := 64; relocation_size := 8; SourcePositionTable_length := 0;
     constant_pool_offset := 64; has_safepoint_info := true; stack_slots := 3;
     safepoint_table_offset := 48; handler_table_offset := 0 |}.

(** ** Alignment *)

(** The operating system reserves regions at multiples of [m]. *)
Definition reserves_aligned (E : Env) (m : Z) : Prop :=
  forall n size hint a, reservation E n size hint = Some a -> IsAligned a m.

(** What the module has committed is a whole number of pages and, where
    commits go by reservation, every reservation starts on a page. *)
Definition page_aligned (E : Env) (nm : NativeModule.t) : Prop :=
  IsAligned (NativeModule.committed_code_space_ nm) (AllocatePageSize (platform E)) /\
  (V8_OS_WIN (platform E) = true ->
   Forall (fun v => IsAligned (VirtualMemory.address v) (AllocatePageSize (platform E)))
     (NativeModule.owned_code_space_ nm)).

(** What was page-aligned in the module before is so after. *)
Definition keeps_pages (E : Env) (c c' : Ctx) : Prop :=
  page_aligned E (this c) -> page_aligned E (this c').

(** Free space and code both start at multiples of [kCodeAlignment]. *)
Definition code_aligned (E : Env) (nm : NativeModule.t) : Prop :=
  Forall (fun d => IsAligned (r_start d) (kCodeAlignment (platform E)))
    (NativeModule.free_code_space_ nm) /\
  Forall (fun code => IsAligned (WasmCode.instruction_start code)
                        (kCodeAlignment (platform E)))
    (NativeModule.owned_code_ nm).

Definition keeps_code_aligned (E : Env) (c c' : Ctx) : Prop :=
  code_aligned E (this c) -> code_aligned E (this c').

(** ** WasmCode: the constant pool *)

(** [constant_pool()]; the flag [FLAG_enable_embedded_constant_pool] is an
    argument. *)
Definition constant_pool (FLAG_enable_embedded_constant_pool : bool) (code : WasmCode.t)
    : Address :=
  if FLAG_enable_embedded_constant_pool then
    if WasmCode.constant_pool_offset_ code <? WasmCode.instructions_size code
    then wrap (WasmCode.instruction_start code + WasmCode.constant_pool_offset_ code)
    else kNullAddress
  else kNullAddress.

(** ** NativeModule: the helpers of the tests *)

Definition set_num_functions (v : Z) (m : NativeModule.t) : NativeModule.t :=
  NativeModule.mk (NativeModule.instance_id m) (NativeModule.owned_code_ m) v
    (NativeModule.num_imported_functions_ m) (NativeModule.code_table_ m)
    (NativeModule.jump_table_ m) (NativeModule.free_code_space_ m)
    (NativeModule.allocated_code_space_ m) (NativeModule.owned_code_space_ m)
    (NativeModule.committed_code_space_ m) (NativeModule.modification_scope_depth_ m)
    (NativeModule.can_request_more_memory_ m) (NativeModule.use_trap_handler_ m)
    (NativeModule.is_executable_ m) (NativeModule.lazy_compile_frozen_ m).

(** [memcpy(dst, src, n * sizeof( *dst))] on two tables that both have [n]
    entries or more. *)
Definition copy_entries {A : Type} (n : nat) (src dst : list A) : list A :=
  take n src ++ drop n dst.

(** [ReserveCodeTableForTesting(max_functions)]. *)
Definition ReserveCodeTableForTesting (E : Env) (max_functions : Z) (c : Ctx)
    : Outcome Ctx :=
  (* DCHECK_LE(num_functions_, max_functions) *)
  let nm := this c in
  let num_wasm := u32 (NativeModule.num_functions_ nm
                       - NativeModule.num_imported_functions_ nm) in
  let max_wasm := u32 (max_functions - NativeModule.num_imported_functions_ nm) in
  let new_table :=
    copy_entries (Z.to_nat num_wasm) (NativeModule.code_table_ nm)
      (repeat None (Z.to_nat max_wasm)) in
  let c1 := with_this (NativeModule.set_code_table new_table) c in
  (* Re-allocate jump table. *)
  match CreateEmptyJumpTable E max_wasm c1 with
  | Fatal => Fatal
  | Done (jt, c2) => Done (with_this (NativeModule.set_jump_table (Some jt)) c2)
  end.

(** [SetNumFunctionsForTesting(num_functions)]. *)
Definition SetNumFunctionsForTesting (num_functions : Z) (nm : NativeModule.t)
    : NativeModule.t :=
  set_num_functions num_functions nm.

(** [SetCodeForTesting(index, code)]; the pointer may be null. *)
Definition SetCodeForTesting (index : Z) (code : option WasmCode.t) (nm : NativeModule.t)
    : NativeModule.t :=
  (* DCHECK_LT(index, num_functions_); DCHECK_LE(num_imported_functions_, index) *)
  let i := Z.to_nat (u32 (index - NativeModule.num_imported_functions_ nm)) in
  NativeModule.set_code_table (<[i := code]> (NativeModule.code_table_ nm)) nm.

(** * Properties *)

(** ** Words *)

Lemma wrap_is_word z : is_word (wrap z).
Proof. unfold is_word, wrap, kWordBits. apply Z.mod_pos_bound. lia. Qed.

Lemma wrap_small z : is_word z -> wrap z = z.
Proof. unfold is_word, wrap. intros H. now apply Z.mod_small. Qed.

Lemma wrap_sub_add a b : is_word a -> wrap (wrap (a - b) + b) = a.
Proof.
  intros Ha. unfold wrap.
  rewrite Zplus_mod_idemp_l. replace (a - b + b) with a by lia.
  now apply Z.mod_small.
Qed.

Lemma wrap_add_sub a b : is_word b -> wrap (wrap (a + b) - a) = b.
Proof.
  intros Hb. unfold wrap.
  rewrite Zminus_mod_idemp_l. replace (a + b - a) with b by lia.
  now apply Z.mod_small.
Qed.

Lemma gtb_true a b : b < a -> (a >? b) = true.
Proof. intros H. rewrite Z.gtb_ltb. now apply Z.ltb_lt. Qed.

Lemma gtb_false a b : a <= b -> (a >? b) = false.
Proof. intros H. rewrite Z.gtb_ltb. now apply Z.ltb_ge. Qed.

Lemma range_size_wf r : AddressRange.wf r -> AddressRange.size r = r_end r - r_start r.
Proof.
  intros [? ?]. unfold AddressRange.size. apply wrap_small. unfold is_word. lia.
Qed.

(** ** AddressRange *)

(** C10. The conversion of an [AddressRange] to [bool] is true exactly when
    [start] is the null address.  Hence the default (sentinel, empty) range
    converts to true, every range whose start is not null converts to false,
    in particular every valid non-empty range, and [is_empty] is another
    test, [start == end]: a range such as [4096, 4096) is empty and converts
    to false. *)
Theorem address_range_bool_conversion :
  (forall r, AddressRange.to_bool r = true <-> r_start r = kNullAddress) /\
  AddressRange.to_bool AddressRange.default = true /\
  AddressRange.is_empty AddressRange.default = true /\
  (forall r, r_start r <> kNullAddress -> AddressRange.to_bool r = false) /\
  (forall r, AddressRange.valid r -> AddressRange.is_empty r = false ->
             AddressRange.to_bool r = false) /\
  (forall r, AddressRange.is_empty r = true <-> r_start r = r_end r) /\
  (AddressRange.is_empty (Range 4096 4096) = true /\
   AddressRange.to_bool (Range 4096 4096) = false).
Proof.
  unfold AddressRange.to_bool, AddressRange.is_empty, AddressRange.valid.
  repeat split; try reflexivity.
  - intros H. now apply Z.eqb_eq.
  - intros H. now apply Z.eqb_eq.
  - intros r H. now apply Z.eqb_neq.
  - intros r [Hle Hnull] Hne. apply Z.eqb_neq. apply Z.eqb_neq in Hne.
    intros H0. apply Hne. rewrite (Hnull H0). exact H0.
  - intros H. now apply Z.eqb_eq.
  - intros H. now apply Z.eqb_eq.
Qed.

Lemma address_range_bool_conversion_witness :
  AddressRange.valid (Range 4096 8192) /\
  AddressRange.to_bool (Range 4096 8192) = false.
Proof.
  assert (Hv : AddressRange.valid (Range 4096 8192)).
  { unfold AddressRange.valid, kNullAddress; simpl. lia. }
  split; [exact Hv |].
  destruct address_range_bool_conversion as (_ & _ & _ & _ & H & _).
  apply H; [exact Hv | reflexivity].
Defined.

(** ** DisjointAllocationPool: Allocate *)

Lemma Allocate_skip before r after size :
  Forall (fun d => AddressRange.size d < size) before ->
  Pool.Allocate (before ++ r :: after) size =
  (fst (Pool.Allocate (r :: after) size),
   before ++ snd (Pool.Allocate (r :: after) size)).
Proof.
  induction 1 as [| d before Hd _ IH].
  - change ([] ++ r :: after) with (r :: after).
    destruct (Pool.Allocate (r :: after) size); reflexivity.
  - change ((d :: before) ++ r :: after) with (d :: (before ++ r :: after)).
    cbn [Pool.Allocate]. rewrite IH.
    assert (Hgt : (size >? AddressRange.size d) = true) by (apply gtb_true; lia).
    rewrite Hgt. reflexivity.
Qed.

Lemma Allocate_none_fits p size :
  Forall (fun d => AddressRange.size d < size) p ->
  Pool.Allocate p size = (AddressRange.default, p).
Proof.
  induction 1 as [| d p Hd _ IH]; [reflexivity |].
  cbn [Pool.Allocate]. rewrite IH.
  assert (Hgt : (size >? AddressRange.size d) = true) by (apply gtb_true; lia).
  now rewrite Hgt.
Qed.

Lemma Allocate_zero_is_empty p :
  Forall AddressRange.wf p -> AddressRange.is_empty (fst (Pool.Allocate p 0)) = true.
Proof.
  intros Hwf. destruct Hwf as [| d p Hd _]; [reflexivity |].
  cbn [Pool.Allocate].
  assert (Hsz : 0 <= AddressRange.size d) by apply wrap_is_word.
  assert (Hgt : (0 >? AddressRange.size d) = false) by (apply gtb_false; lia).
  rewrite Hgt.
  assert (Hw : wrap (r_start d + 0) = r_start d).
  { rewrite Z.add_0_r. apply wrap_small. destruct Hd. unfold is_word. lia. }
  rewrite Hw.
  destruct (0 =? AddressRange.size d); cbn; apply Z.eqb_refl.
Qed.

(** C4. [Allocate(size)] scans the ranges in order; the first range [r] whose
    size is at least [size] yields [(r.start, r.start + size)] and is erased
    when the sizes are equal, otherwise its start advances by [size]; when no
    range fits the result is the empty default range and the pool is as it
    was; and a request of size zero yields an empty range.  The sum
    [r.start + size] is a word sum; it does not wrap in a pool of well-formed
    ranges. *)
Theorem allocate_first_fit (p : Pool.t) (size : Z) :
  (forall before r after,
      p = before ++ r :: after ->
      Forall (fun d => AddressRange.size d < size) before ->
      size <= AddressRange.size r ->
      Pool.Allocate p size =
      (Range (r_start r) (wrap (r_start r + size)),
       before ++ (if size =? AddressRange.size r then after
                  else Range (wrap (r_start r + size)) (r_end r) :: after))) /\
  (forall r, In r p -> AddressRange.wf r -> 0 <= size <= AddressRange.size r ->
             wrap (r_start r + size) = r_start r + size) /\
  (Forall (fun d => AddressRange.size d < size) p ->
   Pool.Allocate p size = (AddressRange.default, p) /\
   AddressRange.is_empty AddressRange.default = true) /\
  (size = 0 -> Forall AddressRange.wf p ->
   AddressRange.is_empty (fst (Pool.Allocate p size)) = true).
Proof.
  repeat split.
  - intros before r after -> Hbefore Hfit.
    rewrite Allocate_skip by exact Hbefore.
    cbn [Pool.Allocate].
    assert (Hgt : (size >? AddressRange.size r) = false) by (apply gtb_false; lia).
    rewrite Hgt. now destruct (size =? AddressRange.size r).
  - intros r _ Hwf Hsz. rewrite (range_size_wf r Hwf) in Hsz.
    apply wrap_small. destruct Hwf. unfold is_word. lia.
  - now apply Allocate_none_fits.
  - intros -> Hwf. now apply Allocate_zero_is_empty.
Qed.

Lemma allocate_first_fit_witness :
  Pool.Allocate [Range 4096 4160; Range 8192 12288] 128 =
  (Range 8192 8320, [Range 4096 4160; Range 8320 12288]).
Proof.
  destruct (allocate_first_fit [Range 4096 4160; Range 8192 12288] 128) as (H & _).
  apply (H [Range 4096 4160] (Range 8192 12288) []).
  - reflexivity.
  - repeat constructor.
  - vm_compute. discriminate.
Defined.

(** ** DisjointAllocationPool: Merge *)

Lemma Merge_skip before q r :
  Forall (fun d => r_end d < r_start r) before ->
  Pool.Merge (before ++ q) r = before ++ Pool.Merge q r.
Proof.
  induction 1 as [| d before Hd _ IH]; [reflexivity |].
  change ((d :: before) ++ q) with (d :: (before ++ q)).
  cbn [Pool.Merge].
  assert (Hlt : (r_end d <? r_start r) = true) by (apply Z.ltb_lt; lia).
  rewrite Hlt, IH. reflexivity.
Qed.

(** The first range of a merged pool starts where [r] starts or where the
    pool started. *)
Lemma Merge_head p r :
  match Pool.Merge p r with
  | [] => False
  | h :: _ =>
      r_start h = r_start r \/
      match p with
      | [] => False
      | d :: _ => r_start h = r_start d
      end
  end.
Proof.
  destruct p as [| d rest]; cbn [Pool.Merge]; [now left |].
  destruct (r_end d <? r_start r); [now right |].
  destruct (r_start d =? r_end r); [now left |].
  destruct (r_start d >? r_end r); [now left |].
  destruct rest as [| n rest']; [now right |].
  destruct (r_end r =? r_start n); now right.
Qed.

Lemma sorted_cons_inv a q : Pool.sorted (a :: q) -> Pool.sorted q.
Proof. cbn [Pool.sorted]. tauto. Qed.

Lemma Merge_sorted p r :
  Pool.sorted p -> Pool.all_valid p -> r_start r <= r_end r ->
  Pool.disjoint_from p r ->
  Pool.sorted (Pool.Merge p r) /\ Pool.all_valid (Pool.Merge p r).
Proof.
  unfold Pool.all_valid, Pool.disjoint_from.
  induction p as [| d rest IH]; intros Hs Hv Hr Hdis.
  - cbn. split; [tauto | now repeat constructor].
  - apply Forall_cons_1 in Hv as [Hd Hv]. apply Forall_cons_1 in Hdis as [Hdd Hdis].
    cbn [Pool.Merge].
    destruct (Z.ltb_spec (r_end d) (r_start r)) as [Hlt | Hge].
    { (* d lies strictly before r *)
      destruct (IH (sorted_cons_inv _ _ Hs) Hv Hr Hdis) as [IHs IHv].
      split; [| now constructor].
      pose proof (Merge_head rest r) as Hh.
      destruct (Pool.Merge rest r) as [| h t]; [contradiction |].
      cbn [Pool.sorted] in *. split; [| exact IHs].
      destruct Hh as [-> | Hh]; [lia |].
      destruct rest as [| d' rest']; [contradiction |].
      rewrite Hh. tauto. }
    destruct (Z.eqb_spec (r_start d) (r_end r)) as [Heq | Hne].
    { (* r is adjacent from below *)
      split.
      - destruct rest; cbn [Pool.sorted] in *; cbn; tauto.
      - constructor; [cbn; lia | exact Hv]. }
    destruct (r_start d >? r_end r) eqn:Hgt.
    { (* r lies strictly before d *)
      apply Z.gtb_lt in Hgt. split.
      - cbn [Pool.sorted] in *. tauto.
      - now repeat constructor. }
    (* r is adjacent from above *)
    rewrite Z.gtb_ltb in Hgt. apply Z.ltb_ge in Hgt.
    assert (Hadj : r_end d = r_start r) by lia.
    destruct rest as [| n rest'].
    { split; [cbn; tauto | repeat constructor; cbn; lia]. }
    apply Forall_cons_1 in Hv as [Hn Hv]. apply Forall_cons_1 in Hdis as [Hdn Hdis].
    assert (Hdn' : r_end d < r_start n) by (cbn [Pool.sorted] in Hs; tauto).
    destruct (Z.eqb_spec (r_end r) (r_start n)) as [Hfold | Hnofold].
    + split.
      * destruct rest'; cbn [Pool.sorted] in *; cbn; tauto.
      * constructor; [cbn; lia | exact Hv].
    + split.
      * cbn [Pool.sorted] in *. cbn. split; [lia | tauto].
      * constructor; [cbn; lia |]. now constructor.
Qed.

Lemma Merge_no_empty p r :
  Pool.no_empty p -> r_start r < r_end r -> Pool.no_empty (Pool.Merge p r).
Proof.
  unfold Pool.no_empty.
  induction p as [| d rest IH]; intros Hv Hr.
  - now repeat constructor.
  - apply Forall_cons_1 in Hv as [Hd Hv]. cbn [Pool.Merge].
    destruct (Z.ltb_spec (r_end d) (r_start r)) as [Hlt | Hge].
    { constructor; [exact Hd | now apply IH]. }
    destruct (Z.eqb_spec (r_start d) (r_end r)) as [Heq | Hne].
    { constructor; [cbn; lia | exact Hv]. }
    destruct (r_start d >? r_end r) eqn:Hgt.
    { now repeat constructor. }
    rewrite Z.gtb_ltb in Hgt. apply Z.ltb_ge in Hgt.
    destruct rest as [| n rest'].
    { repeat constructor; cbn; lia. }
    apply Forall_cons_1 in Hv as [Hn Hv].
    destruct (Z.eqb_spec (r_end r) (r_start n)) as [Hfold | Hnofold].
    + constructor; [cbn; lia | exact Hv].
    + constructor; [cbn; lia |]. now constructor.
Qed.

Lemma Merge_adjacent_above d after r :
  r_start r <= r_end d -> r_start d = r_end r ->
  Pool.Merge (d :: after) r = Range (r_start r) (r_end d) :: after.
Proof.
  intros Hge Heq. cbn [Pool.Merge].
  assert (H1 : (r_end d <? r_start r) = false) by (apply Z.ltb_ge; lia).
  rewrite H1. apply Z.eqb_eq in Heq. now rewrite Heq.
Qed.

Lemma Merge_adjacent_below d after r :
  r_end d = r_start r -> r_start d < r_end r ->
  Pool.Merge (d :: after) r = Pool.fold_next (Range (r_start d) (r_end r)) after.
Proof.
  intros Hadj Hlt. cbn [Pool.Merge].
  assert (H1 : (r_end d <? r_start r) = false) by (apply Z.ltb_ge; lia).
  assert (H2 : (r_start d =? r_end r) = false) by (apply Z.eqb_neq; lia).
  assert (H3 : (r_start d >? r_end r) = false) by (apply gtb_false; lia).
  rewrite H1, H2, H3. reflexivity.
Qed.

(** C3. [Merge(r)] of a range that overlaps no stored range keeps the pool
    sorted with a gap between consecutive ranges (and free of empty ranges
    when [r] is not empty).  A range adjacent above [r], met first, is
    extended downward to [r.start]; a range adjacent below [r] is extended
    upward to [r.end] and then absorbs its successor when that successor
    starts at [r.end].  From the pool [0,100) [200,300) [400,500), merging
    [100,200) gives [0,300) [400,500), and merging [300,400) next gives
    [0,500). *)
Theorem merge_coalesces :
  (forall p r,
      Pool.sorted p -> Pool.all_valid p -> r_start r <= r_end r ->
      Pool.disjoint_from p r ->
      Pool.sorted (Pool.Merge p r) /\ Pool.all_valid (Pool.Merge p r) /\
      (Pool.no_empty p -> r_start r < r_end r -> Pool.no_empty (Pool.Merge p r))) /\
  (forall before d after r,
      Forall (fun x => r_end x < r_start r) before ->
      r_start r <= r_end d -> r_start d = r_end r ->
      Pool.Merge (before ++ d :: after) r =
      before ++ Range (r_start r) (r_end d) :: after) /\
  (forall before d after r,
      Forall (fun x => r_end x < r_start r) before ->
      r_end d = r_start r -> r_start d < r_end r ->
      Pool.Merge (before ++ d :: after) r =
      before ++ Pool.fold_next (Range (r_start d) (r_end r)) after) /\
  Pool.Merge [Range 0 100; Range 200 300; Range 400 500] (Range 100 200) =
    [Range 0 300; Range 400 500] /\
  Pool.Merge [Range 0 300; Range 400 500] (Range 300 400) = [Range 0 500].
Proof.
  split; [| split; [| split; [| split]]].
  - intros p r Hs Hv Hr Hdis.
    destruct (Merge_sorted p r Hs Hv Hr Hdis) as [H1 H2].
    split; [exact H1 | split; [exact H2 |]].
    intros Hne Hr'. now apply Merge_no_empty.
  - intros before d after r Hb Hge Heq.
    rewrite Merge_skip by exact Hb. now rewrite Merge_adjacent_above.
  - intros before d after r Hb Hadj Hlt.
    rewrite Merge_skip by exact Hb. now rewrite Merge_adjacent_below.
  - reflexivity.
  - reflexivity.
Qed.

Lemma merge_coalesces_witness :
  Pool.sorted (Pool.Merge [Range 4096 8192; Range 12288 16384] (Range 8192 12288)) /\
  Pool.Merge [Range 4096 8192; Range 12288 16384] (Range 8192 12288) = [Range 4096 16384].
Proof.
  destruct merge_coalesces as (Hinv & _ & Hbelow & _).
  split.
  - apply (Hinv [Range 4096 8192; Range 12288 16384] (Range 8192 12288)).
    + cbn. lia.
    + repeat constructor; cbn; lia.
    + cbn. lia.
    + repeat constructor; cbn; lia.
  - apply (Hbelow [] (Range 4096 8192) [Range 12288 16384] (Range 8192 12288)).
    + constructor.
    + reflexivity.
    + cbn. lia.
Defined.

(** ** WasmCodeManager::Commit *)

Lemma Commit_cas_short failures size r :
  r < size -> Commit_cas failures size r = None.
Proof.
  intros H. assert (Hlt : (r <? size) = true) by now apply Z.ltb_lt.
  destruct failures; cbn; now rewrite Hlt.
Qed.

Lemma Commit_cas_enough failures size r :
  size <= r -> Commit_cas failures size r = Some (wrap (r - size)).
Proof.
  intros H. assert (Hge : (r <? size) = false) by now apply Z.ltb_ge.
  induction failures as [| n IH]; cbn; rewrite Hge; [reflexivity | exact IH].
Qed.

(** Replaces a closed term by its value. *)
Ltac evaluate t :=
  let v := eval vm_compute in t in
  let H := fresh in
  assert (H : t = v) by (vm_compute; reflexivity);
  rewrite H; clear H.

Ltac run_monad :=
  unfold bind, ret, get_os, put_os, get_manager, modify_manager, get_this,
    modify_this; cbn.

Lemma Commit_short E start size c :
  remaining c < size ->
  fst (Commit E start size c) = false /\
  manager (snd (Commit E start size c)) = manager c /\
  this (snd (Commit E start size c)) = this c /\
  permission_log (os (snd (Commit E start size c))) = permission_log (os c).
Proof.
  intros H. unfold Commit, next_cas_failures. run_monad.
  rewrite Commit_cas_short by exact H. cbn. auto.
Qed.

Lemma Commit_granted E start size c :
  size <= remaining c -> os_grants E c = true ->
  fst (Commit E start size c) = true /\
  remaining (snd (Commit E start size c)) = wrap (remaining c - size) /\
  this (snd (Commit E start size c)) = this c.
Proof.
  intros H Hos. unfold os_grants in Hos.
  unfold Commit, next_cas_failures, SetPermissions. run_monad.
  rewrite Commit_cas_enough by exact H. cbn. rewrite Hos. cbn. auto.
Qed.

Lemma Commit_refused E start size c :
  size <= remaining c -> os_grants E c = false ->
  fst (Commit E start size c) = false /\
  remaining (snd (Commit E start size c)) = wrap (wrap (remaining c - size) + size) /\
  this (snd (Commit E start size c)) = this c.
Proof.
  intros H Hos. unfold os_grants in Hos.
  unfold Commit, next_cas_failures, SetPermissions. run_monad.
  rewrite Commit_cas_enough by exact H. cbn. rewrite Hos. cbn. auto.
Qed.

(** Whatever happens, a commit that returns false leaves the counter as it
    was, one that returns true took [size] from it, and the module is not
    touched. *)
Lemma Commit_cases E start size c :
  is_word (remaining c) -> 0 <= size ->
  let r := Commit E start size c in
  this (snd r) = this c /\
  ((fst r = false /\ remaining (snd r) = remaining c) \/
   (fst r = true /\ size <= remaining c /\ remaining (snd r) = remaining c - size)).
Proof.
  intros Hw Hs r. subst r.
  destruct (Z.lt_ge_cases (remaining c) size) as [Hlt | Hge].
  - destruct (Commit_short E start size c Hlt) as (H1 & H2 & H3 & _).
    split; [exact H3 |]. left. now rewrite H1, H2.
  - destruct (os_grants E c) eqn:Hos.
    + destruct (Commit_granted E start size c Hge Hos) as (H1 & H2 & H3).
      split; [exact H3 |]. right. rewrite H1, H2.
      split; [reflexivity | split; [exact Hge |]].
      apply wrap_small. unfold is_word in *. lia.
    + destruct (Commit_refused E start size c Hge Hos) as (H1 & H2 & H3).
      split; [exact H3 |]. left. rewrite H1, H2.
      split; [reflexivity | now apply wrap_sub_add].
Qed.

(** C2. [Commit(start, size)] returns false and leaves the counter alone when
    the counter is below [size].  Otherwise the CAS loop stores the counter
    less [size]; if the permission change then succeeds the call returns true
    with exactly [size] taken, and if it fails [size] is added back and the
    call returns false.  So every failing call leaves the counter unchanged,
    and a request for exactly what remains succeeds, the operating system
    permitting, and leaves zero.  Alignment of [start] and [size] plays no
    part. *)
Theorem commit_error_semantics (E : Env) (start size : Z) (c : Ctx) :
  IsAligned start (AllocatePageSize (platform E)) ->
  IsAligned size (AllocatePageSize (platform E)) ->
  is_word size -> is_word (remaining c) ->
  let r := Commit E start size c in
  (remaining c < size -> fst r = false /\ remaining (snd r) = remaining c) /\
  (forall failures,
      size <= remaining c ->
      Commit_cas failures size (remaining c) = Some (remaining c - size)) /\
  (size <= remaining c -> os_grants E c = true ->
   fst r = true /\ remaining (snd r) = remaining c - size) /\
  (size <= remaining c -> os_grants E c = false ->
   fst r = false /\ remaining (snd r) = remaining c) /\
  (fst r = false -> remaining (snd r) = remaining c) /\
  (size = remaining c -> os_grants E c = true ->
   fst r = true /\ remaining (snd r) = 0).
Proof.
  intros _ _ Hsize Hrem r. subst r.
  assert (Hsub : size <= remaining c -> wrap (remaining c - size) = remaining c - size).
  { intros Hle. apply wrap_small. unfold is_word in *. lia. }
  split; [| split; [| split; [| split; [| split]]]].
  - intros H. destruct (Commit_short E start size c H) as (H1 & H2 & _).
    now rewrite H1, H2.
  - intros failures H. rewrite Commit_cas_enough by exact H. now rewrite Hsub.
  - intros H H0. destruct (Commit_granted E start size c H H0) as (H1 & H2 & _).
    rewrite H1, H2, Hsub by exact H. auto.
  - intros H H0. destruct (Commit_refused E start size c H H0) as (H1 & H2 & _).
    rewrite H1, H2, wrap_sub_add by exact Hrem. auto.
  - intros H.
    destruct (Commit_cases E start size c Hrem) as (_ & [[_ Hr] | [Ht _]]);
      [unfold is_word in Hsize; lia | exact Hr |].
    rewrite Ht in H. discriminate.
  - intros H H0.
    destruct (Commit_granted E start size c) as (H1 & H2 & _); [lia | exact H0 |].
    rewrite H1, H2, Hsub by lia. split; [reflexivity | lia].
Qed.

Lemma commit_error_semantics_witness :
  fst (Commit (obliging sample_platform) 12288 8192
         (sample_ctx 8192)) = true /\
  remaining (snd (Commit (obliging sample_platform) 12288 8192
                    (sample_ctx 8192))) = 0.
Proof.
  assert (Hw : is_word 8192) by (unfold is_word, kWordBits; lia).
  destruct (commit_error_semantics (obliging sample_platform) 12288 8192
              (sample_ctx 8192)) as (_ & _ & _ & _ & _ & H).
  - reflexivity.
  - reflexivity.
  - exact Hw.
  - exact Hw.
  - apply H; reflexivity.
Defined.

(** ** The jump table: call targets and slot indices *)

Lemma u32_small z : 0 <= z < 2 ^ 32 -> u32 z = z.
Proof. intros H. unfold u32. now apply Z.mod_small. Qed.

Lemma slot_offset_small E idx :
  32 <= kSlotProductBits (platform E) ->
  0 <= idx * kJumpTableSlotSize (platform E) < 2 ^ 32 ->
  slot_offset E idx = idx * kJumpTableSlotSize (platform E).
Proof.
  intros Hbits H. unfold slot_offset. apply Z.mod_small.
  assert (2 ^ 32 <= 2 ^ kSlotProductBits (platform E))
    by (apply Z.pow_le_mono_r; lia).
  lia.
Qed.

(** C5, as the code has it.  The slot offset travels through a 32-bit
    [offset]: the round trip returns [f] for every declared function index
    [f] of a module whose jump table, one slot per declared function, is no
    larger than 2^32 bytes. *)
Theorem jump_table_round_trip (E : Env) (nm : NativeModule.t) (jt : WasmCode.t) (f : Z) :
  0 < kJumpTableSlotSize (platform E) ->
  32 <= kSlotProductBits (platform E) ->
  NativeModule.jump_table_ nm = Some jt ->
  0 <= NativeModule.num_imported_functions_ nm ->
  NativeModule.num_functions_ nm < 2 ^ 32 ->
  (NativeModule.num_functions_ nm - NativeModule.num_imported_functions_ nm)
    * kJumpTableSlotSize (platform E) <= 2 ^ 32 ->
  NativeModule.num_imported_functions_ nm <= f < NativeModule.num_functions_ nm ->
  round_trip E nm f = Some f.
Proof.
  intros Hk Hbits Hjt Hni Hnf Hsize Hf.
  unfold round_trip, GetCallTargetForFunction, GetFunctionIndexFromJumpTableSlot.
  rewrite Hjt.
  set (ni := NativeModule.num_imported_functions_ nm) in *.
  set (k := kJumpTableSlotSize (platform E)) in *.
  assert (Hidx : u32 (f - ni) = f - ni) by (apply u32_small; lia).
  rewrite Hidx.
  assert (Hprod : 0 <= (f - ni) * k < 2 ^ 32) by nia.
  rewrite (slot_offset_small E (f - ni) Hbits Hprod). fold k.
  rewrite wrap_add_sub by (unfold is_word, kWordBits; lia).
  rewrite (u32_small ((f - ni) * k)) by exact Hprod.
  rewrite Z.div_mul by lia.
  rewrite Hidx. f_equal. replace (ni + (f - ni)) with f by lia.
  apply u32_small. lia.
Qed.

Lemma jump_table_round_trip_witness :
  round_trip (obliging sample_platform) sample_module 4 = Some 4.
Proof.
  apply (jump_table_round_trip (obliging sample_platform) sample_module
           sample_jump_table 4).
  - reflexivity.
  - discriminate.
  - reflexivity.
  - discriminate.
  - reflexivity.
  - discriminate.
  - split; [discriminate | reflexivity].
Defined.

(** [crowded_module] and [crowded_module_wide] are what the constructor
    builds in a fresh reservation at 2^33. *)
Lemma crowded_module_constructed :
  match NativeModule_new (obliging sample_platform) 1 268435457 0 false
          (VirtualMemory.mk (2 ^ 33) (2 ^ 28)) false quiet_os
          (WasmCodeManager.create 16777216) with
  | Done c => this c = crowded_module
  | Fatal => False
  end.
Proof.
  unfold NativeModule_new, crowded_module.
  change (u32 (268435457 - 0)) with 268435457.
  change (268435457 >? 0) with true. cbv iota.
  generalize (repeat (@None WasmCode.t) (Z.to_nat 268435457)). intros table.
  vm_compute. reflexivity.
Qed.

Lemma crowded_module_wide_constructed :
  match NativeModule_new (obliging sample_platform_wide) 1 268435457 0 false
          (VirtualMemory.mk (2 ^ 33) (2 ^ 33)) false quiet_os
          (WasmCodeManager.create (2 ^ 40)) with
  | Done c => this c = crowded_module_wide
  | Fatal => False
  end.
Proof.
  unfold NativeModule_new, crowded_module_wide.
  change (u32 (268435457 - 0)) with 268435457.
  change (268435457 >? 0) with true. cbv iota.
  generalize (repeat (@None WasmCode.t) (Z.to_nat 268435457)). intros table.
  vm_compute. reflexivity.
Qed.

(** C5 as stated fails once the jump table reaches 2^32 bytes: function
    2^28 of a module with 2^28 + 1 declared functions and 16-byte slots has
    slot offset 2^32, which the 32-bit [offset] of
    [GetFunctionIndexFromJumpTableSlot] reads as 0, so the round trip answers
    0.  This is so whether the slot product is computed in 32 or in 64 bits;
    in the second case the slot even lies inside the jump table.  Both
    modules are the constructor's. *)
Lemma jump_table_round_trip_truncates :
  (NativeModule.num_imported_functions_ crowded_module <= 268435456
   /\ 268435456 < NativeModule.num_functions_ crowded_module)
  /\ round_trip (obliging sample_platform) crowded_module 268435456 = Some 0
  /\ round_trip (obliging sample_platform) crowded_module 268435456 <> Some 268435456
  /\ GetCallTargetForFunction (obliging sample_platform_wide) crowded_module_wide 268435456
     = Some (2 ^ 33 + 2 ^ 32)
  /\ is_jump_table_slot crowded_module_wide (2 ^ 33 + 2 ^ 32) = true
  /\ round_trip (obliging sample_platform_wide) crowded_module_wide 268435456 = Some 0
  /\ match NativeModule_new (obliging sample_platform) 1 268435457 0 false
             (VirtualMemory.mk (2 ^ 33) (2 ^ 28)) false quiet_os
             (WasmCodeManager.create 16777216) with
     | Done c => this c = crowded_module
     | Fatal => False
     end
  /\ match NativeModule_new (obliging sample_platform_wide) 1 268435457 0 false
             (VirtualMemory.mk (2 ^ 33) (2 ^ 33)) false quiet_os
             (WasmCodeManager.create (2 ^ 40)) with
     | Done c => this c = crowded_module_wide
     | Fatal => False
     end.
Proof.
  assert (H32 : round_trip (obliging sample_platform) crowded_module 268435456 = Some 0)
    by (lazy; reflexivity).
  split; [split; [discriminate | reflexivity] |].
  split; [exact H32 |].
  split; [rewrite H32; discriminate |].
  split; [lazy; reflexivity |].
  split; [lazy; reflexivity |].
  split; [lazy; reflexivity |].
  split; [exact crowded_module_constructed | exact crowded_module_wide_constructed].
Qed.

(** ** std::upper_bound on a partitioned sequence *)

Lemma div2_lt len : (0 < len)%nat -> (Nat.div2 len < len)%nat.
Proof. intros H. apply Nat.lt_div2. exact H. Qed.

Lemma upper_bound_loop_finds {A} (comp : A -> bool) (v : list A) (n : nat) :
  partition_point comp v n ->
  forall fuel first len,
    (len <= fuel)%nat -> (first <= n <= first + len)%nat ->
    (first + len <= length v)%nat ->
    upper_bound_loop comp v fuel first len = n.
Proof.
  intros [Hn Hpart]. induction fuel as [| fuel IH]; intros first len Hfuel Hrange Hlen.
  - cbn. lia.
  - cbn [upper_bound_loop]. destruct len as [| len']; [lia |].
    remember (S len') as len eqn:Hl.
    assert (Hhalf : (Nat.div2 len < len)%nat) by (apply div2_lt; lia).
    generalize dependent (Nat.div2 len). intros half Hhalf.
    destruct (lookup_lt_is_Some_2 v (first + half)) as [x Hx]; [lia |].
    rewrite Hx. destruct (comp x) eqn:Hc.
    + apply IH; [lia | | lia].
      apply (Hpart _ _ Hx) in Hc. lia.
    + apply IH; [lia | | lia].
      assert (Hnot : ~ (n <= first + half)%nat).
      { intros Hle. apply (Hpart _ _ Hx) in Hle. congruence. }
      lia.
Qed.

Lemma upper_bound_partition_point {A} (comp : A -> bool) (v : list A) (n : nat) :
  partition_point comp v n -> upper_bound comp v = n.
Proof.
  intros H. unfold upper_bound.
  apply (upper_bound_loop_finds comp v n H); [lia | destruct H; lia | lia].
Qed.

(** ** NativeModule::Lookup *)

Lemma owned_code_sorted_starts v : owned_code_sorted v -> starts_sorted v.
Proof.
  unfold owned_code_sorted, starts_sorted.
  induction 1 as [| a q Hq IH Ha]; constructor; [exact IH |].
  rewrite Forall_forall in *. intros x Hx. destruct (Ha x Hx). lia.
Qed.

Lemma count_upto_partition pc v :
  starts_sorted v ->
  partition_point (WasmCodeUniquePtrComparator pc) v (count_upto pc v).
Proof.
  unfold starts_sorted, WasmCodeUniquePtrComparator.
  induction 1 as [| a q Hq IH Ha].
  - split; [cbn; lia |]. intros i x Hx. destruct i; discriminate.
  - destruct IH as [IHn IH]. cbn [count_upto].
    destruct (Z.leb_spec (WasmCode.instruction_start a) pc) as [Hle | Hgt].
    + split; [cbn; lia |]. intros [| i] x Hx.
      * injection Hx as <-. split; [| lia].
        intros Hc. apply Z.ltb_lt in Hc. lia.
      * cbn in Hx. rewrite (IH i x Hx). lia.
    + split; [cbn; lia |]. intros i x Hx. split; [lia |]. intros _.
      apply Z.ltb_lt. destruct i as [| i].
      * injection Hx as <-. exact Hgt.
      * cbn in Hx. apply list_elem_of_lookup_2 in Hx.
        rewrite Forall_forall in Ha. specialize (Ha x Hx). cbn beta in Ha. lia.
Qed.

Lemma upper_bound_owned_code pc v :
  starts_sorted v ->
  upper_bound (WasmCodeUniquePtrComparator pc) v = count_upto pc v.
Proof. intros H. apply upper_bound_partition_point, count_upto_partition, H. Qed.

Lemma count_upto_length pc v : (count_upto pc v <= length v)%nat.
Proof.
  induction v as [| c v IH]; cbn; [lia |].
  destruct (WasmCode.instruction_start c <=? pc); cbn; lia.
Qed.

(** What [Lookup] returns on a sorted [owned_code_]. *)
Lemma Lookup_sorted nm pc :
  owned_code_sorted (NativeModule.owned_code_ nm) ->
  Lookup nm pc =
  match count_upto pc (NativeModule.owned_code_ nm) with
  | O => None
  | S prev =>
      match NativeModule.owned_code_ nm !! prev with
      | Some candidate => if WasmCode.contains candidate pc then Some candidate else None
      | None => None
      end
  end.
Proof.
  intros Hs. unfold Lookup.
  rewrite (upper_bound_owned_code pc _ (owned_code_sorted_starts _ Hs)).
  destruct (NativeModule.owned_code_ nm); reflexivity.
Qed.

Lemma sorted_lookup_lt {A} (R : A -> A -> Prop) (v : list A) :
  StronglySorted R v ->
  forall i j a b, v !! i = Some a -> v !! j = Some b -> (i < j)%nat -> R a b.
Proof.
  induction 1 as [| x q Hq IH Hx]; intros i j a b Ha Hb Hij.
  - destruct i; discriminate.
  - destruct j as [| j]; [lia |]. cbn in Hb. destruct i as [| i].
    + injection Ha as <-. rewrite Forall_forall in Hx.
      apply Hx. eapply list_elem_of_lookup_2, Hb.
    + cbn in Ha. apply (IH i j a b Ha Hb). lia.
Qed.

Lemma sorted_trichotomy {A} (R : A -> A -> Prop) (v : list A) a b :
  StronglySorted R v -> a ∈ v -> b ∈ v -> a = b \/ R a b \/ R b a.
Proof.
  intros Hs Ha Hb.
  apply list_elem_of_lookup_1 in Ha as [i Hi].
  apply list_elem_of_lookup_1 in Hb as [j Hj].
  destruct (Nat.lt_trichotomy i j) as [Hlt | [-> | Hgt]].
  - right; left. exact (sorted_lookup_lt R v Hs i j a b Hi Hj Hlt).
  - left. congruence.
  - right; right. exact (sorted_lookup_lt R v Hs j i b a Hj Hi Hgt).
Qed.

Lemma contains_spec c pc :
  WasmCode.contains c pc = true <->
  WasmCode.instruction_start c <= pc < WasmCode.instructions_end c.
Proof.
  unfold WasmCode.contains, WasmCode.instruction_start.
  rewrite andb_true_iff, Z.leb_le, Z.ltb_lt. tauto.
Qed.

(** [Lookup] finds exactly the owned code object that contains [pc]. *)
Lemma Lookup_Some nm pc c :
  owned_code_sorted (NativeModule.owned_code_ nm) ->
  Lookup nm pc = Some c <->
  c ∈ NativeModule.owned_code_ nm /\ WasmCode.contains c pc = true.
Proof.
  intros Hs. rewrite (Lookup_sorted nm pc Hs).
  set (v := NativeModule.owned_code_ nm) in *.
  destruct (count_upto_partition pc v (owned_code_sorted_starts v Hs)) as [Hn Hpart].
  unfold WasmCodeUniquePtrComparator in Hpart.
  split.
  - destruct (count_upto pc v) as [| prev]; [discriminate |].
    destruct (v !! prev) as [cand |] eqn:Hcand; [| discriminate].
    destruct (WasmCode.contains cand pc) eqn:Hc; [| discriminate].
    intros [= <-]. split; [eapply list_elem_of_lookup_2, Hcand | exact Hc].
  - intros [Hin Hc]. apply contains_spec in Hc.
    apply list_elem_of_lookup_1 in Hin as [j Hj].
    assert (Hjn : (j < count_upto pc v)%nat).
    { destruct (Nat.lt_ge_cases j (count_upto pc v)) as [? | Hge]; [assumption |].
      apply (Hpart j c Hj) in Hge. apply Z.ltb_lt in Hge. lia. }
    destruct (count_upto pc v) as [| prev]; [lia |].
    destruct (lookup_lt_is_Some_2 v prev) as [cand Hcand]; [lia |].
    rewrite Hcand.
    assert (Hsame : cand = c).
    { destruct (Nat.eq_dec j prev) as [-> | Hne]; [congruence |].
      exfalso.
      destruct (sorted_lookup_lt code_before v Hs j prev c cand Hj Hcand) as [_ Hdis];
        [lia |].
      assert (Hle : ~ (S prev <= prev)%nat) by lia.
      rewrite <- (Hpart prev cand Hcand) in Hle.
      apply not_true_is_false, Z.ltb_ge in Hle. lia. }
    subst cand.
    apply contains_spec in Hc. now rewrite Hc.
Qed.

(** C6, as the code has it.  On an [owned_code_] sorted by instruction start
    with non-overlapping ranges, [Lookup(pc)] takes the upper bound of [pc]
    among the instruction starts, that is the number of code objects that
    start at or below [pc]; it returns null when that is zero, and otherwise
    the preceding code object exactly when that object contains [pc]
    ([start <= pc < end]).  It thus returns the one owned code object that
    contains [pc], if any.  At [pc] equal to the end of a code object it
    never returns that object, and it returns null unless another code
    object starts at that very address. *)
Theorem lookup_semantics (nm : NativeModule.t) (pc : Address) :
  owned_code_sorted (NativeModule.owned_code_ nm) ->
  let v := NativeModule.owned_code_ nm in
  let iter := upper_bound (WasmCodeUniquePtrComparator pc) v in
  iter = count_upto pc v /\
  (iter = O -> Lookup nm pc = None) /\
  (forall prev, iter = S prev ->
     exists candidate,
       v !! prev = Some candidate /\
       Lookup nm pc = if WasmCode.contains candidate pc then Some candidate else None) /\
  (forall c, Lookup nm pc = Some c <-> c ∈ v /\ WasmCode.contains c pc = true) /\
  (forall c, c ∈ v -> pc = WasmCode.instructions_end c -> Lookup nm pc <> Some c) /\
  (forall c, c ∈ v -> pc = WasmCode.instructions_end c ->
     WasmCode.instruction_start c <= WasmCode.instructions_end c ->
     (forall c', c' ∈ v -> WasmCode.instruction_start c' <> pc) ->
     Lookup nm pc = None).
Proof.
  intros Hs v iter.
  assert (Hiter : iter = count_upto pc v)
    by (apply upper_bound_owned_code, owned_code_sorted_starts, Hs).
  split; [exact Hiter |].
  split; [| split; [| split; [| split]]].
  - intros H0. rewrite (Lookup_sorted nm pc Hs). fold v. rewrite <- Hiter, H0.
    reflexivity.
  - intros prev Hprev. rewrite (Lookup_sorted nm pc Hs). fold v.
    rewrite <- Hiter, Hprev.
    pose proof (count_upto_length pc v) as Hlen.
    destruct (lookup_lt_is_Some_2 v prev) as [cand Hcand]; [lia |].
    exists cand. now rewrite Hcand.
  - intros c. apply Lookup_Some, Hs.
  - intros c Hin Hpc Hl. apply (Lookup_Some nm pc c Hs) in Hl as [_ Hc].
    apply contains_spec in Hc. lia.
  - intros c Hin Hpc Hvalid Hnone.
    destruct (Lookup nm pc) as [c' |] eqn:Hl; [exfalso | reflexivity].
    apply (Lookup_Some nm pc c' Hs) in Hl as [Hin' Hc].
    apply contains_spec in Hc.
    destruct (sorted_trichotomy code_before v c c' Hs Hin Hin')
      as [-> | [[_ Hb] | [_ Hb]]].
    + lia.
    + apply (Hnone c' Hin'). lia.
    + lia.
Qed.

Lemma lookup_semantics_witness :
  Lookup sample_module 8300 = Some sample_function /\
  Lookup sample_module 8320 = None.
Proof.
  assert (Hs : owned_code_sorted (NativeModule.owned_code_ sample_module)).
  { repeat constructor; vm_compute; discriminate. }
  split.
  - destruct (lookup_semantics sample_module 8300 Hs) as (_ & _ & _ & H & _).
    apply H. split; [| reflexivity].
    apply list_elem_of_In. right. left. reflexivity.
  - destruct (lookup_semantics sample_module 8320 Hs) as (_ & _ & _ & _ & _ & H).
    apply (H sample_function).
    + apply list_elem_of_In. right. left. reflexivity.
    + reflexivity.
    + vm_compute. discriminate.
    + intros c' Hin. apply list_elem_of_In in Hin.
      destruct Hin as [<- | [<- | []]]; vm_compute; discriminate.
Defined.

(** C6 as stated fails at the last clause when code objects are adjacent.
    After [adjacent_code] the module owns the jump table at
    [2^33, 2^33 + 64) and the function at [2^33 + 64, 2^33 + 128), and a
    lookup at 2^33 + 64, the end of the jump table, returns the function. *)
Lemma lookup_at_end_of_adjacent_code :
  match run (obliging sample_platform) adjacent_code (initial 16777216) with
  | Done w =>
      match heap w !! 1%nat with
      | Some nm =>
          owned_code_sorted (NativeModule.owned_code_ nm) /\
          match NativeModule.owned_code_ nm with
          | [jump_table; function] =>
              NativeModule.jump_table_ nm = Some jump_table /\
              WasmCode.instructions_end jump_table = 2 ^ 33 + 64 /\
              Lookup nm (2 ^ 33 + 64) = Some function /\
              Lookup nm (2 ^ 33 + 64) <> None
          | _ => False
          end
      | None => False
      end
  | Fatal => False
  end.
Proof.
  evaluate (run (obliging sample_platform) adjacent_code (initial 16777216)).
  cbv beta iota.
  match goal with |- context [?h !! 1%nat] => evaluate (h !! 1%nat) end.
  cbv beta iota. cbn [NativeModule.owned_code_ NativeModule.jump_table_].
  split; [repeat constructor; vm_compute; discriminate |].
  split; [reflexivity |]. split; [reflexivity |].
  split; [reflexivity | discriminate].
Qed.

(** ** NativeModule::SetExecutable *)

Lemma same_but_log_refl c : same_but_log c c.
Proof. unfold same_but_log. auto. Qed.

Lemma same_but_log_trans c1 c2 c3 :
  same_but_log c1 c2 -> same_but_log c2 c3 -> same_but_log c1 c3.
Proof. unfold same_but_log. intuition congruence. Qed.

Lemma set_permissions_of_ranges_issue E p ranges c :
  set_permissions_of_ranges E ranges p c = issue E (map (call_of_range E p) ranges) c.
Proof.
  revert c. induction ranges as [| r ranges IH]; intros c; [reflexivity |].
  cbn [set_permissions_of_ranges issue map]. unfold bind.
  cbn [call_of_range sc_start sc_size sc_perm].
  destruct (SetPermissions E (r_start r) _ p c) as [ok c1].
  destruct (negb ok); [reflexivity | apply IH].
Qed.

Lemma set_permissions_of_reservations_issue E p spaces c :
  set_permissions_of_reservations E spaces p c =
  issue E (map (call_of_reservation p) spaces) c.
Proof.
  revert c. induction spaces as [| v spaces IH]; intros c; [reflexivity |].
  cbn [set_permissions_of_reservations issue map]. unfold bind.
  cbn [call_of_reservation sc_start sc_size sc_perm].
  destruct (SetPermissions E (VirtualMemory.address v) _ p c) as [ok c1].
  destruct (negb ok); [reflexivity | apply IH].
Qed.

(** What [issue] does, by the script: all calls are logged and the result is
    true when every one is granted; otherwise the calls up to the first
    refused one are logged and the result is false. *)
Lemma issue_spec E calls : forall c,
  same_but_log c (snd (issue E calls c)) /\
  (granted E (length (log_of c)) (length calls) = true ->
   fst (issue E calls c) = true /\
   log_of (snd (issue E calls c)) = log_of c ++ calls) /\
  (granted E (length (log_of c)) (length calls) = false ->
   fst (issue E calls c) = false /\
   exists k, (k < length calls)%nat /\
             permission_ok E (length (log_of c) + k) = false /\
             log_of (snd (issue E calls c)) = log_of c ++ take (S k) calls).
Proof.
  induction calls as [| call calls IH]; intros c.
  - cbn. split; [apply same_but_log_refl |].
    split; [| discriminate]. intros _. now rewrite app_nil_r.
  - cbn [issue granted length]. unfold bind, SetPermissions, get_os, put_os, ret.
    cbn.
    set (c1 := {| os := {| permission_log := log_of c ++ [call];
                           reservation_count := reservation_count (os c);
                           cas_count := cas_count (os c) |};
                  manager := manager c; this := this c |}).
    assert (Hc1 : same_but_log c c1) by (unfold same_but_log; cbn; auto).
    assert (Hlen : length (log_of c1) = S (length (log_of c))).
    { cbn. rewrite length_app. cbn. lia. }
    destruct call as [cs csz cp]. cbn [sc_start sc_size sc_perm]. fold c1.
    destruct (permission_ok E (length (log_of c))) eqn:Hok; cbn [negb andb].
    + destruct (IH c1) as (Hsame & Hyes & Hno). rewrite Hlen in Hyes, Hno.
      split; [exact (same_but_log_trans c c1 _ Hc1 Hsame) |].
      split.
      * intros Hg. destruct (Hyes Hg) as [H1 H2]. split; [exact H1 |].
        rewrite H2. cbn. now rewrite <- app_assoc.
      * intros Hg. destruct (Hno Hg) as (H1 & k & Hk & Hrefused & Hlog).
        split; [exact H1 |]. exists (S k). split; [lia |].
        split; [now rewrite Nat.add_succ_r |].
        rewrite Hlog. cbn. now rewrite <- app_assoc.
    + split; [exact Hc1 |]. split; [discriminate |]. intros _.
      split; [reflexivity |]. exists O. split; [lia |].
      split; [now rewrite Nat.add_0_r |]. reflexivity.
Qed.

(** [SetExecutable] is a no-op in the requested state, and otherwise issues
    [permission_changes] and records the new state when none was refused. *)
Lemma SetExecutable_unfold E x c :
  SetExecutable E x c =
  if Bool.eqb (NativeModule.is_executable_ (this c)) x then (true, c)
  else
    let '(ok, c') := issue E (permission_changes E x (this c)) c in
    if ok then (true, {| os := os c'; manager := manager c';
                         this := NativeModule.set_is_executable x (this c') |})
    else (false, c').
Proof.
  unfold SetExecutable, permission_changes, bind, get_this, modify_this, ret.
  destruct (Bool.eqb (NativeModule.is_executable_ (this c)) x); [reflexivity |].
  destruct (FLAG_wasm_write_protect_code_memory (platform E)); [| reflexivity].
  destruct (V8_OS_WIN (platform E) && NativeModule.can_request_more_memory_ (this c)).
  - rewrite set_permissions_of_reservations_issue.
    destruct (issue E _ c) as [ok c']. now destruct ok.
  - rewrite set_permissions_of_ranges_issue.
    destruct (issue E _ c) as [ok c']. now destruct ok.
Qed.

Lemma SetExecutable_same_state E x c :
  NativeModule.is_executable_ (this c) = x ->
  SetExecutable E x c = (true, c).
Proof.
  intros H. rewrite SetExecutable_unfold.
  now rewrite (proj2 (Bool.eqb_true_iff _ _) H).
Qed.

Lemma SetExecutable_spec E x c :
  let calls := permission_changes E x (this c) in
  let r := SetExecutable E x c in
  manager (snd r) = manager c /\
  (granted E (length (log_of c)) (length calls) = true ->
   fst r = true /\
   log_of (snd r) = log_of c ++ calls /\
   NativeModule.is_executable_ (this (snd r)) = x /\
   NativeModule.modification_scope_depth_ (this (snd r)) =
     NativeModule.modification_scope_depth_ (this c)) /\
  (granted E (length (log_of c)) (length calls) = false ->
   fst r = false /\ this (snd r) = this c /\
   exists k, (k < length calls)%nat /\
             permission_ok E (length (log_of c) + k) = false /\
             log_of (snd r) = log_of c ++ take (S k) calls).
Proof.
  intros calls r. subst r. rewrite SetExecutable_unfold.
  destruct (Bool.eqb (NativeModule.is_executable_ (this c)) x) eqn:Heq.
  - assert (Hcalls : calls = []).
    { subst calls. unfold permission_changes. now rewrite Heq. }
    rewrite Hcalls. cbn. split; [reflexivity |].
    split; [| discriminate]. intros _.
    split; [reflexivity |]. split; [now rewrite app_nil_r |].
    split; [now apply Bool.eqb_true_iff | reflexivity].
  - destruct (issue_spec E calls c) as (Hsame & Hyes & Hno).
    fold calls. destruct (issue E calls c) as [ok c'] eqn:Hrun.
    cbn [fst snd] in *. destruct Hsame as (Hm & Ht & _).
    destruct (granted E (length (log_of c)) (length calls)).
    + destruct (Hyes eq_refl) as [-> Hlog]. cbn.
      split; [exact Hm |]. split; [| discriminate]. intros _.
      split; [reflexivity |]. split; [exact Hlog |].
      split; [reflexivity | now rewrite Ht].
    + destruct (Hno eq_refl) as [-> Hk]. cbn.
      split; [exact Hm |]. split; [discriminate |]. intros _.
      split; [reflexivity |]. split; [exact Ht | exact Hk].
Qed.

Ltac case_if :=
  match goal with
  | |- context [if ?b then _ else _] => destruct b
  end.

Lemma permission_changes_length E x nm :
  length (permission_changes E x nm) =
  if Bool.eqb (NativeModule.is_executable_ nm) x then O
  else if FLAG_wasm_write_protect_code_memory (platform E) then
         if V8_OS_WIN (platform E) && NativeModule.can_request_more_memory_ nm
         then length (NativeModule.owned_code_space_ nm)
         else length (NativeModule.allocated_code_space_ nm)
       else O.
Proof.
  unfold permission_changes.
  repeat case_if; try reflexivity; apply length_map.
Qed.


(** C8, as the code has it.  [SetExecutable(x)] in a module that is already in
    state [x] changes no permission, returns true and leaves everything as it
    was.  So in [SetExecutable(x); SetExecutable(x)], once the first call has
    returned true the second call is such a no-op: every permission change
    of the sequence is issued by the first call.  Their number is not one in
    general: one per allocated range (per reservation for a growable module
    on Windows), and none when write protection is off or the module was
    already in state [x]. *)
Theorem set_executable_idempotent (E : Env) (x : bool) (c : Ctx) :
  let r1 := SetExecutable E x c in
  let r2 := SetExecutable E x (snd r1) in
  (NativeModule.is_executable_ (this c) = x -> r1 = (true, c)) /\
  (fst r1 = true ->
   log_of (snd r1) = log_of c ++ permission_changes E x (this c) /\
   NativeModule.is_executable_ (this (snd r1)) = x /\
   r2 = (true, snd r1)) /\
  length (permission_changes E x (this c)) =
    (if Bool.eqb (NativeModule.is_executable_ (this c)) x then O
     else if FLAG_wasm_write_protect_code_memory (platform E) then
            if V8_OS_WIN (platform E) && NativeModule.can_request_more_memory_ (this c)
            then length (NativeModule.owned_code_space_ (this c))
            else length (NativeModule.allocated_code_space_ (this c))
          else O).
Proof.
  intros r1 r2. subst r1 r2.
  split; [apply SetExecutable_same_state |].
  split; [| apply permission_changes_length].
  intros Hok.
  destruct (SetExecutable_spec E x c) as (_ & Hyes & Hno).
  destruct (granted E (length (log_of c)) (length (permission_changes E x (this c)))).
  - destruct (Hyes eq_refl) as (_ & Hlog & Hx & _).
    split; [exact Hlog |]. split; [exact Hx |].
    now apply SetExecutable_same_state.
  - destruct (Hno eq_refl) as (Hfalse & _). congruence.
Qed.

Lemma set_executable_idempotent_witness :
  SetExecutable (obliging sample_platform) true
    (snd (SetExecutable (obliging sample_platform) true (sample_ctx 8192))) =
  (true, snd (SetExecutable (obliging sample_platform) true (sample_ctx 8192))).
Proof.
  destruct (set_executable_idempotent (obliging sample_platform) true (sample_ctx 8192))
    as (_ & H & _).
  apply H. reflexivity.
Defined.

(** C8 as stated fails on the count and on a refused first call.  After
    [growing], the module's allocated space has two ranges, and the sequence
    makes two permission changes; and when the operating system refuses the
    change, the first call returns false after one attempt and the second
    call makes another one. *)
Lemma set_executable_twice_counts :
  match run (obliging sample_platform_wide) growing (initial 16777216) with
  | Done w =>
      match heap w !! 1%nat with
      | Some nm =>
          let c := focus w nm in
          let r1 := SetExecutable (obliging sample_platform_wide) true c in
          let r2 := SetExecutable (obliging sample_platform_wide) true (snd r1) in
          length (NativeModule.allocated_code_space_ nm) = 2%nat /\
          fst r1 = true /\ fst r2 = true /\
          length (log_of (snd r2)) = (length (log_of c) + 2)%nat
      | None => False
      end
  | Fatal => False
  end /\
  match run (fickle sample_platform_wide 2) growing (initial 16777216) with
  | Done w =>
      match heap w !! 1%nat with
      | Some nm =>
          let c := focus w nm in
          let r1 := SetExecutable (fickle sample_platform_wide 2) true c in
          let r2 := SetExecutable (fickle sample_platform_wide 2) true (snd r1) in
          fst r1 = false /\
          length (log_of (snd r1)) = (length (log_of c) + 1)%nat /\
          fst r2 = false /\
          length (log_of (snd r2)) = (length (log_of c) + 2)%nat
      | None => False
      end
  | Fatal => False
  end.
Proof. vm_compute. repeat split. Qed.

(** ** NativeModuleModificationScope *)

Lemma wrap_int_small z : - 2 ^ 31 <= z < 2 ^ 31 -> wrap_int z = z.
Proof. intros H. unfold wrap_int. rewrite Z.mod_small; lia. Qed.



(** Scope nesting on an executable module: the outer scope makes it
    read-write with one permission change, the inner scope adds none, and
    closing the outer scope makes it read-execute again. *)
Lemma modification_scope_nesting :
  let E := obliging sample_platform in
  let c0 := {| os := quiet_os; manager := WasmCodeManager.mk ∅ 1 8192;
               this := NativeModule.set_is_executable true sample_module |} in
  exists c1 c2 c3 c4,
    ModificationScope_enter E c0 = Done c1 /\
    ModificationScope_enter E c1 = Done c2 /\
    ModificationScope_leave E c2 = Done c3 /\
    ModificationScope_leave E c3 = Done c4 /\
    map sc_perm (log_of c1) = [kReadWrite] /\
    log_of c2 = log_of c1 /\ log_of c3 = log_of c1 /\
    NativeModule.is_executable_ (this c3) = false /\
    map sc_perm (log_of c4) = [kReadWrite; kReadExecute] /\
    NativeModule.is_executable_ (this c4) = true.
Proof.
  intros E c0. do 4 eexists.
  split; [vm_compute; reflexivity |].
  split; [vm_compute; reflexivity |].
  split; [vm_compute; reflexivity |].
  split; [vm_compute; reflexivity |].
  repeat split.
Qed.

(** ** NativeModule::DisableTrapHandler *)

Lemma clear_entries_length {A} n (l : list (option A)) :
  length (clear_entries n l) = length l.
Proof.
  revert l. induction n as [| n IH]; intros [| x l]; cbn; try reflexivity.
  now rewrite IH.
Qed.

Lemma clear_entries_take {A} n (l : list (option A)) :
  take n (clear_entries n l) = repeat None (length (take n l)).
Proof.
  revert l. induction n as [| n IH]; intros [| x l]; cbn; try reflexivity.
  now rewrite IH.
Qed.

Lemma clear_entries_lookup {A} n (l : list (option A)) i :
  (i < n)%nat -> (i < length l)%nat -> clear_entries n l !! i = Some None.
Proof.
  revert l i. induction n as [| n IH]; intros [| x l] i Hn Hl; cbn in *; try lia.
  destruct i as [| i]; [reflexivity |]. cbn. apply IH; lia.
Qed.

(** C9. [DisableTrapHandler] on a module that uses trap handlers turns
    [use_trap_handler_] off and makes every entry of the code table null.
    The owned code, hence what [Lookup] answers at every address, the jump
    table, hence every call target, the two allocation pools, the
    reservations and [committed_code_space_] are as before. *)
Theorem disable_trap_handler_frame (nm : NativeModule.t) :
  NativeModule.use_trap_handler_ nm = true ->
  let nm' := DisableTrapHandler nm in
  NativeModule.use_trap_handler_ nm' = false /\
  NativeModule.code_table nm' = repeat None (length (NativeModule.code_table nm)) /\
  (forall index,
     0 <= NativeModule.num_imported_functions_ nm <= index ->
     index < NativeModule.num_functions_ nm < 2 ^ 32 ->
     code nm' index = None) /\
  NativeModule.owned_code_ nm' = NativeModule.owned_code_ nm /\
  (forall pc, Lookup nm' pc = Lookup nm pc) /\
  NativeModule.jump_table_ nm' = NativeModule.jump_table_ nm /\
  (forall E f, GetCallTargetForFunction E nm' f = GetCallTargetForFunction E nm f) /\
  NativeModule.free_code_space_ nm' = NativeModule.free_code_space_ nm /\
  NativeModule.allocated_code_space_ nm' = NativeModule.allocated_code_space_ nm /\
  NativeModule.owned_code_space_ nm' = NativeModule.owned_code_space_ nm /\
  NativeModule.committed_code_space_ nm' = NativeModule.committed_code_space_ nm /\
  NativeModule.num_functions_ nm' = NativeModule.num_functions_ nm /\
  NativeModule.num_imported_functions_ nm' = NativeModule.num_imported_functions_ nm /\
  NativeModule.is_executable_ nm' = NativeModule.is_executable_ nm /\
  NativeModule.modification_scope_depth_ nm' = NativeModule.modification_scope_depth_ nm.
Proof.
  intros _ nm'. subst nm'.
  split; [reflexivity |].
  split.
  { unfold NativeModule.code_table, DisableTrapHandler, NativeModule.num_wasm_functions.
    cbn. apply clear_entries_take. }
  split.
  { intros index Hlo Hhi.
    unfold code, DisableTrapHandler, NativeModule.num_wasm_functions. cbn.
    set (ni := NativeModule.num_imported_functions_ nm) in *.
    set (nf := NativeModule.num_functions_ nm) in *.
    destruct (Nat.lt_ge_cases (Z.to_nat (u32 (index - ni)))
                (length (NativeModule.code_table_ nm))) as [Hin | Hout].
    - rewrite clear_entries_lookup; [reflexivity | | exact Hin].
      rewrite !u32_small by lia. lia.
    - rewrite lookup_ge_None_2; [reflexivity |].
      now rewrite clear_entries_length. }
  repeat split.
Qed.

Lemma disable_trap_handler_frame_witness :
  NativeModule.code_table (DisableTrapHandler sample_module) = [None; None; None; None] /\
  Lookup (DisableTrapHandler sample_module) 8300 = Some sample_function.
Proof.
  destruct (disable_trap_handler_frame sample_module eq_refl)
    as (_ & Htable & _ & _ & Hlookup & _).
  split; [exact Htable | exact (Hlookup 8300)].
Defined.

(** ** Budget conservation *)

Lemma budget_preserving_ret {A} (a : A) : budget_preserving (ret a).
Proof. intros c Hc. cbn. auto. Qed.

Lemma budget_preserving_bind {A B} (m : M A) (k : A -> M B) :
  budget_preserving m -> (forall a, budget_preserving (k a)) ->
  budget_preserving (bind m k).
Proof.
  intros Hm Hk c Hc. unfold bind.
  destruct (Hm c Hc) as [Hok Hb]. destruct (m c) as [a c1]. cbn [snd] in *.
  destruct (Hk a c1 Hok) as [Hok' Hb']. split; [exact Hok' | congruence].
Qed.

Lemma budget_preserving_if {A} (b : bool) (m1 m2 : M A) :
  budget_preserving m1 -> budget_preserving m2 ->
  budget_preserving (if b then m1 else m2).
Proof. now destruct b. Qed.

Lemma budget_preserving_get_this : budget_preserving get_this.
Proof. intros c Hc. cbn. auto. Qed.

Lemma budget_preserving_get_manager : budget_preserving get_manager.
Proof. intros c Hc. cbn. auto. Qed.

Lemma budget_preserving_get_os : budget_preserving get_os.
Proof. intros c Hc. cbn. auto. Qed.

Lemma budget_preserving_put_os o : budget_preserving (put_os o).
Proof. intros c Hc. cbn. auto. Qed.

Lemma budget_preserving_modify_this f :
  (forall nm, committed (f nm) = committed nm) ->
  budget_preserving (modify_this f).
Proof.
  intros Hf c (H1 & H2 & H3). unfold ctx_ok, ctx_budget in *. cbn.
  rewrite Hf. auto.
Qed.

Lemma budget_preserving_modify_manager f :
  (forall m, WasmCodeManager.remaining_uncommitted_code_space_ (f m) =
             WasmCodeManager.remaining_uncommitted_code_space_ m) ->
  budget_preserving (modify_manager f).
Proof.
  intros Hf c (H1 & H2 & H3). unfold ctx_ok, ctx_budget in *. cbn.
  rewrite Hf. auto.
Qed.

Create HintDb budget.
#[local] Hint Resolve budget_preserving_ret budget_preserving_bind
  budget_preserving_if budget_preserving_get_this budget_preserving_get_manager
  budget_preserving_get_os budget_preserving_put_os : budget.

Lemma budget_preserving_SetPermissions E start size p :
  budget_preserving (SetPermissions E start size p).
Proof. unfold SetPermissions. auto with budget. Qed.

Lemma budget_preserving_TryAllocate E size hint :
  budget_preserving (TryAllocate E size hint).
Proof. unfold TryAllocate. auto with budget. Qed.

Lemma budget_preserving_AssignRanges start end_ id :
  budget_preserving (AssignRanges start end_ id).
Proof.
  apply budget_preserving_modify_manager. intros m.
  now destruct (WasmCodeManager.lookup_map_ m !! start).
Qed.

Lemma budget_preserving_free_Allocate size : budget_preserving (free_Allocate size).
Proof.
  intros c Hc. unfold free_Allocate, bind, get_this, modify_this, ret.
  destruct (Pool.Allocate (NativeModule.free_code_space_ (this c)) size) as [mem rest].
  cbn. auto.
Qed.

#[local] Hint Resolve budget_preserving_SetPermissions budget_preserving_TryAllocate
  budget_preserving_AssignRanges budget_preserving_free_Allocate : budget.

(** The heart of the matter: a commit takes [commit_size] from the counter
    exactly when it succeeds, and the caller then adds the same
    [commit_size] to the module. *)
Lemma commit_and_credit E start commit_size (k : M bool) :
  is_word commit_size -> budget_preserving k ->
  budget_preserving
    (ok <- Commit E start commit_size ;;
     if negb ok then ret false else add_committed commit_size ;;; k).
Proof.
  intros Hsize Hk c (H1 & H2 & H3). unfold bind.
  assert (Hw : is_word (remaining c)).
  { unfold is_word, ctx_budget in *. lia. }
  pose proof (Commit_cases E start commit_size c Hw (proj1 Hsize)) as Hcases.
  cbv zeta in Hcases.
  destruct (Commit E start commit_size c) as [ok c1]. cbn [fst snd] in Hcases.
  destruct Hcases as (Hthis & [[-> Hrem] | (-> & Hle & Hrem)]); cbn [negb].
  - cbn. unfold ctx_ok, ctx_budget in *. rewrite Hthis, Hrem. auto.
  - unfold add_committed, modify_this.
    match goal with |- context [k ?c0] => set (c2 := c0) end.
    assert (Hc2 : committed (this c2) = committed (this c) + commit_size).
    { cbn. rewrite Hthis. apply wrap_small.
      unfold is_word, ctx_budget in *. lia. }
    assert (Hr2 : remaining c2 = remaining c - commit_size) by exact Hrem.
    assert (Hok2 : ctx_ok c2).
    { unfold ctx_ok, ctx_budget in *. rewrite Hc2, Hr2.
      unfold is_word in *. lia. }
    destruct (Hk c2 Hok2) as [Ha Hb]. split; [exact Ha |].
    rewrite Hb. unfold ctx_budget. rewrite Hc2, Hr2. lia.
Qed.

Lemma budget_preserving_commit_chunks E spaces :
  forall commit_start commit_end,
    budget_preserving (commit_chunks E spaces commit_start commit_end).
Proof.
  induction spaces as [| it spaces IH]; intros commit_start commit_end;
    cbn [commit_chunks]; [auto with budget |].
  apply budget_preserving_if; [auto with budget |].
  apply budget_preserving_if; [apply IH |].
  apply commit_and_credit; [apply wrap_is_word | apply IH].
Qed.

Lemma budget_preserving_commit_for E mem : budget_preserving (commit_for E mem).
Proof.
  unfold commit_for.
  apply budget_preserving_if; [| auto with budget].
  apply budget_preserving_if.
  - apply budget_preserving_bind; [auto with budget |].
    intros nm. apply budget_preserving_commit_chunks.
  - apply commit_and_credit; [apply wrap_is_word | auto with budget].
Qed.

Lemma budget_preserving_grow_code_space E size :
  budget_preserving (grow_code_space E size).
Proof.
  unfold grow_code_space.
  apply budget_preserving_bind; [auto with budget |]. intros nm.
  apply budget_preserving_if; [auto with budget |].
  apply budget_preserving_bind; [auto with budget |]. intros new_mem.
  apply budget_preserving_bind;
    [apply budget_preserving_modify_this; reflexivity |]. intros _.
  apply budget_preserving_if; [auto with budget |].
  apply budget_preserving_bind; [auto with budget |]. intros _.
  apply budget_preserving_bind;
    [apply budget_preserving_modify_this; reflexivity |]. intros _.
  apply budget_preserving_bind; [auto with budget |]. intros mem.
  auto with budget.
Qed.

(** Whatever [AllocateForCode] returns, each byte it took from the counter
    it added to the module. *)
Lemma budget_preserving_AllocateForCode E size :
  budget_preserving (AllocateForCode E size).
Proof.
  unfold AllocateForCode.
  apply budget_preserving_bind; [auto with budget |]. intros mem.
  apply budget_preserving_bind.
  { apply budget_preserving_if;
      [apply budget_preserving_grow_code_space | auto with budget]. }
  intros [mem' |]; [| auto with budget].
  apply budget_preserving_bind; [apply budget_preserving_commit_for |]. intros ok.
  apply budget_preserving_if; [auto with budget |].
  apply budget_preserving_bind;
    [apply budget_preserving_modify_this; reflexivity | auto with budget].
Qed.

Lemma budget_preserving_issue E calls : budget_preserving (issue E calls).
Proof.
  induction calls as [| call calls IH]; cbn [issue]; [auto with budget |].
  apply budget_preserving_bind; [auto with budget |]. intros ok.
  apply budget_preserving_if; [auto with budget | exact IH].
Qed.

Lemma budget_preserving_SetExecutable E x : budget_preserving (SetExecutable E x).
Proof.
  intros c Hc. rewrite SetExecutable_unfold.
  destruct (Bool.eqb _ x); [cbn; auto |].
  destruct (budget_preserving_issue E (permission_changes E x (this c)) c Hc)
    as [Hok Hb].
  destruct (issue E _ c) as [ok c']. cbn [snd] in *.
  destruct ok; cbn [snd]; [| auto].
  unfold ctx_ok, ctx_budget in *. cbn. auto.
Qed.

Lemma AddOwnedCode_budget E sz rs sp ix kd cpo ss spo hto tier c code c' :
  ctx_ok c ->
  AddOwnedCode E sz rs sp ix kd cpo ss spo hto tier c = Done (code, c') ->
  ctx_ok c' /\ ctx_budget c' = ctx_budget c.
Proof.
  intros Hc. unfold AddOwnedCode.
  destruct (budget_preserving_AllocateForCode E sz c Hc) as [Hok Hb].
  destruct (AllocateForCode E sz c) as [buffer c1]. cbn [snd] in *.
  destruct (buffer =? kNullAddress); [discriminate |].
  cbn. intros [= _ <-]. unfold ctx_ok, ctx_budget in *. cbn. auto.
Qed.

Lemma ModificationScope_enter_budget E c c' :
  ctx_ok c -> ModificationScope_enter E c = Done c' ->
  ctx_ok c' /\ ctx_budget c' = ctx_budget c.
Proof.
  intros Hc. unfold ModificationScope_enter, modify_this.
  match goal with |- context [SetExecutable E false ?c0] => set (c1 := c0) end.
  assert (Hc1 : ctx_ok c1 /\ ctx_budget c1 = ctx_budget c)
    by (unfold ctx_ok, ctx_budget in *; cbn; auto).
  destruct Hc1 as [Hc1 Hb1].
  destruct (_ =? 0).
  - destruct (budget_preserving_SetExecutable E false c1 Hc1) as [Hok Hb].
    destruct (SetExecutable E false c1) as [[] c2]; [| discriminate].
    intros [= <-]. cbn [snd] in *. split; [exact Hok | congruence].
  - intros [= <-]. auto.
Qed.

Lemma ModificationScope_leave_budget E c c' :
  ctx_ok c -> ModificationScope_leave E c = Done c' ->
  ctx_ok c' /\ ctx_budget c' = ctx_budget c.
Proof.
  intros Hc. unfold ModificationScope_leave, modify_this.
  match goal with |- context [SetExecutable E true ?c0] => set (c1 := c0) end.
  assert (Hc1 : ctx_ok c1 /\ ctx_budget c1 = ctx_budget c)
    by (unfold ctx_ok, ctx_budget in *; cbn; auto).
  destruct Hc1 as [Hc1 Hb1].
  destruct (_ =? 1).
  - destruct (budget_preserving_SetExecutable E true c1 Hc1) as [Hok Hb].
    destruct (SetExecutable E true c1) as [[] c2]; [| discriminate].
    intros [= <-]. cbn [snd] in *. split; [exact Hok | congruence].
  - intros [= <-]. auto.
Qed.

(** The constructor commits out of the manager's counter into the new
    module, which starts with nothing committed. *)
Lemma NativeModule_new_budget E id nf ni more code_space trap o mgr c' :
  0 <= WasmCodeManager.remaining_uncommitted_code_space_ mgr < 2 ^ kWordBits ->
  NativeModule_new E id nf ni more code_space trap o mgr = Done c' ->
  ctx_ok c' /\
  ctx_budget c' = WasmCodeManager.remaining_uncommitted_code_space_ mgr.
Proof.
  intros Hrem. unfold NativeModule_new, modify_this.
  destruct (_ >? 0).
  - match goal with |- context [CreateEmptyJumpTable E _ ?c0] => set (c1 := c0) end.
    assert (Hc1 : ctx_ok c1 /\
                  ctx_budget c1 = WasmCodeManager.remaining_uncommitted_code_space_ mgr)
      by (unfold ctx_ok, ctx_budget; cbn; lia).
    unfold CreateEmptyJumpTable.
    destruct (AddOwnedCode E _ 0 0 None kJumpTable 0 0 0 0 kOther c1)
      as [[jt c2] |] eqn:Hadd; [| discriminate].
    destruct Hc1 as [Hc1 Hb1].
    destruct (AddOwnedCode_budget E _ _ _ _ _ _ _ _ _ _ c1 jt c2 Hc1 Hadd) as [Hok Hb].
    intros [= <-]. unfold ctx_ok, ctx_budget in *. cbn. split; [auto | lia].
  - intros [= <-]. unfold ctx_ok, ctx_budget; cbn. lia.
Qed.

(** *** The sum over the live modules *)

Lemma total_committed_comm (j1 j2 : nat) (z1 z2 : NativeModule.t) (y : Z) :
  committed z1 + (committed z2 + y) = committed z2 + (committed z1 + y).
Proof. lia. Qed.

Lemma total_committed_empty : total_committed ∅ = 0.
Proof. unfold total_committed. apply map_fold_empty. Qed.

Lemma total_committed_delete (h : gmap nat NativeModule.t) id nm :
  h !! id = Some nm ->
  total_committed h = committed nm + total_committed (delete id h).
Proof.
  intros H. unfold total_committed.
  apply (map_fold_delete_L (fun _ nm acc => committed nm + acc)); [| exact H].
  intros. apply total_committed_comm; assumption.
Qed.

Lemma total_committed_insert_fresh (h : gmap nat NativeModule.t) id nm :
  h !! id = None ->
  total_committed (<[id := nm]> h) = committed nm + total_committed h.
Proof.
  intros H. unfold total_committed.
  apply (map_fold_insert_L (fun _ nm acc => committed nm + acc)); [| exact H].
  intros. apply total_committed_comm; assumption.
Qed.

Lemma total_committed_insert (h : gmap nat NativeModule.t) id nm :
  total_committed (<[id := nm]> h) = committed nm + total_committed (delete id h).
Proof.
  rewrite <- insert_delete_eq. apply total_committed_insert_fresh.
  apply lookup_delete_eq.
Qed.

Lemma total_committed_nonneg (h : gmap nat NativeModule.t) :
  map_Forall (fun _ nm => 0 <= committed nm) h -> 0 <= total_committed h.
Proof.
  unfold total_committed.
  apply (map_fold_weak_ind
           (fun r (m : gmap nat NativeModule.t) =>
              map_Forall (fun _ nm => 0 <= committed nm) m -> 0 <= r)).
  - intros _. lia.
  - intros i x m r Hi IH Hall.
    apply map_Forall_insert in Hall as [Hx Hm]; [| exact Hi].
    specialize (IH Hm). lia.
Qed.

(** *** From a module to the process and back *)

Lemma focus_ok cap w id nm :
  is_word cap -> budget_invariant cap w -> heap w !! id = Some nm ->
  ctx_ok (focus w nm) /\
  ctx_budget (focus w nm) + total_committed (delete id (heap w)) = cap.
Proof.
  intros Hcap (Hrem & Hall & Hsum & _) Hid.
  pose proof (total_committed_delete _ _ _ Hid) as Hdel.
  pose proof (total_committed_nonneg _ (map_Forall_delete _ _ id Hall)) as Hrest.
  pose proof (Hall id nm Hid) as Hnm. cbn beta in Hnm.
  unfold ctx_ok, ctx_budget, focus, is_word in *. cbn. lia.
Qed.

Lemma unfocus_invariant cap w id nm c' :
  is_word cap -> budget_invariant cap w -> heap w !! id = Some nm ->
  ctx_ok c' -> ctx_budget c' = ctx_budget (focus w nm) ->
  budget_invariant cap (unfocus w id c').
Proof.
  intros Hcap Hinv Hid (Hc & Hr & _) Hb.
  destruct (focus_ok cap w id nm Hcap Hinv Hid) as [_ Hsum].
  destruct Hinv as (_ & Hall & _ & Hfresh).
  unfold budget_invariant, unfocus. cbn.
  split; [exact Hr |]. split; [| split].
  - apply map_Forall_insert_2; assumption.
  - rewrite total_committed_insert. unfold ctx_budget in *. lia.
  - intros j Hj. apply lookup_insert_is_Some in Hj as [<- | [_ Hj]].
    + apply Hfresh. now exists nm.
    + now apply Hfresh.
Qed.

Lemma initial_invariant cap : is_word cap -> budget_invariant cap (initial cap).
Proof.
  intros [Hlo _]. unfold budget_invariant, initial. cbn.
  split; [exact Hlo |]. split; [apply map_Forall_empty |].
  split; [rewrite total_committed_empty; lia |].
  intros id [x Hx]. rewrite lookup_empty in Hx. discriminate.
Qed.

Lemma AssignRanges_remaining start end_ id c :
  remaining (snd (AssignRanges start end_ id c)) = remaining c /\
  this (snd (AssignRanges start end_ id c)) = this c.
Proof.
  unfold AssignRanges, modify_manager. cbn.
  now destruct (WasmCodeManager.lookup_map_ (manager c) !! start).
Qed.

Lemma NewNativeModule_Done E est nf ni more trap w id w' :
  NewNativeModule E est nf ni more trap w = Done (id, w') ->
  exists mem o1 c2,
    NativeModule_new E (S (next_id_ w)) nf ni more mem trap o1 (w_manager w) = Done c2 /\
    id = S (next_id_ w) /\ next_id_ w' = id /\
    heap w' = <[id := this c2]> (heap w) /\
    WasmCodeManager.remaining_uncommitted_code_space_ (w_manager w') = remaining c2.
Proof.
  unfold NewNativeModule, TryAllocate, bind, get_os, put_os, ret. cbn.
  destruct (VirtualMemory.IsReserved _); [| discriminate].
  destruct (NativeModule_new E _ nf ni more _ trap _ (w_manager w)) as [c2 |] eqn:Hnew;
    [| discriminate].
  intros [= <- <-]. do 3 eexists. split; [exact Hnew |]. cbn.
  repeat split. now destruct (WasmCodeManager.lookup_map_ (manager c2) !! _).
Qed.

Lemma NewNativeModule_invariant E cap est nf ni more trap w id w' :
  is_word cap -> budget_invariant cap w ->
  NewNativeModule E est nf ni more trap w = Done (id, w') ->
  budget_invariant cap w'.
Proof.
  intros Hcap (Hrem & Hall & Hsum & Hfresh) Hrun.
  destruct (NewNativeModule_Done _ _ _ _ _ _ _ _ _ Hrun)
    as (mem & o1 & c2 & Hnew & -> & Hnext & Hheap & Hremaining).
  assert (Hbound : 0 <= WasmCodeManager.remaining_uncommitted_code_space_ (w_manager w)
                   < 2 ^ kWordBits).
  { pose proof (total_committed_nonneg _ Hall). unfold is_word in Hcap. lia. }
  destruct (NativeModule_new_budget E _ _ _ _ _ _ _ _ _ Hbound Hnew) as [(Hc & Hr & _) Hb].
  assert (Hnone : heap w !! S (next_id_ w) = None).
  { destruct (heap w !! S (next_id_ w)) eqn:Hl; [| reflexivity].
    assert (Hs : is_Some (heap w !! S (next_id_ w))) by (rewrite Hl; eauto).
    apply Hfresh in Hs. lia. }
  unfold budget_invariant. rewrite Hheap, Hremaining, Hnext.
  split; [exact Hr |]. split; [| split].
  - apply map_Forall_insert_2; [exact Hc | exact Hall].
  - rewrite total_committed_insert_fresh by exact Hnone.
    unfold ctx_budget in Hb. lia.
  - intros j Hj. apply lookup_insert_is_Some in Hj as [<- | [_ Hj]]; [lia |].
    apply Hfresh in Hj. lia.
Qed.

Lemma FreeNativeModule_effect c :
  remaining (snd (FreeNativeModule c)) = wrap (remaining c + committed (this c)).
Proof. reflexivity. Qed.

Lemma DeleteNativeModule_invariant cap w id nm :
  is_word cap -> budget_invariant cap w -> heap w !! id = Some nm ->
  budget_invariant cap (DeleteNativeModule id nm w).
Proof.
  intros Hcap Hinv Hid.
  destruct (focus_ok cap w id nm Hcap Hinv Hid) as [(Hc & Hr & Hlt) Hsum].
  destruct Hinv as (_ & Hall & _ & Hfresh).
  pose proof (total_committed_nonneg _ (map_Forall_delete _ _ id Hall)) as Hrest.
  unfold DeleteNativeModule.
  pose proof (FreeNativeModule_effect (focus w nm)) as Heff.
  destruct (FreeNativeModule (focus w nm)) as [[] c']. cbn [snd] in Heff.
  rewrite wrap_small in Heff by (unfold is_word, ctx_budget in *; lia).
  unfold budget_invariant. cbn. unfold ctx_budget in *.
  split; [lia |]. split; [| split].
  - now apply map_Forall_delete.
  - lia.
  - intros j Hj. apply lookup_delete_is_Some in Hj as [_ Hj]. now apply Hfresh.
Qed.

Lemma exec_invariant E cap op w w' :
  is_word cap -> budget_invariant cap w -> exec E op w = Done w' ->
  budget_invariant cap w'.
Proof.
  intros Hcap Hinv. destruct op; cbn [exec].
  - destruct (NewNativeModule E _ _ _ _ _ w) as [[id' w1] |] eqn:Hnew; [| discriminate].
    intros [= <-]. eapply NewNativeModule_invariant; eassumption.
  - destruct (heap w !! id) as [nm |] eqn:Hid; [| discriminate].
    destruct (AddOwnedCode E _ _ _ _ _ _ _ _ _ _ (focus w nm)) as [[code0 c'] |] eqn:Hadd;
      [| discriminate].
    intros [= <-].
    destruct (focus_ok cap w id nm Hcap Hinv Hid) as [Hok _].
    destruct (AddOwnedCode_budget E _ _ _ _ _ _ _ _ _ _ _ _ _ Hok Hadd) as [Hok' Hb].
    eapply unfocus_invariant; eassumption.
  - destruct (heap w !! id) as [nm |] eqn:Hid; [| discriminate].
    intros [= <-].
    destruct (focus_ok cap w id nm Hcap Hinv Hid) as [Hok _].
    eapply unfocus_invariant; try eassumption; reflexivity.
  - destruct (heap w !! id) as [nm |] eqn:Hid; [| discriminate].
    intros [= <-].
    destruct (focus_ok cap w id nm Hcap Hinv Hid) as [Hok _].
    destruct (budget_preserving_SetExecutable E executable (focus w nm) Hok) as [Hok' Hb].
    eapply unfocus_invariant; eassumption.
  - destruct (heap w !! id) as [nm |] eqn:Hid; [| discriminate].
    intros [= <-].
    destruct (focus_ok cap w id nm Hcap Hinv Hid) as [Hok _].
    eapply unfocus_invariant; try eassumption; reflexivity.
  - destruct (heap w !! id) as [nm |] eqn:Hid; [| discriminate].
    destruct (ModificationScope_enter E (focus w nm)) as [c' |] eqn:Hrun; [| discriminate].
    intros [= <-].
    destruct (focus_ok cap w id nm Hcap Hinv Hid) as [Hok _].
    destruct (ModificationScope_enter_budget E _ _ Hok Hrun) as [Hok' Hb].
    eapply unfocus_invariant; eassumption.
  - destruct (heap w !! id) as [nm |] eqn:Hid; [| discriminate].
    destruct (ModificationScope_leave E (focus w nm)) as [c' |] eqn:Hrun; [| discriminate].
    intros [= <-].
    destruct (focus_ok cap w id nm Hcap Hinv Hid) as [Hok _].
    destruct (ModificationScope_leave_budget E _ _ Hok Hrun) as [Hok' Hb].
    eapply unfocus_invariant; eassumption.
  - destruct (heap w !! id) as [nm |] eqn:Hid; [| discriminate].
    intros [= <-]. now apply DeleteNativeModule_invariant.
Qed.

Lemma run_invariant E cap ops : forall w w',
  is_word cap -> budget_invariant cap w -> run E ops w = Done w' ->
  budget_invariant cap w'.
Proof.
  induction ops as [| op ops IH]; intros w w' Hcap Hinv; cbn [run].
  - intros [= <-]. exact Hinv.
  - destruct (exec E op w) as [w1 |] eqn:Hexec; [| discriminate].
    apply IH; [exact Hcap |]. eapply exec_invariant; eassumption.
Qed.

(** C1. In every state the process reaches from a manager created with cap
    [cap], the sum of [committed_code_space_] over the live modules plus
    [remaining_uncommitted_code_space_] is [cap].  A successful [Commit]
    takes exactly [size] from the counter and leaves the module alone;
    [AllocateForCode], whatever it returns, adds to the module's
    [committed_code_space_] exactly what its commits took from the counter;
    and [FreeNativeModule] gives the module's whole [committed_code_space_]
    back to the counter.  States are those between two operations. *)
Theorem budget_conservation (E : Env) (cap : Z) :
  is_word cap ->
  (forall w, reachable E cap w ->
     total_committed (heap w)
       + WasmCodeManager.remaining_uncommitted_code_space_ (w_manager w) = cap) /\
  (forall start size c,
     is_word size -> is_word (remaining c) ->
     fst (Commit E start size c) = true ->
     remaining (snd (Commit E start size c)) = remaining c - size /\
     committed (this (snd (Commit E start size c))) = committed (this c)) /\
  (forall size c,
     ctx_ok c ->
     let c' := snd (AllocateForCode E size c) in
     committed (this c') - committed (this c) = remaining c - remaining c' /\
     0 <= remaining c') /\
  (forall c,
     ctx_ok c ->
     remaining (snd (FreeNativeModule c)) = remaining c + committed (this c)).
Proof.
  intros Hcap. split; [| split; [| split]].
  - intros w [ops Hrun].
    pose proof (run_invariant E cap ops _ _ Hcap (initial_invariant cap Hcap) Hrun)
      as (_ & _ & Hsum & _).
    exact Hsum.
  - intros start size c Hsize Hrem Htrue.
    destruct (Commit_cases E start size c Hrem (proj1 Hsize)) as (Hthis & [[Hf _] | (_ & _ & Hr)]).
    + congruence.
    + split; [exact Hr | now rewrite Hthis].
  - intros size c Hc c'. subst c'.
    destruct (budget_preserving_AllocateForCode E size c Hc) as [(_ & Hr & _) Hb].
    unfold ctx_budget in Hb. split; [lia | exact Hr].
  - intros c (Hc & Hr & Hlt). rewrite FreeNativeModule_effect.
    apply wrap_small. unfold is_word, ctx_budget in *. lia.
Qed.

(** A manager with a cap of 16 MiB, one module with one declared function,
    then a lazy-compile stub of 300 bytes and a function of 1200 bytes. *)
Lemma budget_conservation_witness :
  match run (obliging sample_platform)
          [OpNewNativeModule 65536 1 0 false true;
           OpAddOwnedCode 1 300 0 0 None kLazyStub 0 0 0 0 kOther;
           OpAddOwnedCode 1 1200 8 0 (Some 0) kFunction 1200 4 0 0 kLiftoff]
          (initial 16777216) with
  | Done w =>
      total_committed (heap w)
        + WasmCodeManager.remaining_uncommitted_code_space_ (w_manager w) = 16777216
  | Fatal => False
  end.
Proof.
  assert (Hcap : is_word 16777216) by (unfold is_word, kWordBits; lia).
  destruct (budget_conservation (obliging sample_platform) 16777216 Hcap) as (Hinv & _).
  destruct (run _ _ _) as [w |] eqn:Hrun.
  - apply Hinv. eexists. exact Hrun.
  - vm_compute in Hrun. discriminate.
Defined.

(** ** Further properties of the pool *)

(** Merge and allocate round trip: merging [r] into an empty pool and then
    allocating [r.size] gives [r] back and leaves the pool empty. *)
Theorem merge_then_allocate (r : range) :
  AddressRange.wf r ->
  Pool.Allocate (Pool.Merge [] r) (AddressRange.size r) = (r, []).
Proof.
  intros Hwf. cbn [Pool.Merge Pool.Allocate].
  rewrite (gtb_false (AddressRange.size r) (AddressRange.size r)) by lia.
  rewrite Z.eqb_refl.
  rewrite (range_size_wf r Hwf).
  replace (r_start r + (r_end r - r_start r)) with (r_end r) by lia.
  rewrite wrap_small by (destruct Hwf; unfold is_word; lia).
  now destruct r.
Qed.

Lemma merge_then_allocate_witness :
  Pool.Allocate (Pool.Merge [] (Range 4096 8192)) 4096 = (Range 4096 8192, []).
Proof.
  apply (merge_then_allocate (Range 4096 8192)).
  unfold AddressRange.wf, kWordBits. cbn. lia.
Defined.

Lemma covers_cons d p x : covers (d :: p) x <-> in_range d x \/ covers p x.
Proof. unfold covers, in_range. apply Exists_cons. Qed.

Lemma covers_nil x : covers [] x <-> False.
Proof. unfold covers. apply Exists_nil. Qed.

(** Merging adds the addresses of [r] to the pool and nothing else. *)
Theorem merge_covers (p : Pool.t) (r : range) (x : Address) :
  Pool.sorted p -> Pool.all_valid p -> r_start r <= r_end r ->
  Pool.disjoint_from p r ->
  covers (Pool.Merge p r) x <-> covers p x \/ in_range r x.
Proof.
  unfold Pool.all_valid, Pool.disjoint_from.
  induction p as [| d rest IH]; intros Hs Hv Hr Hdis.
  - cbn [Pool.Merge]. rewrite covers_cons, covers_nil. tauto.
  - apply Forall_cons_1 in Hv as [Hd Hv]. apply Forall_cons_1 in Hdis as [Hdd Hdis].
    cbn [Pool.Merge].
    destruct (Z.ltb_spec (r_end d) (r_start r)) as [Hlt | Hge].
    { rewrite !covers_cons, (IH (sorted_cons_inv _ _ Hs) Hv Hr Hdis). tauto. }
    destruct (Z.eqb_spec (r_start d) (r_end r)) as [Heq | Hne].
    { rewrite !covers_cons. unfold in_range. cbn. intuition lia. }
    destruct (r_start d >? r_end r) eqn:Hgt.
    { rewrite !covers_cons. tauto. }
    rewrite Z.gtb_ltb in Hgt. apply Z.ltb_ge in Hgt.
    assert (Hadj : r_end d = r_start r) by lia.
    destruct rest as [| n rest'].
    { rewrite !covers_cons, covers_nil. unfold in_range. cbn. intuition lia. }
    apply Forall_cons_1 in Hv as [Hn Hv].
    assert (Hdn : r_end d < r_start n) by (cbn [Pool.sorted] in Hs; tauto).
    destruct (Z.eqb_spec (r_end r) (r_start n)) as [Hfold | Hnofold];
      rewrite !covers_cons; unfold in_range; cbn; intuition lia.
Qed.

Lemma merge_covers_witness :
  covers (Pool.Merge [Range 4096 8192] (Range 8192 12288)) 10000.
Proof.
  apply (merge_covers [Range 4096 8192] (Range 8192 12288) 10000).
  - cbn. tauto.
  - repeat constructor. cbn. lia.
  - cbn. lia.
  - constructor; [right; cbn; lia | constructor].
  - right. unfold in_range. cbn. lia.
Defined.

Lemma covers_after d p x :
  Pool.sorted (d :: p) -> Pool.all_valid p -> covers p x -> r_end d < x.
Proof.
  unfold Pool.all_valid. revert d.
  induction p as [| a q IH]; intros d Hs Hv Hc.
  - now apply covers_nil in Hc.
  - apply Forall_cons_1 in Hv as [Ha Hv]. cbn [Pool.sorted] in Hs.
    destruct Hs as [Hda Hs]. apply covers_cons in Hc as [Hin | Hc].
    + unfold in_range in Hin. lia.
    + specialize (IH a Hs Hv Hc). lia.
Qed.

Lemma wf_valid p : Forall AddressRange.wf p -> Pool.all_valid p.
Proof.
  unfold Pool.all_valid. induction 1 as [| d p [Hd _] _ IH]; constructor;
    [lia | exact IH].
Qed.

(** The allocated range is carved out of the pool: either nothing fits, the
    result is the empty default range and the pool is as it was; or the
    result has the requested size, the pool covered before exactly what the
    result and the remaining pool cover, and these two do not meet. *)
Theorem allocate_carves (p : Pool.t) (size : Z) (x : Address) :
  Forall AddressRange.wf p -> Pool.sorted p -> 0 < size ->
  let ret := fst (Pool.Allocate p size) in
  let p' := snd (Pool.Allocate p size) in
  (ret = AddressRange.default /\ p' = p) \/
  (r_end ret = r_start ret + size /\
   (covers p x <-> in_range ret x \/ covers p' x) /\
   ~ (in_range ret x /\ covers p' x)).
Proof.
  intros Hwf Hs Hsize. cbv zeta.
  induction Hwf as [| d p Hd Hp IH].
  - left. split; reflexivity.
  - pose proof (covers_after d p x Hs (wf_valid p Hp)) as Hafter.
    cbn [Pool.Allocate]. rewrite (range_size_wf d Hd).
    destruct Hd as [Hd1 Hd2].
    destruct (size >? r_end d - r_start d) eqn:Hgt.
    + specialize (IH (sorted_cons_inv _ _ Hs)).
      destruct (Pool.Allocate p size) as [ret p'] eqn:Halloc. cbn [fst snd] in *.
      destruct IH as [[He ->] | (Hend & Hcov & Hdisj)].
      * left. split; [exact He | reflexivity].
      * right. split; [exact Hend |]. rewrite !covers_cons.
        split; [tauto |]. intros [Hin [Hd' | Hp']]; [| tauto].
        assert (Hc : covers p x) by tauto.
        apply Hafter in Hc. unfold in_range in Hd'. lia.
    + rewrite Z.gtb_ltb in Hgt. apply Z.ltb_ge in Hgt.
      assert (Hw : wrap (r_start d + size) = r_start d + size).
      { apply wrap_small. unfold is_word. lia. }
      right. rewrite Hw.
      destruct (Z.eqb_spec size (r_end d - r_start d)) as [Heq | Hne];
        cbn [fst snd AddressRange.start AddressRange.end_].
      * split; [reflexivity |]. rewrite covers_cons. unfold in_range. cbn.
        split; [intuition lia |]. intros [Hin Hc]. apply Hafter in Hc. lia.
      * split; [reflexivity |]. rewrite !covers_cons. unfold in_range. cbn.
        split; [intuition lia |].
        intros [Hin [Hrest | Hc]]; [lia |]. apply Hafter in Hc. lia.
Qed.

Lemma allocate_carves_witness :
  covers [Range 4096 4160; Range 8192 12288] 8200 <->
  in_range (Range 8192 8320) 8200 \/ covers [Range 4096 4160; Range 8320 12288] 8200.
Proof.
  destruct (allocate_carves [Range 4096 4160; Range 8192 12288] 128 8200)
    as [[Hnone _] | (_ & Hcov & _)].
  - repeat constructor; unfold kWordBits; cbn; lia.
  - cbn. lia.
  - lia.
  - vm_compute in Hnone. discriminate.
  - exact Hcov.
Defined.

(** ** Further properties of the module and of the budget *)

Lemma vector_insert_cons {A} n (c a : A) q :
  vector_insert (S n) c (a :: q) = a :: vector_insert n c q.
Proof. reflexivity. Qed.

Lemma Forall_vector_insert {A} (P : A -> Prop) n c v :
  P c -> Forall P v -> Forall P (vector_insert n c v).
Proof.
  intros Hc Hv. unfold vector_insert. apply Forall_app. split.
  - now apply Forall_take.
  - constructor; [exact Hc | now apply Forall_drop].
Qed.

(** Insertion at the upper bound keeps the order of instruction starts, and
    adds the new code object and nothing else. *)
Lemma insert_at_upper_bound_sorted (v : list WasmCode.t) (c : WasmCode.t) :
  starts_sorted v ->
  let insert_before :=
    upper_bound (WasmCodeUniquePtrComparator (WasmCode.instruction_start c)) v in
  starts_sorted (vector_insert insert_before c v) /\
  vector_insert insert_before c v ≡ₚ c :: v.
Proof.
  intros Hs insert_before. subst insert_before.
  rewrite (upper_bound_owned_code _ v Hs).
  split.
  - unfold starts_sorted in *. induction Hs as [| a q Hq IH Ha].
    + repeat constructor.
    + cbn [count_upto].
      destruct (Z.leb_spec (WasmCode.instruction_start a) (WasmCode.instruction_start c))
        as [Hle | Hgt].
      * rewrite vector_insert_cons. constructor; [exact IH |].
        now apply Forall_vector_insert.
      * unfold vector_insert. cbn. constructor; [now constructor |].
        constructor; [lia |]. eapply Forall_impl; [exact Ha |].
        intros x Hx. cbn beta in Hx. lia.
  - unfold vector_insert.
    generalize (count_upto (WasmCode.instruction_start c) v). intros n.
    rewrite <- Permutation_middle. now rewrite take_drop.
Qed.

(** [SetExecutable] returns false exactly when the operating system refuses
    one of the permission changes it issues, and then leaves the module,
    [is_executable_] included, as it was. *)
Theorem set_executable_failure (E : Env) (x : bool) (c : Ctx) :
  (fst (SetExecutable E x c) = false <->
   granted E (length (log_of c)) (length (permission_changes E x (this c))) = false) /\
  (fst (SetExecutable E x c) = false -> this (snd (SetExecutable E x c)) = this c).
Proof.
  destruct (SetExecutable_spec E x c) as (_ & Hyes & Hno).
  destruct (granted E (length (log_of c)) (length (permission_changes E x (this c)))).
  - destruct (Hyes eq_refl) as (Ht & _). rewrite Ht. split; [tauto | discriminate].
  - destruct (Hno eq_refl) as (Hf & Hthis & _). rewrite Hf. split; [tauto | auto].
Qed.

Lemma set_executable_failure_witness :
  this (snd (SetExecutable (fickle sample_platform 0) true (sample_ctx 8192))) =
  sample_module.
Proof.
  destruct (set_executable_failure (fickle sample_platform 0) true (sample_ctx 8192))
    as [_ H].
  apply H. reflexivity.
Defined.

(** No over-commit: in every reachable state the counter and every module's
    [committed_code_space_] lie between zero and the cap. *)
Theorem committed_within_cap (E : Env) (cap : Z) (w : World) :
  is_word cap -> reachable E cap w ->
  0 <= WasmCodeManager.remaining_uncommitted_code_space_ (w_manager w) <= cap /\
  map_Forall (fun _ nm => 0 <= committed nm <= cap) (heap w).
Proof.
  intros Hcap [ops Hrun].
  pose proof (run_invariant E cap ops _ _ Hcap (initial_invariant cap Hcap) Hrun)
    as (Hrem & Hall & Hsum & _).
  pose proof (total_committed_nonneg _ Hall) as Htotal.
  split; [lia |].
  intros id nm Hid. cbn beta.
  pose proof (Hall id nm Hid) as Hnm. cbn beta in Hnm.
  pose proof (total_committed_delete _ _ _ Hid) as Hdel.
  pose proof (total_committed_nonneg _ (map_Forall_delete _ _ id Hall)) as Hrest.
  lia.
Qed.

Lemma committed_within_cap_witness :
  match run (obliging sample_platform) adjacent_code (initial 16777216) with
  | Done w =>
      0 <= WasmCodeManager.remaining_uncommitted_code_space_ (w_manager w) <= 16777216
  | Fatal => False
  end.
Proof.
  assert (Hcap : is_word 16777216) by (unfold is_word, kWordBits; lia).
  destruct (run _ _ _) as [w |] eqn:Hrun.
  - apply (committed_within_cap (obliging sample_platform) 16777216 w Hcap).
    eexists. exact Hrun.
  - vm_compute in Hrun. discriminate.
Defined.

(** ** The order of [owned_code_] through the life of a module *)

Lemma code_preserving_ret {A} (a : A) : code_preserving (ret a).
Proof. intros c. reflexivity. Qed.

Lemma code_preserving_bind {A B} (m : M A) (k : A -> M B) :
  code_preserving m -> (forall a, code_preserving (k a)) ->
  code_preserving (bind m k).
Proof.
  intros Hm Hk c. unfold bind. specialize (Hm c).
  destruct (m c) as [a c1]. cbn [snd] in *. now rewrite Hk.
Qed.

Lemma code_preserving_if {A} (b : bool) (m1 m2 : M A) :
  code_preserving m1 -> code_preserving m2 ->
  code_preserving (if b then m1 else m2).
Proof. now destruct b. Qed.

Lemma code_preserving_get_this : code_preserving get_this.
Proof. intros c. reflexivity. Qed.

Lemma code_preserving_get_manager : code_preserving get_manager.
Proof. intros c. reflexivity. Qed.

Lemma code_preserving_get_os : code_preserving get_os.
Proof. intros c. reflexivity. Qed.

Lemma code_preserving_put_os o : code_preserving (put_os o).
Proof. intros c. reflexivity. Qed.

Lemma code_preserving_modify_manager f : code_preserving (modify_manager f).
Proof. intros c. reflexivity. Qed.

Lemma code_preserving_modify_this f :
  (forall nm, NativeModule.owned_code_ (f nm) = NativeModule.owned_code_ nm) ->
  code_preserving (modify_this f).
Proof. intros Hf c. cbn. apply Hf. Qed.

Create HintDb frame.
#[local] Hint Resolve code_preserving_ret code_preserving_bind code_preserving_if
  code_preserving_get_this code_preserving_get_manager code_preserving_get_os
  code_preserving_put_os code_preserving_modify_manager : frame.

Lemma code_preserving_SetPermissions E start size p :
  code_preserving (SetPermissions E start size p).
Proof. unfold SetPermissions. auto with frame. Qed.

Lemma code_preserving_Commit E start size : code_preserving (Commit E start size).
Proof.
  unfold Commit, next_cas_failures.
  apply code_preserving_bind; [auto with frame |]. intros failures.
  apply code_preserving_bind; [auto with frame |]. intros mgr.
  destruct (Commit_cas failures size _); [| auto with frame].
  apply code_preserving_bind; [auto with frame |]. intros _.
  apply code_preserving_bind; [apply code_preserving_SetPermissions |]. intros r.
  auto with frame.
Qed.

Lemma code_preserving_add_committed size : code_preserving (add_committed size).
Proof. apply code_preserving_modify_this. reflexivity. Qed.

Lemma code_preserving_free_Allocate size : code_preserving (free_Allocate size).
Proof.
  intros c. unfold free_Allocate, bind, get_this, modify_this, ret.
  now destruct (Pool.Allocate (NativeModule.free_code_space_ (this c)) size).
Qed.

Lemma code_preserving_TryAllocate E size hint :
  code_preserving (TryAllocate E size hint).
Proof. unfold TryAllocate. auto with frame. Qed.

Lemma code_preserving_AssignRanges start end_ id :
  code_preserving (AssignRanges start end_ id).
Proof. apply code_preserving_modify_manager. Qed.

#[local] Hint Resolve code_preserving_SetPermissions code_preserving_Commit
  code_preserving_add_committed code_preserving_free_Allocate
  code_preserving_TryAllocate code_preserving_AssignRanges : frame.

Lemma code_preserving_commit_chunks E spaces :
  forall commit_start commit_end,
    code_preserving (commit_chunks E spaces commit_start commit_end).
Proof.
  induction spaces as [| it spaces IH]; intros commit_start commit_end;
    cbn [commit_chunks]; [auto with frame |].
  apply code_preserving_if; [auto with frame |].
  apply code_preserving_if; [apply IH |].
  apply code_preserving_bind; [auto with frame |]. intros ok.
  apply code_preserving_if; [auto with frame |].
  apply code_preserving_bind; [auto with frame |]. intros _. apply IH.
Qed.

Lemma code_preserving_AllocateForCode E size :
  code_preserving (AllocateForCode E size).
Proof.
  unfold AllocateForCode.
  apply code_preserving_bind; [auto with frame |]. intros mem.
  apply code_preserving_bind.
  { apply code_preserving_if; [| auto with frame].
    unfold grow_code_space.
    apply code_preserving_bind; [auto with frame |]. intros nm.
    apply code_preserving_if; [auto with frame |].
    apply code_preserving_bind; [auto with frame |]. intros new_mem.
    apply code_preserving_bind;
      [apply code_preserving_modify_this; reflexivity |]. intros _.
    apply code_preserving_if; [auto with frame |].
    apply code_preserving_bind; [auto with frame |]. intros _.
    apply code_preserving_bind;
      [apply code_preserving_modify_this; reflexivity |]. intros _.
    apply code_preserving_bind; [auto with frame |]. intros mem'.
    auto with frame. }
  intros [mem' |]; [| auto with frame].
  apply code_preserving_bind.
  { unfold commit_for.
    apply code_preserving_if; [| auto with frame].
    apply code_preserving_if.
    - apply code_preserving_bind; [auto with frame |]. intros nm.
      apply code_preserving_commit_chunks.
    - apply code_preserving_bind; [auto with frame |]. intros ok.
      apply code_preserving_if; [auto with frame |].
      apply code_preserving_bind; auto with frame. }
  intros ok. apply code_preserving_if; [auto with frame |].
  apply code_preserving_bind;
    [apply code_preserving_modify_this; reflexivity | auto with frame].
Qed.

Lemma code_preserving_SetExecutable E x : code_preserving (SetExecutable E x).
Proof.
  intros c. rewrite SetExecutable_unfold.
  destruct (Bool.eqb _ x); [reflexivity |].
  destruct (issue_spec E (permission_changes E x (this c)) c) as ((_ & Ht & _) & _).
  destruct (issue E _ c) as [ok c']. cbn [snd] in *.
  destruct ok; cbn; now rewrite Ht.
Qed.

(** [AddOwnedCode] adds the new code object to [owned_code_], at its place
    in the order of instruction starts, and nothing else. *)
Lemma AddOwnedCode_owned_code E sz rs sp ix kd cpo ss spo hto tier c code c' :
  starts_sorted (NativeModule.owned_code_ (this c)) ->
  AddOwnedCode E sz rs sp ix kd cpo ss spo hto tier c = Done (code, c') ->
  starts_sorted (NativeModule.owned_code_ (this c')) /\
  NativeModule.owned_code_ (this c') ≡ₚ code :: NativeModule.owned_code_ (this c) /\
  WasmCode.instructions_size code = sz /\
  WasmCode.instruction_start code <> kNullAddress.
Proof.
  intros Hs. unfold AddOwnedCode.
  pose proof (code_preserving_AllocateForCode E sz c) as Hframe.
  destruct (AllocateForCode E sz c) as [buffer c1]. cbn [snd] in Hframe.
  destruct (Z.eqb_spec buffer kNullAddress) as [| Hnz]; [discriminate |].
  cbn. intros [= <- <-]. cbn. rewrite Hframe.
  match goal with
  | |- context [vector_insert (upper_bound _ ?v) ?c0 ?v] =>
      destruct (insert_at_upper_bound_sorted v c0 Hs) as [H1 H2]
  end.
  auto.
Qed.

Lemma NativeModule_new_sorted E id nf ni more code_space trap o mgr c' :
  NativeModule_new E id nf ni more code_space trap o mgr = Done c' ->
  starts_sorted (NativeModule.owned_code_ (this c')).
Proof.
  unfold NativeModule_new, modify_this.
  destruct (_ >? 0).
  - unfold CreateEmptyJumpTable.
    match goal with |- context [AddOwnedCode E ?s _ _ _ _ _ _ _ _ _ ?c0] =>
      destruct (AddOwnedCode E s 0 0 None kJumpTable 0 0 0 0 kOther c0)
        as [[jt c2] |] eqn:Hadd; [| discriminate]
    end.
    match type of Hadd with
    | AddOwnedCode _ _ _ _ _ _ _ _ _ _ _ ?c0 = _ =>
        assert (Hs0 : starts_sorted (NativeModule.owned_code_ (this c0)))
          by constructor
    end.
    pose proof (AddOwnedCode_owned_code E _ _ _ _ _ _ _ _ _ _ _ _ _ Hs0 Hadd) as [Hs _].
    intros [= <-]. exact Hs.
  - intros [= <-]. constructor.
Qed.

Lemma unfocus_code_invariant w id c' :
  code_invariant w -> starts_sorted (NativeModule.owned_code_ (this c')) ->
  code_invariant (unfocus w id c').
Proof. intros Hinv Hs. unfold code_invariant, unfocus. cbn. now apply map_Forall_insert_2. Qed.

Lemma ModificationScope_enter_code E c c' :
  ModificationScope_enter E c = Done c' ->
  NativeModule.owned_code_ (this c') = NativeModule.owned_code_ (this c).
Proof.
  unfold ModificationScope_enter, modify_this.
  match goal with |- context [SetExecutable E false ?c0] =>
    pose proof (code_preserving_SetExecutable E false c0) as Hframe;
    destruct (SetExecutable E false c0) as [[] c2]
  end; destruct (_ =? 0); try discriminate; intros [= <-]; auto.
Qed.

Lemma ModificationScope_leave_code E c c' :
  ModificationScope_leave E c = Done c' ->
  NativeModule.owned_code_ (this c') = NativeModule.owned_code_ (this c).
Proof.
  unfold ModificationScope_leave, modify_this.
  match goal with |- context [SetExecutable E true ?c0] =>
    pose proof (code_preserving_SetExecutable E true c0) as Hframe;
    destruct (SetExecutable E true c0) as [[] c2]
  end; destruct (_ =? 1); try discriminate; intros [= <-]; auto.
Qed.

Lemma exec_code_invariant E op w w' :
  code_invariant w -> exec E op w = Done w' -> code_invariant w'.
Proof.
  intros Hinv. destruct op; cbn [exec].
  - destruct (NewNativeModule E _ _ _ _ _ w) as [[id' w1] |] eqn:Hnew; [| discriminate].
    intros [= <-].
    destruct (NewNativeModule_Done _ _ _ _ _ _ _ _ _ Hnew)
      as (mem & o1 & c2 & Hc2 & _ & _ & Hheap & _).
    unfold code_invariant. rewrite Hheap.
    apply map_Forall_insert_2; [| exact Hinv].
    eapply NativeModule_new_sorted, Hc2.
  - destruct (heap w !! id) as [nm |] eqn:Hid; [| discriminate].
    destruct (AddOwnedCode E _ _ _ _ _ _ _ _ _ _ (focus w nm)) as [[code0 c'] |] eqn:Hadd;
      [| discriminate].
    intros [= <-]. apply unfocus_code_invariant; [exact Hinv |].
    eapply AddOwnedCode_owned_code; [| exact Hadd]. exact (Hinv id nm Hid).
  - destruct (heap w !! id) as [nm |] eqn:Hid; [| discriminate].
    intros [= <-]. apply unfocus_code_invariant; [exact Hinv |]. exact (Hinv id nm Hid).
  - destruct (heap w !! id) as [nm |] eqn:Hid; [| discriminate].
    intros [= <-]. apply unfocus_code_invariant; [exact Hinv |].
    rewrite code_preserving_SetExecutable. exact (Hinv id nm Hid).
  - destruct (heap w !! id) as [nm |] eqn:Hid; [| discriminate].
    intros [= <-]. apply unfocus_code_invariant; [exact Hinv |]. exact (Hinv id nm Hid).
  - destruct (heap w !! id) as [nm |] eqn:Hid; [| discriminate].
    destruct (ModificationScope_enter E (focus w nm)) as [c' |] eqn:Hrun; [| discriminate].
    intros [= <-]. apply unfocus_code_invariant; [exact Hinv |].
    rewrite (ModificationScope_enter_code E _ _ Hrun). exact (Hinv id nm Hid).
  - destruct (heap w !! id) as [nm |] eqn:Hid; [| discriminate].
    destruct (ModificationScope_leave E (focus w nm)) as [c' |] eqn:Hrun; [| discriminate].
    intros [= <-]. apply unfocus_code_invariant; [exact Hinv |].
    rewrite (ModificationScope_leave_code E _ _ Hrun). exact (Hinv id nm Hid).
  - destruct (heap w !! id) as [nm |] eqn:Hid; [| discriminate].
    intros [= <-]. unfold DeleteNativeModule.
    destruct (FreeNativeModule (focus w nm)) as [[] c']. unfold code_invariant. cbn.
    now apply map_Forall_delete.
Qed.

(** In every reachable state, every live module has its [owned_code_]
    ordered by instruction start: what the binary searches of [Lookup] and
    [AddOwnedCode] rely on always holds. *)
Theorem owned_code_always_sorted (E : Env) (cap : Z) (w : World) :
  reachable E cap w -> code_invariant w.
Proof.
  intros [ops Hrun].
  assert (Hinit : code_invariant (initial cap)).
  { unfold code_invariant, initial. cbn. apply map_Forall_empty. }
  revert Hrun Hinit. generalize (initial cap). clear cap.
  induction ops as [| op ops IH]; intros w0 Hrun Hinv; cbn [run] in Hrun.
  - injection Hrun as <-. exact Hinv.
  - destruct (exec E op w0) as [w1 |] eqn:Hexec; [| discriminate].
    apply (IH w1 Hrun). eapply exec_code_invariant; eassumption.
Qed.

Lemma owned_code_always_sorted_witness :
  match run (obliging sample_platform_wide) growing (initial 16777216) with
  | Done w => code_invariant w
  | Fatal => False
  end.
Proof.
  destruct (run _ _ _) as [w |] eqn:Hrun.
  - apply (owned_code_always_sorted (obliging sample_platform_wide) 16777216 w).
    eexists. exact Hrun.
  - vm_compute in Hrun. discriminate.
Defined.

Lemma key_le_transitive : Transitive key_le.
Proof. intros a b c. unfold key_le. lia. Qed.

Lemma key_le_total : Total key_le.
Proof. intros a b. unfold key_le. lia. Qed.

Lemma entries_sorted m : StronglySorted key_le (entries m).
Proof.
  apply StronglySorted_merge_sort; [apply key_le_transitive | apply key_le_total].
Qed.

Lemma entries_elem_of m k v : (k, v) ∈ entries m <-> m !! k = Some v.
Proof.
  unfold entries. rewrite merge_sort_Permutation. apply elem_of_map_to_list.
Qed.

Lemma entries_keys_NoDup m : NoDup (entries m).*1.
Proof.
  unfold entries. rewrite merge_sort_Permutation. apply NoDup_fst_map_to_list.
Qed.

Lemma entries_empty : entries ∅ = [].
Proof. reflexivity. Qed.

Lemma entries_nil m : entries m = [] -> m = ∅.
Proof.
  intros H. apply map_empty. intros k.
  destruct (m !! k) as [v |] eqn:Hk; [| reflexivity].
  apply entries_elem_of in Hk. rewrite H in Hk. inversion Hk.
Qed.

(** Two entries at different positions have different keys, in order. *)
Lemma entries_lt m i j a b :
  entries m !! i = Some a -> entries m !! j = Some b -> (i < j)%nat -> fst a < fst b.
Proof.
  intros Ha Hb Hij.
  pose proof (sorted_lookup_lt key_le _ (entries_sorted m) i j a b Ha Hb Hij) as Hle.
  unfold key_le in Hle.
  assert (fst a <> fst b); [| lia].
  intros Heq.
  pose proof (entries_keys_NoDup m) as Hnd.
  assert (Hi : (entries m).*1 !! i = Some (fst a)) by (rewrite list_lookup_fmap, Ha; reflexivity).
  assert (Hj : (entries m).*1 !! j = Some (fst a))
    by (rewrite list_lookup_fmap, Hb, Heq; reflexivity).
  pose proof (NoDup_lookup _ _ _ _ Hnd Hi Hj). lia.
Qed.

Lemma map_upper_bound_spec pc es :
  StronglySorted key_le es ->
  (map_upper_bound pc es <= length es)%nat /\
  forall i e, es !! i = Some e -> ((i < map_upper_bound pc es)%nat <-> fst e <= pc).
Proof.
  induction 1 as [| a q Hq IH Ha]; cbn [map_upper_bound].
  - split; [cbn; lia |]. intros i e Hi. destruct i; discriminate.
  - destruct IH as [IHn IH].
    destruct (Z.ltb_spec pc (fst a)) as [Hlt | Hge].
    + split; [cbn; lia |]. intros i e Hi. split; [lia |]. intros Hle. exfalso.
      destruct i as [| i].
      * injection Hi as <-. lia.
      * cbn in Hi. apply list_elem_of_lookup_2 in Hi.
        rewrite Forall_forall in Ha. specialize (Ha e Hi). unfold key_le in Ha. lia.
    + split; [cbn; lia |]. intros [| i] e Hi.
      * injection Hi as <-. split; [lia | lia].
      * cbn in Hi. rewrite <- (IH i e Hi). lia.
Qed.

(** [LookupNativeModule] returns the module of the registered range with
    the greatest base not above [pc], when [pc] is below the end of that
    range. *)
Lemma LookupNativeModule_Some mgr pc id :
  LookupNativeModule mgr pc = Some id <->
  exists base end_,
    WasmCodeManager.lookup_map_ mgr !! base = Some (end_, id) /\
    base <= pc < end_ /\
    forall k, base < k <= pc -> WasmCodeManager.lookup_map_ mgr !! k = None.
Proof.
  unfold LookupNativeModule.
  set (m := WasmCodeManager.lookup_map_ mgr).
  destruct (map_upper_bound_spec pc (entries m) (entries_sorted m)) as [Hn Hscan].
  split.
  - destruct (entries m) as [| e0 es0] eqn:Hes; [discriminate |].
    rewrite <- Hes in *. clear Hes e0 es0.
    destruct (map_upper_bound pc (entries m)) as [| prev] eqn:Hub; [discriminate |].
    destruct (entries m !! prev) as [[range_start [range_end candidate]] |] eqn:Hprev;
      [| discriminate].
    destruct (Z.leb_spec range_start pc) as [Hle |]; [| discriminate].
    destruct (Z.ltb_spec pc range_end) as [Hlt |]; [| discriminate].
    cbn. intros [= ->]. exists range_start, range_end.
    split; [apply entries_elem_of; eapply list_elem_of_lookup_2, Hprev |].
    split; [lia |].
    intros k Hk. destruct (m !! k) as [v |] eqn:Hmk; [exfalso | reflexivity].
    apply entries_elem_of, list_elem_of_lookup_1 in Hmk as [j Hj].
    pose proof (proj2 (Hscan j _ Hj)) as Hjn. cbn [fst] in Hjn.
    destruct (Nat.lt_trichotomy j prev) as [Hlt' | [Heq | Hgt]].
    + pose proof (entries_lt m j prev _ _ Hj Hprev Hlt'). cbn [fst] in *. lia.
    + rewrite Heq in Hj.
      assert (Hsame : Some (k, v) = Some (range_start, (range_end, id)))
        by exact (eq_trans (eq_sym Hj) Hprev).
      injection Hsame as -> _. lia.
    + assert (j < S prev)%nat by (apply Hjn; lia). lia.
  - intros (base & end_ & Hm & Hpc & Hnone).
    apply entries_elem_of, list_elem_of_lookup_1 in Hm as [j Hj].
    assert (Hjn : (j < map_upper_bound pc (entries m))%nat).
    { apply (Hscan j _ Hj). cbn. lia. }
    destruct (entries m) as [| e0 es0] eqn:Hes; [destruct j; discriminate |].
    rewrite <- Hes in *. clear Hes e0 es0.
    destruct (map_upper_bound pc (entries m)) as [| prev] eqn:Hub; [lia |].
    destruct (lookup_lt_is_Some_2 (entries m) prev) as [[k [e cand]] Hprev]; [lia |].
    assert (Hsame : j = prev).
    { destruct (Nat.eq_dec j prev) as [| Hne]; [assumption | exfalso].
      assert (Hlt' : (j < prev)%nat) by lia.
      pose proof (entries_lt m j prev _ _ Hj Hprev Hlt') as Hk. cbn [fst] in Hk.
      assert (Hkpc : k <= pc).
      { apply (Hscan prev _ Hprev). lia. }
      assert (Hmk : m !! k = Some (e, cand)).
      { apply entries_elem_of. eapply list_elem_of_lookup_2, Hprev. }
      rewrite (Hnone k) in Hmk; [discriminate | lia]. }
    subst j.
    assert (Hsame : Some (k, (e, cand)) = Some (base, (end_, id)))
      by exact (eq_trans (eq_sym Hprev) Hj).
    injection Hsame as -> -> ->.
    rewrite Hprev.
    destruct (Z.leb_spec base pc); [| lia].
    destruct (Z.ltb_spec pc end_); [| lia]. reflexivity.
Qed.

Lemma option_ext {A} (x y : option A) : (forall a, x = Some a <-> y = Some a) -> x = y.
Proof.
  intros H. destruct x as [a |], y as [b |]; try reflexivity.
  - symmetry. now apply (H a).
  - symmetry. now apply (H a).
  - now apply (H b).
Qed.

Lemma LookupNativeModule_disjoint mgr pc id :
  ranges_disjoint (WasmCodeManager.lookup_map_ mgr) ->
  LookupNativeModule mgr pc = Some id <->
  exists base end_,
    WasmCodeManager.lookup_map_ mgr !! base = Some (end_, id) /\ base <= pc < end_.
Proof.
  intros Hdis. rewrite LookupNativeModule_Some. split.
  - intros (base & end_ & Hm & Hpc & _). eauto.
  - intros (base & end_ & Hm & Hpc). exists base, end_. split; [exact Hm |].
    split; [exact Hpc |]. intros k Hk.
    destruct (WasmCodeManager.lookup_map_ mgr !! k) as [[e i] |] eqn:Hmk; [| reflexivity].
    pose proof (Hdis base end_ id k e i Hm Hmk). lia.
Qed.

(** [LookupNativeModule] on a registry whose ranges are pairwise disjoint:
    it returns the module whose registered range [base, end) holds [pc], and
    null exactly when no registered range holds [pc]. *)
Theorem lookup_native_module_semantics (mgr : WasmCodeManager.t) (pc : Address) :
  ranges_disjoint (WasmCodeManager.lookup_map_ mgr) ->
  (forall id,
     LookupNativeModule mgr pc = Some id <->
     exists base end_,
       WasmCodeManager.lookup_map_ mgr !! base = Some (end_, id) /\ base <= pc < end_) /\
  (LookupNativeModule mgr pc = None <->
   forall base end_ id,
     WasmCodeManager.lookup_map_ mgr !! base = Some (end_, id) -> ~ base <= pc < end_).
Proof.
  intros Hdis. split.
  - intros id. now apply LookupNativeModule_disjoint.
  - split.
    + intros Hnone base end_ id Hm Hpc.
      assert (Hsome : LookupNativeModule mgr pc = Some id).
      { apply LookupNativeModule_disjoint; eauto. }
      congruence.
    + intros Hno. destruct (LookupNativeModule mgr pc) as [id |] eqn:Hl; [| reflexivity].
      apply LookupNativeModule_disjoint in Hl as (base & end_ & Hm & Hpc); [| exact Hdis].
      destruct (Hno base end_ id Hm Hpc).
Qed.

Lemma two_modules_disjoint : ranges_disjoint (WasmCodeManager.lookup_map_ two_modules).
Proof.
  intros k1 e1 id1 k2 e2 id2. cbn.
  rewrite !lookup_insert_Some, !lookup_empty.
  intros [[<- [= <- <-]] | [_ [[<- [= <- <-]] | [_ ?]]]]; [| | discriminate];
    intros [[<- [= <- <-]] | [_ [[<- [= <- <-]] | [_ ?]]]]; try discriminate; lia.
Qed.

Lemma lookup_native_module_semantics_witness :
  LookupNativeModule two_modules 40000 = Some 2%nat.
Proof.
  apply (lookup_native_module_semantics two_modules 40000 two_modules_disjoint).
  exists 32768, 65536. split; [reflexivity | lia].
Defined.

(** [AssignRanges] then [LookupNativeModule]: a range whose start is already
    a key is not registered at all (the map keeps the first entry); a new
    range answers the lookups of its addresses up to the next registered
    start, and changes no lookup below its start, nor at or above its end
    when the ranges registered below it end at or before its start. *)
Theorem assign_ranges_then_lookup (start end_ : Address) (native_module : nat) (c : Ctx) :
  let m := WasmCodeManager.lookup_map_ (manager c) in
  let c' := snd (AssignRanges start end_ native_module c) in
  (is_Some (m !! start) -> c' = c) /\
  (m !! start = None ->
   (forall pc, start <= pc < end_ ->
               (forall k, start < k <= pc -> m !! k = None) ->
               LookupNativeModule (manager c') pc = Some native_module) /\
   (forall pc, pc < start ->
               LookupNativeModule (manager c') pc = LookupNativeModule (manager c) pc) /\
   ((forall k e id, m !! k = Some (e, id) -> k < start -> e <= start) ->
    forall pc, end_ <= pc ->
               LookupNativeModule (manager c') pc = LookupNativeModule (manager c) pc)).
Proof.
  intros m c'. subst m c'. unfold AssignRanges, modify_manager. cbn [snd manager].
  split.
  - intros [entry Hentry]. rewrite Hentry. now destruct c.
  - intros Hfresh. rewrite Hfresh. cbn [WasmCodeManager.set_lookup_map WasmCodeManager.lookup_map_].
    split; [| split].
    + intros pc Hpc Hnone. apply LookupNativeModule_Some. cbn.
      exists start, end_. split; [apply lookup_insert_eq |]. split; [exact Hpc |].
      intros k Hk. rewrite lookup_insert_ne by lia. now apply Hnone.
    + intros pc Hpc. apply option_ext. intros id.
      rewrite !LookupNativeModule_Some. cbn.
      split; intros (base & e & Hm & Hr & Hnone); exists base, e.
      * rewrite lookup_insert_ne in Hm by lia. split; [exact Hm |]. split; [exact Hr |].
        intros k Hk. specialize (Hnone k Hk). rewrite lookup_insert_ne in Hnone by lia.
        exact Hnone.
      * rewrite lookup_insert_ne by lia.
        split; [exact Hm |]. split; [exact Hr |].
        intros k Hk. rewrite lookup_insert_ne by lia. now apply Hnone.
    + intros Hbelow pc Hpc. apply option_ext. intros id.
      rewrite !LookupNativeModule_Some. cbn.
      split; intros (base & e & Hm & Hr & Hnone).
      * destruct (Z.eq_dec start base) as [<- | Hne].
        { rewrite lookup_insert_eq in Hm. injection Hm as <- <-. lia. }
        rewrite lookup_insert_ne in Hm by exact Hne.
        exists base, e. split; [exact Hm |]. split; [exact Hr |].
        intros k Hk. specialize (Hnone k Hk).
        destruct (Z.eq_dec start k) as [<- | Hnk].
        { rewrite lookup_insert_eq in Hnone. discriminate. }
        now rewrite lookup_insert_ne in Hnone by exact Hnk.
      * assert (Hns : start <> base).
        { intros Heq. subst base. generalize (eq_trans (eq_sym Hm) Hfresh). discriminate. }
        exists base, e. rewrite lookup_insert_ne by exact Hns.
        split; [exact Hm |]. split; [exact Hr |].
        intros k Hk.
        assert (Hnk : start <> k).
        { intros <-. assert (Hlt : base < start) by lia.
          pose proof (Hbelow base e id Hm Hlt). lia. }
        rewrite lookup_insert_ne by exact Hnk. now apply Hnone.
Qed.

Lemma assign_ranges_then_lookup_witness :
  LookupNativeModule
    (manager (snd (AssignRanges 131072 196608 3%nat
                     {| os := quiet_os; manager := two_modules; this := sample_module |})))
    140000 = Some 3%nat.
Proof.
  destruct (assign_ranges_then_lookup 131072 196608 3%nat
              {| os := quiet_os; manager := two_modules; this := sample_module |})
    as [_ H].
  destruct (H eq_refl) as [Hin _].
  apply Hin; [lia |].
  intros k Hk. cbn. rewrite !lookup_insert_ne by lia. apply lookup_empty.
Defined.

(** ** Methods, step by step *)

Section Follows.

Variable E : Env.
Variable R : Ctx -> Ctx -> Prop.
Hypothesis R_refl : forall c, R c c.
Hypothesis R_trans : forall c1 c2 c3, R c1 c2 -> R c2 c3 -> R c1 c3.

Lemma follows_ret {A} (a : A) : follows R (ret a).
Proof. intros c. apply R_refl. Qed.

Lemma follows_bind {A B} (m : M A) (k : A -> M B) :
  follows R m -> (forall a, follows R (k a)) -> follows R (bind m k).
Proof.
  intros Hm Hk c. unfold bind. specialize (Hm c).
  destruct (m c) as [a c1]. cbn [snd] in Hm.
  exact (R_trans _ _ _ Hm (Hk a c1)).
Qed.

Lemma follows_if {A} (b : bool) (m1 m2 : M A) :
  follows R m1 -> follows R m2 -> follows R (if b then m1 else m2).
Proof. now destruct b. Qed.

Lemma follows_get_this : follows R get_this.
Proof. intros c. apply R_refl. Qed.

Lemma follows_get_manager : follows R get_manager.
Proof. intros c. apply R_refl. Qed.

Lemma follows_get_os : follows R get_os.
Proof. intros c. apply R_refl. Qed.

Lemma follows_modify_this f :
  (forall c, R c (with_this f c)) -> follows R (modify_this f).
Proof. intros H c. apply H. Qed.

Lemma follows_modify_manager f :
  (forall c, R c (with_manager f c)) -> follows R (modify_manager f).
Proof. intros H c. apply H. Qed.

Lemma follows_put_os o : (forall c, R c (with_os o c)) -> follows R (put_os o).
Proof. intros H c. apply H. Qed.

(** [Commit], from what it is made of. *)
Lemma follows_Commit :
  follows R (next_cas_failures E) ->
  (forall c v, R c (with_manager (WasmCodeManager.set_remaining v) c)) ->
  (forall start size, follows R (SetPermissions E start size (commit_permission E))) ->
  forall start size, follows R (Commit E start size).
Proof.
  intros Hcas Hrem Hperm start size. unfold Commit.
  apply follows_bind; [exact Hcas |]. intros failures.
  apply follows_bind; [apply follows_get_manager |]. intros mgr.
  destruct (Commit_cas failures size _) as [v |]; [| apply follows_ret].
  apply follows_bind; [apply follows_modify_manager; intros c; apply Hrem |]. intros _.
  apply follows_bind; [apply Hperm |]. intros r.
  apply follows_if; [| apply follows_ret].
  apply follows_bind; [| intros _; apply follows_ret].
  apply follows_modify_manager. intros c. apply Hrem.
Qed.

Lemma follows_commit_chunks :
  (forall start size, follows R (Commit E start size)) ->
  (forall size, follows R (add_committed size)) ->
  forall spaces commit_start commit_end,
    follows R (commit_chunks E spaces commit_start commit_end).
Proof.
  intros HCommit Hadd.
  induction spaces as [| it spaces IH]; intros commit_start commit_end;
    cbn [commit_chunks]; [apply follows_ret |].
  apply follows_if; [apply follows_ret |].
  apply follows_if; [apply IH |].
  apply follows_bind; [apply HCommit |]. intros ok.
  apply follows_if; [apply follows_ret |].
  apply follows_bind; [apply Hadd |]. intros _. apply IH.
Qed.

Lemma follows_commit_for :
  (forall start size, follows R (Commit E start size)) ->
  (forall size, follows R (add_committed size)) ->
  forall mem, follows R (commit_for E mem).
Proof.
  intros HCommit Hadd mem. unfold commit_for.
  apply follows_if; [| apply follows_ret].
  apply follows_if.
  - apply follows_bind; [apply follows_get_this |]. intros nm.
    now apply follows_commit_chunks.
  - apply follows_bind; [apply HCommit |]. intros ok.
    apply follows_if; [apply follows_ret |].
    apply follows_bind; [apply Hadd | intros _; apply follows_ret].
Qed.

Lemma follows_free_Allocate :
  (forall c v, R c (with_this (NativeModule.set_free_code_space v) c)) ->
  forall size, follows R (free_Allocate size).
Proof.
  intros Hfree size c. unfold free_Allocate, bind, get_this, modify_this, ret.
  destruct (Pool.Allocate (NativeModule.free_code_space_ (this c)) size) as [mem rest].
  apply Hfree.
Qed.

Lemma follows_grow_code_space :
  (forall size hint, follows R (TryAllocate E size hint)) ->
  (forall c v, R c (with_this (NativeModule.set_owned_code_space v) c)) ->
  (forall start end_ id, follows R (AssignRanges start end_ id)) ->
  (forall c v, R c (with_this (NativeModule.set_free_code_space v) c)) ->
  forall size, follows R (grow_code_space E size).
Proof.
  intros Htry Hspace Hassign Hfree size. unfold grow_code_space.
  apply follows_bind; [apply follows_get_this |]. intros nm.
  apply follows_if; [apply follows_ret |].
  apply follows_bind; [apply Htry |]. intros new_mem.
  apply follows_bind; [apply follows_modify_this; intros c; apply Hspace |]. intros _.
  apply follows_if; [apply follows_ret |].
  apply follows_bind; [apply Hassign |]. intros _.
  apply follows_bind; [apply follows_modify_this; intros c; apply Hfree |]. intros _.
  apply follows_bind; [now apply follows_free_Allocate |]. intros mem.
  apply follows_if; apply follows_ret.
Qed.

Lemma follows_AllocateForCode :
  (forall c v, R c (with_this (NativeModule.set_free_code_space v) c)) ->
  (forall size, follows R (grow_code_space E size)) ->
  (forall mem, follows R (commit_for E mem)) ->
  (forall c v, R c (with_this (NativeModule.set_allocated_code_space v) c)) ->
  forall size, follows R (AllocateForCode E size).
Proof.
  intros Hfree Hgrow Hcommit Halloc size. unfold AllocateForCode.
  apply follows_bind; [now apply follows_free_Allocate |]. intros mem.
  apply follows_bind; [apply follows_if; [apply Hgrow | apply follows_ret] |].
  intros [mem' |]; [| apply follows_ret].
  apply follows_bind; [apply Hcommit |]. intros ok.
  apply follows_if; [apply follows_ret |].
  apply follows_bind; [| intros _; apply follows_ret].
  apply follows_modify_this. intros c. apply Halloc.
Qed.

Lemma follows_issue :
  forall calls,
    Forall (fun call => follows R (SetPermissions E (sc_start call) (sc_size call)
                                     (sc_perm call))) calls ->
    follows R (issue E calls).
Proof.
  induction 1 as [| call calls Hcall _ IH]; cbn [issue]; [apply follows_ret |].
  apply follows_bind; [exact Hcall |]. intros ok.
  apply follows_if; [apply follows_ret | exact IH].
Qed.

Lemma follows_SetExecutable :
  (forall start size, follows R (SetPermissions E start size kReadWrite)) ->
  (forall start size, follows R (SetPermissions E start size kReadExecute)) ->
  (forall c v, R c (with_this (NativeModule.set_is_executable v) c)) ->
  forall x, follows R (SetExecutable E x).
Proof.
  intros Hrw Hrx Hexec x c. rewrite SetExecutable_unfold.
  destruct (Bool.eqb _ x); [apply R_refl |].
  assert (Hissue : follows R (issue E (permission_changes E x (this c)))).
  { apply follows_issue. apply Forall_forall. intros call Hin.
    assert (Hp : sc_perm call = if x then kReadExecute else kReadWrite).
    { unfold permission_changes in Hin.
      destruct (Bool.eqb _ x); [inversion Hin |].
      destruct (FLAG_wasm_write_protect_code_memory _); [| inversion Hin].
      destruct (V8_OS_WIN _ && _);
        apply list_elem_of_fmap in Hin as (y & -> & _); reflexivity. }
    rewrite Hp. destruct x; [apply Hrx | apply Hrw]. }
  specialize (Hissue c).
  destruct (issue E _ c) as [ok c1]. cbn [snd] in *.
  destruct ok; cbn [snd]; [| exact Hissue].
  exact (R_trans _ _ _ Hissue (Hexec c1 x)).
Qed.

(** [AddOwnedCode], when it returns. *)
Lemma follows_AddOwnedCode :
  (forall size, follows R (AllocateForCode E size)) ->
  (forall c v, R c (with_this (NativeModule.set_owned_code v) c)) ->
  forall sz rs sp ix k cpo ss spo hto tier c code c',
    AddOwnedCode E sz rs sp ix k cpo ss spo hto tier c = Done (code, c') -> R c c'.
Proof.
  intros Halloc Howned sz rs sp ix k cpo ss spo hto tier c code c' Hadd.
  unfold AddOwnedCode in Hadd. specialize (Halloc sz c).
  destruct (AllocateForCode E sz c) as [buffer c1]. cbn [snd] in Halloc.
  destruct (buffer =? kNullAddress); [discriminate |].
  cbn in Hadd. injection Hadd as _ <-.
  exact (R_trans _ _ _ Halloc (Howned c1 _)).
Qed.

(** An operation on a module, from the methods it runs. *)
Lemma follows_method_step :
  (forall sz rs sp ix k cpo ss spo hto tier c code c',
     AddOwnedCode E sz rs sp ix k cpo ss spo hto tier c = Done (code, c') -> R c c') ->
  (forall c index code, R c (with_this (set_code index code) c)) ->
  (forall x, follows R (SetExecutable E x)) ->
  (forall c, R c (with_this DisableTrapHandler c)) ->
  (forall c v, R c (with_this (NativeModule.set_modification_scope_depth v) c)) ->
  forall c c', method_step E c c' -> R c c'.
Proof.
  intros Hadd' Hset Hexec Hdisable Hdepth c c' Hstep.
  destruct Hstep as [sz rs sp ix k cpo ss spo hto tier code c' Hadd | index code | x
                    | | c' Henter | c' Hleave].
  - eapply Hadd', Hadd.
  - apply Hset.
  - apply Hexec.
  - apply Hdisable.
  - unfold ModificationScope_enter, modify_this in Henter.
    pose proof (Hdepth c (wrap_int (NativeModule.modification_scope_depth_ (this c) + 1)))
      as H1.
    destruct (_ =? 0).
    + match type of Henter with context [SetExecutable E false ?c0] =>
        pose proof (Hexec false c0) as H2;
        destruct (SetExecutable E false c0) as [[] c2]; [| discriminate]
      end.
      injection Henter as <-. exact (R_trans _ _ _ H1 H2).
    + injection Henter as <-. exact H1.
  - unfold ModificationScope_leave, modify_this in Hleave.
    pose proof (Hdepth c (wrap_int (NativeModule.modification_scope_depth_ (this c) - 1)))
      as H1.
    destruct (_ =? 1).
    + match type of Hleave with context [SetExecutable E true ?c0] =>
        pose proof (Hexec true c0) as H2;
        destruct (SetExecutable E true c0) as [[] c2]; [| discriminate]
      end.
      injection Hleave as <-. exact (R_trans _ _ _ H1 H2).
    + injection Hleave as <-. exact H1.
Qed.

End Follows.

Lemma same_refl {B} (proj : Ctx -> B) c : same proj c c.
Proof. reflexivity. Qed.

Lemma same_trans {B} (proj : Ctx -> B) c1 c2 c3 :
  same proj c1 c2 -> same proj c2 c3 -> same proj c1 c3.
Proof. unfold same. congruence. Qed.

(** What an operation of the process is made of. *)
Lemma exec_cases E op w w' :
  exec E op w = Done w' ->
  (exists est nf ni more trap id, NewNativeModule E est nf ni more trap w = Done (id, w')) \/
  (exists id nm, heap w !! id = Some nm /\ w' = DeleteNativeModule id nm w) \/
  (exists id nm c', heap w !! id = Some nm /\ method_step E (focus w nm) c' /\
                    w' = unfocus w id c').
Proof.
  destruct op as [est nf ni more trap | id sz rs sp ix kd cpo ss spo hto tier
                 | id index wcode | id executable | id | id | id | id]; cbn [exec].
  - destruct (NewNativeModule E _ _ _ _ _ w) as [[id' w1] |] eqn:Hnew; [| discriminate].
    intros [= <-]. left. eauto 10.
  - destruct (heap w !! id) as [nm |] eqn:Hid; [| discriminate].
    destruct (AddOwnedCode E _ _ _ _ _ _ _ _ _ _ (focus w nm)) as [[code0 c'] |] eqn:Hadd;
      [| discriminate].
    intros [= <-]. right; right. exists id, nm, c'.
    split; [exact Hid |]. split; [| reflexivity]. econstructor 1. exact Hadd.
  - destruct (heap w !! id) as [nm |] eqn:Hid; [| discriminate].
    intros [= <-]. right; right. exists id, nm, (with_this (set_code index wcode) (focus w nm)).
    split; [exact Hid |]. split; [| reflexivity]. constructor 2.
  - destruct (heap w !! id) as [nm |] eqn:Hid; [| discriminate].
    intros [= <-]. right; right. exists id, nm, (snd (SetExecutable E executable (focus w nm))).
    split; [exact Hid |]. split; [| reflexivity]. constructor 3.
  - destruct (heap w !! id) as [nm |] eqn:Hid; [| discriminate].
    intros [= <-]. right; right. exists id, nm, (with_this DisableTrapHandler (focus w nm)).
    split; [exact Hid |]. split; [| reflexivity]. constructor 4.
  - destruct (heap w !! id) as [nm |] eqn:Hid; [| discriminate].
    destruct (ModificationScope_enter E (focus w nm)) as [c' |] eqn:Hrun; [| discriminate].
    intros [= <-]. right; right. exists id, nm, c'.
    split; [exact Hid |]. split; [| reflexivity]. now constructor 5.
  - destruct (heap w !! id) as [nm |] eqn:Hid; [| discriminate].
    destruct (ModificationScope_leave E (focus w nm)) as [c' |] eqn:Hrun; [| discriminate].
    intros [= <-]. right; right. exists id, nm, c'.
    split; [exact Hid |]. split; [| reflexivity]. now constructor 6.
  - destruct (heap w !! id) as [nm |] eqn:Hid; [| discriminate].
    intros [= <-]. right; left. eauto.
Qed.

(** Induction over the runs of the process. *)
Lemma reachable_invariant E cap (I : World -> Prop) :
  I (initial cap) ->
  (forall op w w', I w -> exec E op w = Done w' -> I w') ->
  forall w, reachable E cap w -> I w.
Proof.
  intros Hinit Hstep w [ops Hrun].
  revert Hrun Hinit. generalize (initial cap).
  induction ops as [| op ops IH]; intros w0 Hrun Hinv; cbn [run] in Hrun.
  - injection Hrun as <-. exact Hinv.
  - destruct (exec E op w0) as [w1 |] eqn:Hexec; [| discriminate].
    apply (IH w1 Hrun). eapply Hstep; eassumption.
Qed.

(** ** What [AllocateForCode] leaves alone *)

(** Closes a goal saying that some part of the context is not what a
    primitive writes to. *)
Ltac unchanged := repeat intro; reflexivity.

Lemma AssignRanges_same {B} (proj : Ctx -> B) start end_ id :
  (forall c v, proj (with_manager (WasmCodeManager.set_lookup_map v) c) = proj c) ->
  follows (same proj) (AssignRanges start end_ id).
Proof.
  intros H c. unfold same, AssignRanges, modify_manager. cbn [snd].
  destruct (WasmCodeManager.lookup_map_ (manager c) !! start) eqn:Hl.
  - now destruct c.
  - apply H.
Qed.

(** A part of the context that the operating system, the counter and the
    module's committed size are no part of survives every commit. *)
Lemma commit_for_same {B} E (proj : Ctx -> B) :
  follows (same proj) (next_cas_failures E) ->
  (forall start size p, follows (same proj) (SetPermissions E start size p)) ->
  (forall c v, proj (with_manager (WasmCodeManager.set_remaining v) c) = proj c) ->
  (forall c v, proj (with_this (NativeModule.set_committed_code_space v) c) = proj c) ->
  forall mem, follows (same proj) (commit_for E mem).
Proof.
  intros Hcas Hperm Hrem Hcommitted.
  apply (follows_commit_for E (same proj) (same_refl proj) (same_trans proj)).
  - apply (follows_Commit E (same proj) (same_refl proj) (same_trans proj)).
    + exact Hcas.
    + intros c v. apply Hrem.
    + intros start size. apply Hperm.
  - intros size c. apply Hcommitted.
Qed.

Lemma AllocateForCode_outside E size :
  follows (same outside_allocation) (AllocateForCode E size).
Proof.
  apply (follows_AllocateForCode E _ (same_refl _) (same_trans _)).
  - unchanged.
  - apply (follows_grow_code_space E _ (same_refl _) (same_trans _)).
    + unchanged.
    + unchanged.
    + intros start end_ id. now apply AssignRanges_same.
    + unchanged.
  - apply commit_for_same; unchanged.
  - unchanged.
Qed.

Lemma SetExecutable_same {B} E (proj : Ctx -> B) :
  (forall start size p, follows (same proj) (SetPermissions E start size p)) ->
  (forall c v, proj (with_this (NativeModule.set_is_executable v) c) = proj c) ->
  forall x, follows (same proj) (SetExecutable E x).
Proof.
  intros Hperm Hexec.
  apply (follows_SetExecutable E _ (same_refl _) (same_trans _)).
  - intros start size. apply Hperm.
  - intros start size. apply Hperm.
  - intros c v. apply Hexec.
Qed.

Lemma no_growth_refl c : no_growth c c.
Proof. split; [reflexivity | auto]. Qed.

Lemma no_growth_trans c1 c2 c3 : no_growth c1 c2 -> no_growth c2 c3 -> no_growth c1 c3.
Proof.
  intros [H1 G1] [H2 G2]. split; [exact (same_trans _ _ _ _ H1 H2) |].
  intros Hno.
  assert (Hno2 : NativeModule.can_request_more_memory_ (this c2) = false).
  { unfold same, outside_allocation in H1. injection H1. intros. congruence. }
  destruct (G1 Hno) as (? & ? & ?). destruct (G2 Hno2) as (? & ? & ?).
  repeat split; congruence.
Qed.

Lemma no_growth_same_all c c' :
  same (fun c => (outside_allocation c, NativeModule.owned_code_space_ (this c),
                  WasmCodeManager.lookup_map_ (manager c), reservation_count (os c)))
       c c' ->
  no_growth c c'.
Proof.
  unfold same. intros H.
  pose proof (f_equal (fun p => fst (fst (fst p))) H) as H1.
  pose proof (f_equal (fun p => snd (fst (fst p))) H) as H2.
  pose proof (f_equal (fun p => snd (fst p)) H) as H3.
  pose proof (f_equal snd H) as H4.
  cbn in H1, H2, H3, H4. split; [exact H1 | auto].
Qed.

Lemma AllocateForCode_no_growth E size : follows no_growth (AllocateForCode E size).
Proof.
  apply (follows_AllocateForCode E _ no_growth_refl no_growth_trans).
  - intros c v. now apply no_growth_same_all.
  - intros sz c. split.
    + apply (follows_grow_code_space E _ (same_refl _) (same_trans _)).
      * unchanged.
      * unchanged.
      * intros start end_ id. now apply AssignRanges_same.
      * unchanged.
    + intros Hno. unfold grow_code_space, bind, get_this. rewrite Hno. cbn. auto.
  - intros mem c. apply no_growth_same_all. revert c.
    apply commit_for_same; unchanged.
  - intros c v. now apply no_growth_same_all.
Qed.

(** What [AllocateForCode] leaves alone: the code objects, both tables, the
    flags, the scope depth and the manager's count of modules; and, for a
    module that may not request more memory, also its reservations, the
    registry of ranges and the number of reservations asked of the system. *)
Theorem allocate_for_code_frame (E : Env) (size : Z) (c : Ctx) :
  let c' := snd (AllocateForCode E size c) in
  outside_allocation c' = outside_allocation c /\
  (NativeModule.can_request_more_memory_ (this c) = false ->
   NativeModule.owned_code_space_ (this c') = NativeModule.owned_code_space_ (this c) /\
   WasmCodeManager.lookup_map_ (manager c') = WasmCodeManager.lookup_map_ (manager c) /\
   reservation_count (os c') = reservation_count (os c)).
Proof. exact (AllocateForCode_no_growth E size c). Qed.

Lemma allocate_for_code_frame_witness :
  NativeModule.owned_code_space_
    (this (snd (AllocateForCode (obliging sample_platform) 100000 (sample_ctx 8192)))) =
  [VirtualMemory.mk 8192 16384].
Proof.
  destruct (allocate_for_code_frame (obliging sample_platform) 100000 (sample_ctx 8192))
    as [_ H].
  destruct (H eq_refl) as [Hspace _]. exact Hspace.
Defined.

(** ** The code table and the jump table *)

(** What [AddOwnedCode] has done when it returns: the buffer is what
    [AllocateForCode] gave, and the new object sits in [owned_code_] at the
    upper bound of its instruction start. *)
Lemma AddOwnedCode_Done E sz rs sp ix kd cpo ss spo hto tier c code c' :
  AddOwnedCode E sz rs sp ix kd cpo ss spo hto tier c = Done (code, c') ->
  fst (AllocateForCode E sz c) <> kNullAddress /\
  code = WasmCode.mk (fst (AllocateForCode E sz c)) sz rs sp ix kd cpo ss spo hto (-1) tier /\
  c' = with_this (NativeModule.set_owned_code
                    (vector_insert (inserted_at (this c) code) code
                       (NativeModule.owned_code_ (this c))))
         (snd (AllocateForCode E sz c)).
Proof.
  unfold AddOwnedCode.
  pose proof (code_preserving_AllocateForCode E sz c) as Hframe.
  destruct (AllocateForCode E sz c) as [buffer c1]. cbn [fst snd] in *.
  destruct (Z.eqb_spec buffer kNullAddress) as [| Hnz]; [discriminate |].
  cbn. intros [= <- <-]. rewrite Hframe.
  split; [exact Hnz |]. split; reflexivity.
Qed.

Lemma elem_of_vector_insert {A} (i : nat) (x y : A) (v : list A) :
  y ∈ vector_insert i x v <-> y = x \/ y ∈ v.
Proof.
  unfold vector_insert. rewrite elem_of_app, elem_of_cons.
  assert (H : y ∈ v <-> y ∈ take i v \/ y ∈ drop i v)
    by (rewrite <- elem_of_app, take_drop; reflexivity).
  tauto.
Qed.

Lemma lookup_vector_insert {A} (i : nat) (x : A) (v : list A) :
  (i <= length v)%nat -> vector_insert i x v !! i = Some x.
Proof.
  intros Hi. unfold vector_insert.
  rewrite lookup_app_r by (rewrite length_take; lia).
  rewrite length_take, Nat.min_l by lia. now rewrite Nat.sub_diag.
Qed.

Lemma upper_bound_loop_le {A} (comp : A -> bool) (v : list A) :
  forall fuel first len,
    (first + len <= length v)%nat ->
    (upper_bound_loop comp v fuel first len <= length v)%nat.
Proof.
  induction fuel as [| fuel IH]; intros first len Hlen; cbn [upper_bound_loop]; [lia |].
  destruct len as [| len']; [lia |].
  remember (S len') as len eqn:Hl.
  assert (Hhalf : (Nat.div2 len < len)%nat) by (apply div2_lt; lia).
  generalize dependent (Nat.div2 len). intros half Hhalf.
  destruct (v !! (first + half)%nat) as [x |]; [| lia].
  destruct (comp x); apply IH; lia.
Qed.

Lemma inserted_at_le nm code : (inserted_at nm code <= length (NativeModule.owned_code_ nm))%nat.
Proof. unfold inserted_at, upper_bound. apply upper_bound_loop_le. lia. Qed.

(** What the constructor has built when it returns. *)
Lemma NativeModule_new_Done E id nf ni more code_space trap o mgr c' :
  NativeModule_new E id nf ni more code_space trap o mgr = Done c' ->
  (u32 (nf - ni) = 0 /\
   c' = {| os := o; manager := mgr;
           this := initialised id nf ni more code_space trap |}) \/
  (0 < u32 (nf - ni) /\
   exists jt c2,
     AddOwnedCode E (slot_offset E (u32 (nf - ni))) 0 0 None kJumpTable 0 0 0 0 kOther
       {| os := o; manager := mgr;
          this := NativeModule.set_code_table (repeat None (Z.to_nat (u32 (nf - ni))))
                    (initialised id nf ni more code_space trap) |}
     = Done (jt, c2) /\
     c' = with_this (NativeModule.set_jump_table (Some jt)) c2).
Proof.
  unfold NativeModule_new, modify_this, CreateEmptyJumpTable. cbn [snd].
  fold (initialised id nf ni more code_space trap).
  assert (Hn : 0 <= u32 (nf - ni)) by (apply Z.mod_pos_bound; lia).
  destruct (Z.gtb_spec (u32 (nf - ni)) 0) as [Hpos | Hz].
  - intros H. right. split; [lia |].
    destruct (AddOwnedCode E _ 0 0 None kJumpTable 0 0 0 0 kOther _) as [[jt c2] |] eqn:Hadd;
      [| discriminate].
    injection H as <-. exists jt, c2. split; reflexivity.
  - intros H. left. injection H as <-. split; [lia | reflexivity].
Qed.

Lemma NativeModule_new_shape E id nf ni more code_space trap o mgr c' :
  NativeModule_new E id nf ni more code_space trap o mgr = Done c' ->
  table_shape E (this c') /\
  NativeModule.code_table_ (this c')
    = repeat None (Z.to_nat (NativeModule.num_wasm_functions (this c'))) /\
  NativeModule.owned_code_ (this c')
    = match NativeModule.jump_table_ (this c') with Some jt => [jt] | None => [] end /\
  NativeModule.instance_id (this c') = id /\
  NativeModule.num_functions_ (this c') = nf /\
  NativeModule.num_imported_functions_ (this c') = ni /\
  NativeModule.modification_scope_depth_ (this c') = 0 /\
  NativeModule.can_request_more_memory_ (this c') = more /\
  NativeModule.use_trap_handler_ (this c') = trap /\
  NativeModule.is_executable_ (this c') = false /\
  WasmCodeManager.active_ (manager c') = WasmCodeManager.active_ mgr.
Proof.
  intros Hnew. apply NativeModule_new_Done in Hnew.
  destruct Hnew as [[Hn ->] | (Hn & jt & c2 & Hadd & ->)].
  - unfold table_shape, NativeModule.num_wasm_functions. cbn. rewrite Hn. cbn.
    repeat split.
  - destruct (AddOwnedCode_Done _ _ _ _ _ _ _ _ _ _ _ _ _ _ Hadd) as (_ & Hjt & ->).
    match type of Hadd with AddOwnedCode _ ?sz _ _ _ _ _ _ _ _ _ ?c0 = _ =>
      pose proof (AllocateForCode_outside E sz c0) as Hout;
      destruct (AllocateForCode E sz c0) as [buffer c1]
    end.
    cbn [fst snd] in *.
    unfold same, outside_allocation in Hout. cbn in Hout.
    injection Hout as Hid Howned Hnf Hni Htable Hjump Hdepth Hmore Htrap Hexec Hlazy Hactive.
    unfold table_shape, NativeModule.num_wasm_functions. cbn.
    rewrite Hid, Hnf, Hni, Htable, Hdepth, Hmore, Htrap, Hexec, Hactive.
    rewrite Hjt. cbn. unfold inserted_at, upper_bound. cbn.
    split; [| repeat split].
    split; [apply repeat_length |].
    split; [exact Hn |]. split; [apply list_elem_of_here |]. auto.
Qed.

Lemma outside_tables c c' : same outside_allocation c c' -> same tables c c'.
Proof.
  unfold same, outside_allocation, tables. intros H.
  injection H as _ Howned Hnf Hni Htable Hjump _ _ _ _ _ _.
  now rewrite Howned, Hnf, Hni, Htable, Hjump.
Qed.

Lemma table_shape_tables E c c' :
  same tables c c' -> table_shape E (this c) -> table_shape E (this c').
Proof.
  unfold same, tables. intros H.
  injection H as Howned Hnf Hni Htable Hjump.
  unfold table_shape, NativeModule.num_wasm_functions.
  now rewrite Howned, Hnf, Hni, Htable, Hjump.
Qed.

Lemma table_shape_step E c c' :
  method_step E c c' -> table_shape E (this c) -> table_shape E (this c').
Proof.
  apply (follows_method_step E (fun c c' => table_shape E (this c) -> table_shape E (this c'))).
  - intros c1 c2 c3 H1 H2 H. exact (H2 (H1 H)).
  - intros sz rs sp ix k cpo ss spo hto tier c0 code c0' Hadd Hshape.
    destruct (AddOwnedCode_Done _ _ _ _ _ _ _ _ _ _ _ _ _ _ Hadd) as (_ & _ & ->).
    pose proof (table_shape_tables E _ _
                  (outside_tables _ _ (AllocateForCode_outside E sz c0)) Hshape) as H1.
    pose proof (code_preserving_AllocateForCode E sz c0) as Hsame.
    destruct (AllocateForCode E sz c0) as [buffer c1]. cbn [fst snd] in *.
    unfold table_shape, NativeModule.num_wasm_functions in *. cbn.
    destruct H1 as [Hlen Hjt]. split; [exact Hlen |].
    destruct (NativeModule.jump_table_ (this c1)) as [jt |]; [| exact Hjt].
    destruct Hjt as (? & Hin & ?). split; [assumption |]. split; [| assumption].
    apply elem_of_vector_insert. right. now rewrite <- Hsame.
  - intros c0 index code. unfold table_shape, NativeModule.num_wasm_functions. cbn.
    intros [Hlen Hjt]. split; [| exact Hjt]. now rewrite length_insert.
  - intros x c0. apply table_shape_tables. revert c0.
    apply SetExecutable_same; unchanged.
  - intros c0. unfold table_shape, NativeModule.num_wasm_functions. cbn.
    intros [Hlen Hjt]. split; [| exact Hjt]. now rewrite clear_entries_length.
  - intros c0 v. apply table_shape_tables. reflexivity.
Qed.

Lemma TryAllocate_eq E size hint c :
  TryAllocate E size hint c = (reserve E (os c) size hint, with_os (after_reserve (os c)) c).
Proof. reflexivity. Qed.

(** What [NewNativeModule] has done when it returns. *)
Lemma NewNativeModule_inv E est nf ni more trap w id w' :
  NewNativeModule E est nf ni more trap w = Done (id, w') ->
  exists mem c2,
    mem = reserve E (w_os w) (vmem_size E est) kNullAddress /\
    VirtualMemory.IsReserved mem = true /\ id = S (next_id_ w) /\
    NativeModule_new E id nf ni more mem trap (after_reserve (w_os w)) (w_manager w)
      = Done c2 /\
    w' = {| w_os := os c2;
            w_manager :=
              WasmCodeManager.set_active
                (wrap (WasmCodeManager.active_ (manager c2) + 1))
                (manager (snd (AssignRanges (VirtualMemory.address mem)
                                 (VirtualMemory.end_ mem) id c2)));
            heap := <[id := this c2]> (heap w);
            next_id_ := id |}.
Proof.
  unfold NewNativeModule. fold (vmem_size E est). rewrite TryAllocate_eq.
  cbn [os manager with_os].
  set (mem := reserve E (w_os w) (vmem_size E est) kNullAddress).
  destruct (VirtualMemory.IsReserved mem) eqn:Hres; [| discriminate].
  destruct (NativeModule_new E _ nf ni more mem trap _ (w_manager w)) as [c2 |] eqn:Hnew;
    [| discriminate].
  intros H. injection H as <- <-. exists mem, c2.
  split; [reflexivity |]. split; [exact Hres |]. split; [reflexivity |].
  split; [exact Hnew |].
  unfold AssignRanges, modify_manager. cbn.
  destruct (WasmCodeManager.lookup_map_ (manager c2) !! VirtualMemory.address mem);
    reflexivity.
Qed.

(** A property of modules that the constructor establishes and every
    operation keeps holds of every live module. *)
Lemma heap_invariant E (J : NativeModule.t -> Prop) :
  (forall est nf ni more trap w c',
     NativeModule_new E (S (next_id_ w)) nf ni more
       (reserve E (w_os w) (vmem_size E est) kNullAddress) trap
       (after_reserve (w_os w)) (w_manager w) = Done c' ->
     J (this c')) ->
  (forall c c', method_step E c c' -> J (this c) -> J (this c')) ->
  forall cap w, reachable E cap w -> map_Forall (fun _ => J) (heap w).
Proof.
  intros Hnew Hstep cap. apply reachable_invariant.
  - unfold initial. cbn. apply map_Forall_empty.
  - intros op w w' Hinv Hexec.
    destruct (exec_cases E op w w' Hexec)
      as [(est & nf & ni & more & trap & id & Hrun)
         | [(id & nm & Hid & ->) | (id & nm & c' & Hid & Hm & ->)]].
    + apply NewNativeModule_inv in Hrun.
      destruct Hrun as (mem & c2 & -> & _ & -> & Hc2 & ->). cbn [heap].
      apply map_Forall_insert_2; [| exact Hinv].
      eapply Hnew, Hc2.
    + unfold DeleteNativeModule.
      destruct (FreeNativeModule (focus w nm)) as [[] c']. cbn.
      now apply map_Forall_delete.
    + unfold unfocus. cbn. apply map_Forall_insert_2; [| exact Hinv].
      apply (Hstep _ _ Hm). exact (Hinv id nm Hid).
Qed.

Lemma table_shape_one_slot_each E nm : table_shape E nm -> one_slot_each E nm.
Proof.
  intros [_ Hjt] Hfit jt Hsome. rewrite Hsome in Hjt.
  destruct Hjt as (_ & _ & _ & _ & Hsize). rewrite Hsize.
  unfold slot_offset. apply Z.mod_small. exact Hfit.
Qed.

Lemma heap_table_shape E cap w :
  reachable E cap w -> map_Forall (fun _ => table_shape E) (heap w).
Proof.
  apply heap_invariant.
  - intros est nf ni more trap w0 c' Hnew.
    now destruct (NativeModule_new_shape _ _ _ _ _ _ _ _ _ _ Hnew) as [H _].
  - apply table_shape_step.
Qed.

(** In every state reached by creating and deleting modules, [AddOwnedCode],
    [set_code], [SetExecutable], [DisableTrapHandler] and modification
    scopes (the helpers of the tests are no operations of a run), every live
    module's code table has one entry per declared function, and its jump
    table is there exactly when a function is declared: an owned anonymous
    [kJumpTable] object whose size is the number of declared functions
    times [kJumpTableSlotSize] in the width of that multiplication, hence
    exactly one slot per declared function unless the product wraps. *)
Theorem code_table_always_shaped (E : Env) (cap : Z) (w : World) :
  reachable E cap w ->
  map_Forall (fun _ nm => table_shape E nm /\ one_slot_each E nm) (heap w).
Proof.
  intros Hreach. pose proof (heap_table_shape E cap w Hreach) as Hshape.
  intros id nm Hnm. specialize (Hshape id nm Hnm).
  split; [exact Hshape | now apply table_shape_one_slot_each].
Qed.

Lemma code_table_always_shaped_witness :
  match run (obliging sample_platform) adjacent_code (initial 16777216) with
  | Done w =>
      exists nm jt,
        heap w !! 1%nat = Some nm /\
        length (NativeModule.code_table_ nm) = 4%nat /\
        NativeModule.jump_table_ nm = Some jt /\
        WasmCode.instructions_size jt = 4 * 16
  | Fatal => False
  end.
Proof.
  destruct (run _ _ _) as [w |] eqn:Hrun.
  - pose proof (code_table_always_shaped (obliging sample_platform) 16777216 w
                  (ex_intro _ adjacent_code Hrun)) as Hall.
    vm_compute in Hrun. injection Hrun as <-.
    eexists. eexists. split; [reflexivity |].
    destruct (Hall 1%nat _ eq_refl) as [[Hlen _] Hslots].
    split; [exact Hlen |]. split; [reflexivity |].
    apply Hslots; [split; [vm_compute; discriminate | vm_compute; reflexivity] | reflexivity].
  - vm_compute in Hrun. discriminate.
Defined.

(** ** An empty code table *)

Lemma code_table_all_null nm index :
  NativeModule.code_table_ nm
    = repeat None (Z.to_nat (NativeModule.num_wasm_functions nm)) ->
  code nm index = None /\ has_code nm index = false.
Proof.
  intros H. unfold code, has_code. rewrite H.
  destruct (repeat None _ !! _) as [entry |] eqn:Hl; [| auto].
  apply list_elem_of_lookup_2, list_elem_of_In, repeat_spec in Hl. subst entry. auto.
Qed.

(** ** No registered range outlives its module *)

Lemma grow_code_space_eq E size c :
  grow_code_space E size c =
  if negb (NativeModule.can_request_more_memory_ (this c)) then (None, c)
  else
    let hint := match last (NativeModule.owned_code_space_ (this c)) with
                | None => kNullAddress
                | Some v => VirtualMemory.end_ v
                end in
    let new_mem := reserve E (os c) size hint in
    let c1 := with_this (push_back_space new_mem) (with_os (after_reserve (os c)) c) in
    if negb (VirtualMemory.IsReserved new_mem) then (None, c1)
    else grow_tail size new_mem
           (snd (AssignRanges (VirtualMemory.address new_mem) (VirtualMemory.end_ new_mem)
                   (NativeModule.instance_id (this c)) c1)).
Proof.
  unfold grow_code_space, grow_tail, bind, get_this. cbv zeta.
  destruct (negb (NativeModule.can_request_more_memory_ (this c))); [reflexivity |].
  rewrite TryAllocate_eq. cbn [modify_this].
  destruct (negb (VirtualMemory.IsReserved _)); [reflexivity |].
  unfold with_this, with_os, push_back_space. cbn [os manager this].
  destruct (AssignRanges _ _ _ _) as [[] c2]. reflexivity.
Qed.

Lemma registers_own_refl c : registers_own c c.
Proof. split; [reflexivity |]. split; auto. Qed.

Lemma registers_own_trans c1 c2 c3 :
  registers_own c1 c2 -> registers_own c2 c3 -> registers_own c1 c3.
Proof.
  intros (Hid1 & Hown1 & Hmap1) (Hid2 & Hown2 & Hmap2).
  split; [congruence |]. split; [auto |].
  intros base end_ id H3.
  destruct (Hmap2 base end_ id H3) as [H2 | [-> Hown]].
  - destruct (Hmap1 base end_ id H2) as [H1 | [-> Hown]]; [now left |].
    right. split; [reflexivity | auto].
  - right. split; [exact Hid1 | exact Hown].
Qed.

Lemma registers_own_same c c' : same registration c c' -> registers_own c c'.
Proof.
  unfold same, registration. intros H.
  pose proof (f_equal (fun p => fst (fst p)) H) as H1.
  pose proof (f_equal (fun p => snd (fst p)) H) as H2.
  pose proof (f_equal snd H) as H3. cbn in H1, H2, H3.
  split; [exact H1 |]. split.
  - unfold owns_range. now rewrite H2.
  - intros base end_ id Hl. left. now rewrite <- H3.
Qed.

Lemma grow_code_space_registers E size : follows registers_own (grow_code_space E size).
Proof.
  intros c. rewrite grow_code_space_eq. cbv zeta.
  destruct (negb (NativeModule.can_request_more_memory_ (this c)));
    [apply registers_own_refl |].
  set (new_mem := reserve E (os c) size _).
  set (c1 := with_this (push_back_space new_mem) (with_os (after_reserve (os c)) c)).
  assert (H1 : registers_own c c1).
  { split; [reflexivity |]. split.
    - intros base end_ (v & Hv & Ha & He). exists v. split; [| auto].
      cbn. apply elem_of_app. now left.
    - intros base end_ id Hl. now left. }
  destruct (negb (VirtualMemory.IsReserved new_mem)); [exact H1 |].
  set (c2 := snd (AssignRanges _ _ _ c1)).
  assert (H2 : registers_own c c2).
  { subst c2. unfold AssignRanges, modify_manager. cbn [snd].
    destruct (WasmCodeManager.lookup_map_ (manager c1) !! VirtualMemory.address new_mem)
      eqn:Hl.
    - destruct H1 as (Hid & Hown & Hmap). split; [exact Hid |]. split; [exact Hown |].
      exact Hmap.
    - split; [reflexivity |]. split; [apply H1 |].
      intros base end_ id. cbn. rewrite lookup_insert_Some.
      intros [[<- [= <- <-]] | [_ Hold]]; [right | now left].
      split; [reflexivity |]. exists new_mem. split; [| auto].
      cbn. apply elem_of_app. right. apply list_elem_of_here. }
  apply (registers_own_trans _ _ _ H2). revert c2 H2. generalize c1. intros c1' c2 _.
  apply registers_own_same. revert c2. unfold grow_tail.
  apply (follows_bind _ (same_trans _)); [unchanged |]. intros _.
  apply (follows_bind _ (same_trans _)).
  - apply follows_free_Allocate. unchanged.
  - intros mem. destruct (AddressRange.is_empty mem); unchanged.
Qed.

Lemma AllocateForCode_registers E size : follows registers_own (AllocateForCode E size).
Proof.
  apply (follows_AllocateForCode E _ registers_own_refl registers_own_trans).
  - intros c v. now apply registers_own_same.
  - apply grow_code_space_registers.
  - intros mem c. apply registers_own_same. revert c.
    apply commit_for_same; unchanged.
  - intros c v. now apply registers_own_same.
Qed.

Lemma method_step_registers E c c' : method_step E c c' -> registers_own c c'.
Proof.
  apply (follows_method_step E _ registers_own_trans).
  - apply (follows_AddOwnedCode E _ registers_own_trans).
    + apply AllocateForCode_registers.
    + intros c0 v. now apply registers_own_same.
  - intros c0 index code. now apply registers_own_same.
  - intros x c0. apply registers_own_same. revert c0.
    apply SetExecutable_same; unchanged.
  - intros c0. now apply registers_own_same.
  - intros c0 v. now apply registers_own_same.
Qed.

Lemma registry_sound_initial cap : registry_sound (initial cap).
Proof.
  split.
  - intros id nm H. cbn in H. rewrite lookup_empty in H. discriminate.
  - intros base end_ id H. cbn in H. rewrite lookup_empty in H. discriminate.
Qed.

Lemma registry_sound_unfocus w id nm c' :
  registry_sound w -> heap w !! id = Some nm -> registers_own (focus w nm) c' ->
  registry_sound (unfocus w id c').
Proof.
  intros [Hids Hreg] Hid (Hsame & Hown & Hmap). cbn in Hsame, Hown, Hmap.
  destruct (Hids id nm Hid) as [Hnm Hle].
  split.
  - intros j nmj. cbn. rewrite lookup_insert_Some.
    intros [[<- <-] | [_ Hj]]; [| now apply Hids].
    split; [congruence | exact Hle].
  - intros base end_ j Hl. cbn in Hl. cbn [heap unfocus].
    destruct (Hmap base end_ j Hl) as [Hold | [-> Hnew]].
    + destruct (Hreg base end_ j Hold) as (nmj & Hj & Hownj).
      destruct (decide (j = id)) as [-> | Hne].
      * exists (this c'). rewrite lookup_insert_eq. split; [reflexivity |].
        apply Hown. congruence.
      * exists nmj. rewrite lookup_insert_ne by congruence. auto.
    + exists (this c'). rewrite Hnm, lookup_insert_eq. auto.
Qed.

Lemma lookup_foldl_delete (spaces : list VirtualMemory.t) :
  forall (m : gmap Z (Address * nat)) k x,
    foldl (fun map vmem => delete (VirtualMemory.address vmem) map) m spaces !! k = Some x ->
    m !! k = Some x /\ forall v, v ∈ spaces -> VirtualMemory.address v <> k.
Proof.
  induction spaces as [| v0 spaces IH]; intros m k x; cbn [foldl].
  - intros H. split; [exact H |]. intros v Hv. inversion Hv.
  - intros H. apply IH in H as [H Hrest].
    apply lookup_delete_Some in H as [Hne H]. split; [exact H |].
    intros v Hv. apply elem_of_cons in Hv as [-> | Hv]; [exact Hne | now apply Hrest].
Qed.

Lemma registry_sound_delete w id nm :
  registry_sound w -> heap w !! id = Some nm ->
  registry_sound (DeleteNativeModule id nm w).
Proof.
  intros [Hids Hreg] Hid. unfold DeleteNativeModule, FreeNativeModule. run_monad.
  split.
  - intros j nmj. cbn. rewrite lookup_delete_Some. intros [_ Hj]. now apply Hids.
  - intros base end_ j Hl. cbn in Hl. cbn [heap].
    apply lookup_foldl_delete in Hl as [Hl Hgone].
    destruct (Hreg base end_ j Hl) as (nmj & Hj & v & Hv & Ha & He).
    exists nmj. split; [| exists v; auto].
    rewrite lookup_delete_ne; [exact Hj |].
    intros <-. assert (nmj = nm) by congruence. subst nmj.
    exact (Hgone v Hv Ha).
Qed.

Lemma registry_sound_new E est nf ni more trap w id w' :
  registry_sound w -> NewNativeModule E est nf ni more trap w = Done (id, w') ->
  registry_sound w'.
Proof.
  intros [Hids Hreg] Hrun. apply NewNativeModule_inv in Hrun.
  destruct Hrun as (mem & c2 & _ & _ & -> & Hnew & ->).
  assert (Hfresh : heap w !! S (next_id_ w) = None).
  { destruct (heap w !! S (next_id_ w)) as [nm |] eqn:Hl; [| reflexivity].
    destruct (Hids _ _ Hl). lia. }
  assert (Hown : NativeModule.instance_id (this c2) = S (next_id_ w) /\
                 owns_range (this c2) (VirtualMemory.address mem) (VirtualMemory.end_ mem) /\
                 forall (base end_ : Address) (j : nat),
                   WasmCodeManager.lookup_map_ (manager c2) !! base = Some (end_, j) ->
                   WasmCodeManager.lookup_map_ (w_manager w) !! base = Some (end_, j) \/
                   (j = S (next_id_ w) /\ owns_range (this c2) base end_)).
  { apply NativeModule_new_Done in Hnew.
    destruct Hnew as [[_ ->] | (_ & jt & c1 & Hadd & ->)].
    - cbn. split; [reflexivity |]. split; [| auto].
      exists mem. split; [apply list_elem_of_here | auto].
    - assert (Hstep : registers_own _ c1)
        by (apply (method_step_registers E); econstructor 1; exact Hadd).
      destruct Hstep as (Hsame & Hkeep & Hmap). cbn in Hsame, Hkeep, Hmap.
      cbn. split; [exact Hsame |]. split; [| exact Hmap].
      apply Hkeep. exists mem. split; [apply list_elem_of_here | auto]. }
  destruct Hown as (Hid2 & Hmem & Hmap).
  split.
  - intros j nmj. cbn. rewrite lookup_insert_Some.
    intros [[<- <-] | [_ Hj]]; [auto |].
    destruct (Hids j nmj Hj). split; [assumption | lia].
  - intros base end_ j. cbn [w_manager heap WasmCodeManager.set_active
                             WasmCodeManager.lookup_map_].
    unfold AssignRanges, modify_manager. cbn [snd manager].
    intros Hl.
    assert (Hcases : WasmCodeManager.lookup_map_ (manager c2) !! base = Some (end_, j) \/
                     (j = S (next_id_ w) /\ owns_range (this c2) base end_)).
    { destruct (WasmCodeManager.lookup_map_ (manager c2) !! VirtualMemory.address mem);
        [now left |].
      cbn in Hl. apply lookup_insert_Some in Hl as [[<- [= <- <-]] | [_ Hl]];
        [right; auto | now left]. }
    destruct Hcases as [Hold | [-> Hnew']].
    + destruct (Hmap base end_ j Hold) as [Hw | [-> Hnew']].
      * destruct (Hreg base end_ j Hw) as (nmj & Hj & Hownj).
        exists nmj. split; [| exact Hownj].
        rewrite lookup_insert_ne; [exact Hj |]. intros <-. congruence.
      * exists (this c2). rewrite lookup_insert_eq. auto.
    + exists (this c2). rewrite lookup_insert_eq. auto.
Qed.

Lemma registry_sound_exec E op w w' :
  registry_sound w -> exec E op w = Done w' -> registry_sound w'.
Proof.
  intros Hinv Hexec.
  destruct (exec_cases E op w w' Hexec)
    as [(est & nf & ni & more & trap & id & Hrun)
       | [(id & nm & Hid & ->) | (id & nm & c' & Hid & Hm & ->)]].
  - eapply registry_sound_new; eassumption.
  - now apply registry_sound_delete.
  - eapply registry_sound_unfocus; [exact Hinv | exact Hid |].
    now apply (method_step_registers E).
Qed.

(** In every reachable state the registry of ranges only names live
    modules: a module found by [LookupNativeModule] is on the heap, and [pc]
    lies in one of the reservations it owns; hence [LookupCode] never
    dereferences a freed module. *)
Theorem lookup_never_dangles (E : Env) (cap : Z) (w : World) (pc : Address) :
  reachable E cap w ->
  (forall id,
     LookupNativeModule (w_manager w) pc = Some id ->
     exists nm v,
       heap w !! id = Some nm /\ NativeModule.instance_id nm = id /\
       v ∈ NativeModule.owned_code_space_ nm /\
       VirtualMemory.address v <= pc < VirtualMemory.end_ v) /\
  LookupCode w pc <> Fatal.
Proof.
  intros Hreach.
  assert (Hinv : registry_sound w).
  { revert w Hreach. apply reachable_invariant.
    - apply registry_sound_initial.
    - intros op w w'. apply registry_sound_exec. }
  destruct Hinv as [Hids Hreg].
  assert (Hlive : forall id,
             LookupNativeModule (w_manager w) pc = Some id ->
             exists nm v,
               heap w !! id = Some nm /\ NativeModule.instance_id nm = id /\
               v ∈ NativeModule.owned_code_space_ nm /\
               VirtualMemory.address v <= pc < VirtualMemory.end_ v).
  { intros id Hl. apply LookupNativeModule_Some in Hl as (base & end_ & Hm & Hpc & _).
    destruct (Hreg base end_ id Hm) as (nm & Hnm & v & Hv & <- & <-).
    exists nm, v. split; [exact Hnm |]. split; [apply (Hids id nm Hnm) | auto]. }
  split; [exact Hlive |].
  unfold LookupCode.
  destruct (LookupNativeModule (w_manager w) pc) as [id |] eqn:Hl; [| discriminate].
  destruct (Hlive id eq_refl) as (nm & v & Hnm & _). rewrite Hnm. discriminate.
Qed.

Lemma lookup_never_dangles_witness :
  match run (obliging sample_platform_wide)
          (growing ++ [OpDeleteNativeModule 1]) (initial 16777216) with
  | Done w => LookupCode w (2 ^ 33 + 100) <> Fatal
  | Fatal => False
  end.
Proof.
  destruct (run _ _ _) as [w |] eqn:Hrun.
  - apply (lookup_never_dangles (obliging sample_platform_wide) 16777216 w).
    eexists. exact Hrun.
  - vm_compute in Hrun. discriminate.
Defined.

(** ** A new module *)

Lemma registry_sound_reachable E cap w : reachable E cap w -> registry_sound w.
Proof.
  revert w. apply reachable_invariant.
  - apply registry_sound_initial.
  - intros op w w'. apply registry_sound_exec.
Qed.

(** A module as [NewNativeModule] returns it: its id is the one after the
    last id handed out, which in a reachable state names no live module; one
    more active module, the counts and flags of the call, not executable,
    depth zero, no code for any function index, the tables in shape (the
    jump table of the size [CreateEmptyJumpTable] computes, one slot per
    declared function unless that product wraps), and nothing owned but the
    jump table. *)
Theorem new_module_is_empty (E : Env) (est nf ni : Z) (more trap : bool)
    (w w' : World) (id : nat) :
  NewNativeModule E est nf ni more trap w = Done (id, w') ->
  id = S (next_id_ w) /\ next_id_ w' = id /\
  (forall cap, reachable E cap w -> heap w !! id = None) /\
  WasmCodeManager.active_ (w_manager w') = wrap (WasmCodeManager.active_ (w_manager w) + 1) /\
  exists nm,
    heap w' = <[id := nm]> (heap w) /\
    NativeModule.instance_id nm = id /\
    NativeModule.num_functions_ nm = nf /\
    NativeModule.num_imported_functions_ nm = ni /\
    NativeModule.can_request_more_memory_ nm = more /\
    NativeModule.use_trap_handler_ nm = trap /\
    NativeModule.is_executable_ nm = false /\
    NativeModule.modification_scope_depth_ nm = 0 /\
    (forall index, code nm index = None /\ has_code nm index = false) /\
    table_shape E nm /\ one_slot_each E nm /\
    NativeModule.owned_code_ nm
      = match NativeModule.jump_table_ nm with Some jt => [jt] | None => [] end.
Proof.
  intros Hrun. apply NewNativeModule_inv in Hrun.
  destruct Hrun as (mem & c2 & _ & _ & -> & Hnew & ->).
  destruct (NativeModule_new_shape _ _ _ _ _ _ _ _ _ _ Hnew)
    as (Hshape & Htable & Howned & Hid & Hnf & Hni & Hdepth & Hmore & Htrap & Hexec
        & Hactive).
  cbn [next_id_ w_manager heap WasmCodeManager.set_active WasmCodeManager.active_].
  rewrite Hactive.
  split; [reflexivity |]. split; [reflexivity |].
  split.
  { intros cap Hreach. destruct (registry_sound_reachable E cap w Hreach) as [Hids _].
    destruct (heap w !! S (next_id_ w)) as [nm |] eqn:Hl; [| reflexivity].
    destruct (Hids _ _ Hl). lia. }
  split; [reflexivity |].
  exists (this c2). repeat (split; [assumption || reflexivity |]).
  split; [intros index; now apply code_table_all_null |].
  split; [exact Hshape |].
  split; [now apply table_shape_one_slot_each | exact Howned].
Qed.

Lemma new_module_is_empty_witness :
  match NewNativeModule (obliging sample_platform) 65536 5 1 false true (initial 16777216) with
  | Done (id, w') =>
      id = 1%nat /\ heap (initial 16777216) !! id = None /\
      exists nm jt,
        heap w' !! id = Some nm /\ has_code nm 1 = false /\
        NativeModule.owned_code_ nm = [jt] /\ WasmCode.instructions_size jt = 4 * 16
  | Fatal => False
  end.
Proof.
  destruct (NewNativeModule _ _ _ _ _ _ _) as [[id w'] |] eqn:Hrun.
  - destruct (new_module_is_empty _ _ _ _ _ _ _ _ _ Hrun)
      as (-> & _ & Hfresh & _ & nm & Hheap & _ & Hnf & Hni & _ & _ & _ & _ & Hnone & Hshape
          & Hslots & Howned).
    split; [reflexivity |].
    split; [apply (Hfresh 16777216); exists []; reflexivity |].
    assert (Hn : NativeModule.num_wasm_functions nm = 4)
      by (unfold NativeModule.num_wasm_functions; rewrite Hnf, Hni; reflexivity).
    destruct Hshape as [_ Hjt].
    destruct (NativeModule.jump_table_ nm) as [jt |] eqn:Hsome; [| rewrite Hn in Hjt; lia].
    exists nm, jt. split; [rewrite Hheap; apply lookup_insert_eq |].
    split; [apply Hnone |]. split; [exact Howned |].
    assert (Hfit : slots_fit (obliging sample_platform) nm).
    { unfold slots_fit. rewrite Hn.
      split; [vm_compute; discriminate | vm_compute; reflexivity]. }
    rewrite (Hslots Hfit jt Hsome), Hn. reflexivity.
  - vm_compute in Hrun. discriminate.
Defined.

(** ** The permissions asked for *)

Lemma log_grows_refl P c : log_grows P c c.
Proof. exists []. split; [now rewrite app_nil_r | constructor]. Qed.

Lemma log_grows_trans P c1 c2 c3 :
  log_grows P c1 c2 -> log_grows P c2 c3 -> log_grows P c1 c3.
Proof.
  intros (l1 & H1 & F1) (l2 & H2 & F2). exists (l1 ++ l2).
  split; [rewrite H2, H1; now rewrite app_assoc | now apply Forall_app].
Qed.

Lemma log_grows_same P c c' : same (fun c => log_of c) c c' -> log_grows P c c'.
Proof.
  unfold same. intros H. exists []. split; [now rewrite app_nil_r | constructor].
Qed.

Lemma SetPermissions_log E (P : Syscall -> Prop) start size p :
  P {| sc_start := start; sc_size := size; sc_perm := p |} ->
  follows (log_grows P) (SetPermissions E start size p).
Proof.
  intros HP c. eexists. split; [reflexivity |]. now constructor.
Qed.

Lemma commit_permission_ok E start size :
  write_xor_execute E {| sc_start := start; sc_size := size;
                         sc_perm := commit_permission E |}.
Proof.
  unfold write_xor_execute, commit_permission. cbn.
  destruct (FLAG_wasm_write_protect_code_memory (platform E)); split; congruence.
Qed.

Lemma AllocateForCode_log E size :
  follows (log_grows (write_xor_execute E)) (AllocateForCode E size).
Proof.
  set (P := write_xor_execute E).
  apply (follows_AllocateForCode E _ (log_grows_refl P) (log_grows_trans P)).
  - intros c v. now apply log_grows_same.
  - apply (follows_grow_code_space E _ (log_grows_refl P) (log_grows_trans P)).
    + intros sz hint c. now apply log_grows_same.
    + intros c v. now apply log_grows_same.
    + intros start end_ id c. apply log_grows_same. revert c.
      apply AssignRanges_same. unchanged.
    + intros c v. now apply log_grows_same.
  - apply (follows_commit_for E _ (log_grows_refl P) (log_grows_trans P)).
    + apply (follows_Commit E _ (log_grows_refl P) (log_grows_trans P)).
      * intros c. now apply log_grows_same.
      * intros c v. now apply log_grows_same.
      * intros start sz. apply SetPermissions_log, commit_permission_ok.
    + intros sz c. now apply log_grows_same.
  - intros c v. now apply log_grows_same.
Qed.

Lemma SetExecutable_log E x :
  follows (log_grows (write_xor_execute E)) (SetExecutable E x).
Proof.
  set (P := write_xor_execute E).
  destruct (FLAG_wasm_write_protect_code_memory (platform E)) eqn:Hflag.
  - apply (follows_SetExecutable E _ (log_grows_refl P) (log_grows_trans P)).
    + intros start sz. apply SetPermissions_log.
      unfold P, write_xor_execute. cbn. rewrite Hflag. split; discriminate.
    + intros start sz. apply SetPermissions_log.
      unfold P, write_xor_execute. cbn. rewrite Hflag. split; discriminate.
    + intros c v. now apply log_grows_same.
  - intros c. rewrite SetExecutable_unfold.
    destruct (Bool.eqb _ x); [apply log_grows_refl |].
    unfold permission_changes.
    destruct (Bool.eqb _ x); [cbn; now apply log_grows_same |].
    rewrite Hflag. cbn. now apply log_grows_same.
Qed.

Lemma method_step_log E c c' :
  method_step E c c' -> log_grows (write_xor_execute E) c c'.
Proof.
  set (P := write_xor_execute E).
  apply (follows_method_step E _ (log_grows_trans P)).
  - apply (follows_AddOwnedCode E _ (log_grows_trans P)).
    + apply AllocateForCode_log.
    + intros c0 v. now apply log_grows_same.
  - intros c0 index code. now apply log_grows_same.
  - apply SetExecutable_log.
  - intros c0. now apply log_grows_same.
  - intros c0 v. now apply log_grows_same.
Qed.

Lemma log_grows_Forall P c c' :
  log_grows P c c' -> Forall P (log_of c) -> Forall P (log_of c').
Proof. intros (calls & -> & Hcalls) H. now apply Forall_app. Qed.

(** Every permission change issued in a run is the one the platform's
    write protection prescribes: with write protection on, no page is ever
    made writable and executable at once; without it, every change asks
    for all three permissions. *)
Theorem permissions_are_write_xor_execute (E : Env) (cap : Z) (w : World) :
  reachable E cap w ->
  Forall (write_xor_execute E) (permission_log (w_os w)).
Proof.
  revert w. apply reachable_invariant.
  - constructor.
  - intros op w w' Hinv Hexec.
    destruct (exec_cases E op w w' Hexec)
      as [(est & nf & ni & more & trap & id & Hrun)
         | [(id & nm & Hid & ->) | (id & nm & c' & Hid & Hm & ->)]].
    + apply NewNativeModule_inv in Hrun.
      destruct Hrun as (mem & c2 & _ & _ & _ & Hnew & ->). cbn [w_os].
      apply NativeModule_new_Done in Hnew.
      destruct Hnew as [[_ ->] | (_ & jt & c1 & Hadd & ->)]; [exact Hinv |].
      assert (Hstep : log_grows (write_xor_execute E) _ c1)
        by (apply method_step_log; econstructor 1; exact Hadd).
      apply (log_grows_Forall _ _ _ Hstep). exact Hinv.
    + unfold DeleteNativeModule, FreeNativeModule. run_monad. exact Hinv.
    + apply (log_grows_Forall _ _ _ (method_step_log E _ _ Hm)). exact Hinv.
Qed.

Lemma permissions_are_write_xor_execute_witness :
  match run (obliging sample_platform_wide)
          (growing ++ [OpSetExecutable 1 true]) (initial 16777216) with
  | Done w => Forall (write_xor_execute (obliging sample_platform_wide))
                (permission_log (w_os w))
  | Fatal => False
  end.
Proof.
  destruct (run _ _ _) as [w |] eqn:Hrun.
  - apply (permissions_are_write_xor_execute (obliging sample_platform_wide) 16777216 w).
    eexists. exact Hrun.
  - vm_compute in Hrun. discriminate.
Defined.

(** ** The count of live modules *)

Lemma method_step_active E c c' :
  method_step E c c' ->
  WasmCodeManager.active_ (manager c') = WasmCodeManager.active_ (manager c).
Proof.
  apply (follows_method_step E (same (fun c => WasmCodeManager.active_ (manager c)))
           (same_trans _)).
  - apply (follows_AddOwnedCode E _ (same_trans _)); [| unchanged].
    intros size c0. pose proof (AllocateForCode_outside E size c0) as H.
    unfold same, outside_allocation in *. injection H. auto.
  - unchanged.
  - apply SetExecutable_same; unchanged.
  - unchanged.
  - unchanged.
Qed.

Lemma wrap_succ z : wrap (wrap z + 1) = wrap (z + 1).
Proof. unfold wrap. now rewrite Zplus_mod_idemp_l. Qed.

Lemma wrap_pred z : wrap (wrap z - 1) = wrap (z - 1).
Proof. unfold wrap. now rewrite Zminus_mod_idemp_l. Qed.

Lemma new_module_fresh_id E est nf ni more trap w id w' :
  registry_sound w -> NewNativeModule E est nf ni more trap w = Done (id, w') ->
  WasmCodeManager.active_ (w_manager w') = wrap (WasmCodeManager.active_ (w_manager w) + 1) /\
  exists nm, heap w' = <[id := nm]> (heap w) /\ heap w !! id = None.
Proof.
  intros [Hids _] Hrun. apply NewNativeModule_inv in Hrun.
  destruct Hrun as (mem & c2 & _ & _ & -> & Hnew & ->).
  destruct (NativeModule_new_shape _ _ _ _ _ _ _ _ _ _ Hnew)
    as (_ & _ & _ & _ & _ & _ & _ & _ & _ & _ & Hactive).
  cbn. rewrite Hactive. split; [reflexivity |].
  exists (this c2). split; [reflexivity |].
  destruct (heap w !! S (next_id_ w)) as [nm |] eqn:Hl; [| reflexivity].
  destruct (Hids _ _ Hl). lia.
Qed.

(** In every reachable state [active_native_modules_] is the number of
    live modules, as a [size_t]. *)
Theorem active_counts_live_modules (E : Env) (cap : Z) (w : World) :
  reachable E cap w ->
  WasmCodeManager.active_ (w_manager w) = wrap (Z.of_nat (size (heap w))).
Proof.
  intros Hreach.
  assert (H : registry_sound w /\
              WasmCodeManager.active_ (w_manager w) = wrap (Z.of_nat (size (heap w)))).
  { revert w Hreach. apply reachable_invariant.
    - split; [apply registry_sound_initial | reflexivity].
    - intros op w w' [Hsound Hinv] Hexec.
      split; [eapply registry_sound_exec; eassumption |].
      destruct (exec_cases E op w w' Hexec)
        as [(est & nf & ni & more & trap & id & Hrun)
           | [(id & nm & Hid & ->) | (id & nm & c' & Hid & Hm & ->)]].
      + destruct (new_module_fresh_id E est nf ni more trap w id w' Hsound Hrun)
          as (Hactive & nm & Hheap & Hnone).
        rewrite Hactive, Hheap, Hinv, wrap_succ.
        rewrite map_size_insert_None by exact Hnone. f_equal. lia.
      + unfold DeleteNativeModule, FreeNativeModule. run_monad.
        rewrite Hinv, wrap_pred.
        rewrite map_size_delete, Hid. f_equal.
        pose proof (map_size_non_empty_iff (heap w)) as Hne.
        assert (heap w <> ∅) by (intros He; rewrite He, lookup_empty in Hid; discriminate).
        apply Hne in H. lia.
      + cbn [unfocus w_manager heap].
        rewrite (method_step_active E _ _ Hm). cbn.
        rewrite Hinv. f_equal. f_equal.
        symmetry. apply map_size_insert_Some. eauto. }
  apply H.
Qed.

Lemma active_counts_live_modules_witness :
  match run (obliging sample_platform)
          (adjacent_code ++ [OpNewNativeModule 4096 1 0 true false; OpDeleteNativeModule 1])
          (initial 16777216) with
  | Done w => WasmCodeManager.active_ (w_manager w) = wrap (Z.of_nat (size (heap w)))
  | Fatal => False
  end.
Proof.
  destruct (run _ _ _) as [w |] eqn:Hrun.
  - apply (active_counts_live_modules (obliging sample_platform) 16777216 w).
    eexists. exact Hrun.
  - vm_compute in Hrun. discriminate.
Defined.

(** ** Code of no size *)

Lemma RoundUp_zero m : 0 < m <= 2 ^ kWordBits -> RoundUp 0 m = 0.
Proof.
  intros Hm. unfold RoundUp. cbv zeta.
  replace (0 + m - 1) with (m - 1) by lia.
  rewrite wrap_small by (unfold is_word; lia).
  rewrite Z.mod_small by lia. lia.
Qed.

Lemma Allocate_zero p :
  starts_are_words p ->
  AddressRange.is_empty (fst (Pool.Allocate p 0)) = true /\
  starts_are_words (snd (Pool.Allocate p 0)).
Proof.
  intros Hw. destruct Hw as [| d p Hd Hp]; [split; [reflexivity | constructor] |].
  cbn [Pool.Allocate].
  assert (Hsz : 0 <= AddressRange.size d) by apply wrap_is_word.
  assert (Hgt : (0 >? AddressRange.size d) = false) by (apply gtb_false; lia).
  rewrite Hgt.
  assert (Hs : wrap (r_start d + 0) = r_start d)
    by (rewrite Z.add_0_r; now apply wrap_small).
  rewrite Hs.
  destruct (0 =? AddressRange.size d); cbn [fst snd].
  - split; [apply Z.eqb_refl | exact Hp].
  - split; [apply Z.eqb_refl |]. constructor; [exact Hd | exact Hp].
Qed.

(** Every range of a merged pool starts where a range of the pool, or the
    merged range, started. *)
Lemma Merge_starts (P : Address -> Prop) p r :
  Forall (fun d => P (r_start d)) p -> P (r_start r) ->
  Forall (fun d => P (r_start d)) (Pool.Merge p r).
Proof.
  intros Hp Hr.
  induction Hp as [| d rest Hd Hrest IH]; cbn [Pool.Merge]; [constructor; auto |].
  destruct (r_end d <? r_start r); [constructor; assumption |].
  destruct (r_start d =? r_end r); [constructor; [exact Hr | exact Hrest] |].
  destruct (r_start d >? r_end r);
    [constructor; [exact Hr | constructor; [exact Hd | exact Hrest]] |].
  destruct Hrest as [| n rest' Hn Hrest']; [constructor; [exact Hd | constructor] |].
  destruct (r_end r =? r_start n).
  - constructor; [exact Hd | exact Hrest'].
  - constructor; [exact Hd | constructor; [exact Hn | exact Hrest']].
Qed.

Lemma free_Allocate_zero c :
  starts_are_words (NativeModule.free_code_space_ (this c)) ->
  AddressRange.is_empty (fst (free_Allocate 0 c)) = true /\
  starts_are_words (NativeModule.free_code_space_ (this (snd (free_Allocate 0 c)))) /\
  os (snd (free_Allocate 0 c)) = os c /\
  NativeModule.can_request_more_memory_ (this (snd (free_Allocate 0 c)))
    = NativeModule.can_request_more_memory_ (this c).
Proof.
  intros Hw. unfold free_Allocate, bind, get_this, modify_this, ret.
  destruct (Allocate_zero _ Hw) as [He Hrest].
  destruct (Pool.Allocate (NativeModule.free_code_space_ (this c)) 0) as [mem rest].
  cbn in *. auto.
Qed.

Lemma grow_code_space_zero E c :
  reserves_word E (os c) ->
  starts_are_words (NativeModule.free_code_space_ (this c)) ->
  fst (grow_code_space E 0 c) = None.
Proof.
  intros Hos Hw. rewrite grow_code_space_eq. cbv zeta.
  destruct (negb (NativeModule.can_request_more_memory_ (this c))); [reflexivity |].
  set (new_mem := reserve E (os c) 0 _).
  destruct (negb (VirtualMemory.IsReserved new_mem)) eqn:Hres; [reflexivity |].
  assert (Hnew : is_word (VirtualMemory.address new_mem)).
  { subst new_mem. unfold reserve. cbv zeta.
    destruct (reservation E _ _ _) as [a |] eqn:Ha; [cbn; eapply Hos, Ha |].
    cbn. unfold is_word, kNullAddress, kWordBits. lia. }
  set (c2 := snd (AssignRanges _ _ _ _)).
  unfold grow_tail, bind, modify_this. cbn [snd].
  match goal with |- context [free_Allocate 0 ?c0] =>
    destruct (free_Allocate_zero c0) as (He & _)
  end.
  { cbn. apply (Merge_starts is_word); [exact Hw | exact Hnew]. }
  destruct (free_Allocate 0 _) as [mem c3]. cbn [fst] in He. now rewrite He.
Qed.

(** A request for zero bytes is never served: [AllocateForCode(0)] returns
    null, whatever the free pool holds and whether or not the module can
    grow, so [AddOwnedCode] with an empty instruction vector is fatal. *)
Theorem no_room_for_empty_code (E : Env) (c : Ctx) :
  0 < kCodeAlignment (platform E) <= 2 ^ kWordBits ->
  reserves_word E (os c) ->
  starts_are_words (NativeModule.free_code_space_ (this c)) ->
  fst (AllocateForCode E 0 c) = kNullAddress /\
  forall rs sp ix kd cpo ss spo hto tier,
    AddOwnedCode E 0 rs sp ix kd cpo ss spo hto tier c = Fatal.
Proof.
  intros Halign Hos Hw.
  assert (Hnull : fst (AllocateForCode E 0 c) = kNullAddress).
  { unfold AllocateForCode. cbv zeta. rewrite RoundUp_zero by exact Halign.
    unfold bind at 1.
    destruct (free_Allocate_zero c Hw) as (He & Hw1 & Hos1 & _).
    destruct (free_Allocate 0 c) as [mem c1]. cbn [fst snd] in *. rewrite He.
    unfold bind at 1. rewrite <- Hos1 in Hos.
    pose proof (grow_code_space_zero E c1 Hos Hw1) as Hgrow.
    destruct (grow_code_space E 0 c1) as [found c2]. cbn [fst] in Hgrow.
    now rewrite Hgrow. }
  split; [exact Hnull |].
  intros rs sp ix kd cpo ss spo hto tier. unfold AddOwnedCode.
  destruct (AllocateForCode E 0 c) as [buffer c1]. cbn [fst] in Hnull.
  now rewrite Hnull.
Qed.

Lemma no_room_for_empty_code_witness :
  AddOwnedCode (obliging sample_platform) 0 0 0 None kWasmToJsWrapper 0 0 0 0 kOther
    (sample_ctx 8192) = Fatal.
Proof.
  destruct (no_room_for_empty_code (obliging sample_platform) (sample_ctx 8192))
    as [_ H].
  - cbn. unfold kWordBits. lia.
  - intros size hint a [= <-]. unfold is_word, kWordBits. cbn. lia.
  - repeat constructor; cbn; unfold kWordBits; lia.
  - apply H.
Defined.

(** ** Adding code *)

Lemma insert_vector_insert {A} (i : nat) (x y : A) (v : list A) :
  (i <= length v)%nat -> <[i := y]> (vector_insert i x v) = vector_insert i y v.
Proof.
  intros Hi. unfold vector_insert.
  rewrite insert_app_r_alt by (rewrite length_take; lia).
  rewrite length_take, Nat.min_l by lia. now rewrite Nat.sub_diag.
Qed.

Lemma vector_insert_Permutation {A} (i : nat) (x : A) (v : list A) :
  vector_insert i x v ≡ₚ x :: v.
Proof.
  unfold vector_insert. rewrite <- Permutation_middle. now rewrite take_drop.
Qed.

(** What [AddOwnedCode] does to the module. *)
Lemma AddOwnedCode_effect E sz rs sp ix kd cpo ss spo hto tier c code c' :
  AddOwnedCode E sz rs sp ix kd cpo ss spo hto tier c = Done (code, c') ->
  code = WasmCode.mk (WasmCode.instruction_start code) sz rs sp ix kd cpo ss spo hto (-1) tier /\
  WasmCode.instruction_start code <> kNullAddress /\
  NativeModule.owned_code_ (this c')
    = vector_insert (inserted_at (this c) code) code (NativeModule.owned_code_ (this c)) /\
  NativeModule.code_table_ (this c') = NativeModule.code_table_ (this c) /\
  directory c' = directory c.
Proof.
  intros Hadd.
  destruct (AddOwnedCode_Done _ _ _ _ _ _ _ _ _ _ _ _ _ _ Hadd) as (Hnz & Hcode & ->).
  pose proof (AllocateForCode_outside E sz c) as Hout.
  destruct (AllocateForCode E sz c) as [buffer c1]. cbn [fst snd] in *.
  unfold same, outside_allocation in Hout.
  injection Hout as _ _ Hnf Hni Htable Hjump _ _ Htrap _ _ _.
  split; [now rewrite Hcode at 1; rewrite Hcode |].
  split; [now rewrite Hcode |].
  split; [reflexivity |].
  unfold directory. cbn. now rewrite Hnf, Hni, Htable, Hjump, Htrap.
Qed.

Lemma declared_in_table nm index :
  declared nm index ->
  length (NativeModule.code_table_ nm) = Z.to_nat (NativeModule.num_wasm_functions nm) ->
  u32 (index - NativeModule.num_imported_functions_ nm)
    = index - NativeModule.num_imported_functions_ nm /\
  (Z.to_nat (index - NativeModule.num_imported_functions_ nm)
   < length (NativeModule.code_table_ nm))%nat.
Proof.
  intros [Hni Hnf] Hlen. rewrite Hlen. unfold NativeModule.num_wasm_functions.
  rewrite !u32_small by lia. split; [reflexivity | lia].
Qed.

Lemma code_set_code nm index c :
  declared nm index ->
  length (NativeModule.code_table_ nm) = Z.to_nat (NativeModule.num_wasm_functions nm) ->
  code (set_code index c nm) index = Some c /\
  has_code (set_code index c nm) index = true /\
  forall j, declared nm j -> j <> index -> code (set_code index c nm) j = code nm j.
Proof.
  intros Hd Hlen. destruct (declared_in_table nm index Hd Hlen) as [Hu Hlt].
  unfold code, has_code, set_code. cbn. rewrite Hu.
  rewrite list_lookup_insert_eq by exact Hlt.
  split; [reflexivity |]. split; [reflexivity |].
  intros j Hj Hne. destruct (declared_in_table nm j Hj Hlen) as [Huj _].
  rewrite Huj. rewrite list_lookup_insert_ne; [reflexivity |].
  destruct Hd, Hj. lia.
Qed.

(** [set_code] then [code]: the entry written is the entry read,
    [has_code] holds for it, the other declared functions keep their
    entries, [DisableTrapHandler] clears it again, and restoring the code
    table restores the module. *)
Theorem set_code_then_code (nm : NativeModule.t) (index : Z) (c : WasmCode.t) :
  declared nm index ->
  length (NativeModule.code_table_ nm) = Z.to_nat (NativeModule.num_wasm_functions nm) ->
  code (set_code index c nm) index = Some c /\
  has_code (set_code index c nm) index = true /\
  (forall j, declared nm j -> j <> index -> code (set_code index c nm) j = code nm j) /\
  has_code (DisableTrapHandler (set_code index c nm)) index = false /\
  NativeModule.set_code_table (NativeModule.code_table_ nm) (set_code index c nm) = nm.
Proof.
  intros Hd Hlen. destruct (code_set_code nm index c Hd Hlen) as (H1 & H2 & H3).
  split; [exact H1 |]. split; [exact H2 |]. split; [exact H3 |].
  split; [| now destruct nm].
  destruct (declared_in_table nm index Hd Hlen) as [Hu Hlt].
  unfold has_code, DisableTrapHandler. cbn. rewrite Hu.
  rewrite clear_entries_lookup; [reflexivity | |].
  - unfold NativeModule.num_wasm_functions. cbn. rewrite Hlen in Hlt. exact Hlt.
  - now rewrite length_insert.
Qed.

Lemma set_code_then_code_witness :
  code (set_code 2 sample_function sample_module) 2 = Some sample_function /\
  has_code (DisableTrapHandler (set_code 2 sample_function sample_module)) 2 = false.
Proof.
  destruct (set_code_then_code sample_module 2 sample_function) as (H1 & _ & _ & H4 & _).
  - unfold declared. cbn. lia.
  - reflexivity.
  - split; [exact H1 | exact H4].
Defined.

(** ** The trap handler index of a code object *)

Lemma wrap_intptr_small z : - 2 ^ 63 <= z < 2 ^ 63 -> wrap_intptr z = z.
Proof. intros H. unfold wrap_intptr. rewrite Z.mod_small by lia. lia. Qed.

Lemma registered_index r :
  0 <= r < 2 ^ 31 -> wrap r = r /\ wrap_intptr (wrap r) = r /\ wrap_int r = r.
Proof.
  intros H.
  assert (Hw : wrap r = r) by (apply wrap_small; unfold is_word, kWordBits; lia).
  rewrite Hw. split; [reflexivity |].
  split; [apply wrap_intptr_small; lia | apply wrap_int_small; lia].
Qed.

(** The trap handler index of a code object: reading it before it is set is
    fatal; [RegisterTrapHandlerData] touches only [kFunction] code, is fatal
    when the registration fails, and otherwise stores the index, which is
    read back unchanged; the destructor releases exactly that index, and is
    fatal for the index [kMaxInt]. *)
Theorem trap_handler_round_trip (code : WasmCode.t) (registered : Z) :
  - 2 ^ 31 <= registered < 2 ^ 31 ->
  WasmCode.trap_handler_index_ code = -1 ->
  trap_handler_index code = Fatal /\
  WasmCode_destructor code = Done None /\
  match WasmCode.kind_ code with
  | kFunction =>
      (registered < 0 -> RegisterTrapHandlerData registered code = Fatal) /\
      (0 <= registered ->
       exists code',
         RegisterTrapHandlerData registered code = Done code' /\
         code' = WasmCode_set_trap_handler_index registered code /\
         WasmCode.HasTrapHandlerIndex code' = true /\
         trap_handler_index code' = Done registered /\
         WasmCode_destructor code' =
           if registered <? kMaxInt then Done (Some registered) else Fatal)
  | _ => RegisterTrapHandlerData registered code = Done code
  end.
Proof.
  intros Hint Hfresh.
  assert (Hno : WasmCode.HasTrapHandlerIndex code = false)
    by (unfold WasmCode.HasTrapHandlerIndex; now rewrite Hfresh).
  split; [unfold trap_handler_index; now rewrite Hno |].
  split; [unfold WasmCode_destructor; now rewrite Hno |].
  unfold RegisterTrapHandlerData.
  destruct (WasmCode.kind_ code); try reflexivity.
  split.
  - intros Hneg. destruct (Z.leb_spec 0 registered); [lia | reflexivity].
  - intros Hpos. destruct (Z.leb_spec 0 registered); [| lia].
    destruct (registered_index registered) as (Hw & Hp & Hi); [lia |].
    eexists. split; [reflexivity |].
    unfold set_trap_handler_index. rewrite Hp.
    split; [reflexivity |].
    assert (Hhas : WasmCode.HasTrapHandlerIndex
                     (WasmCode_set_trap_handler_index registered code) = true).
    { unfold WasmCode.HasTrapHandlerIndex. cbn.
      rewrite Z.geb_leb. now apply Z.leb_le. }
    split; [exact Hhas |].
    unfold WasmCode_destructor, trap_handler_index. rewrite Hhas. cbn.
    rewrite Hw. split; [reflexivity |].
    assert (Hmax : wrap kMaxInt = kMaxInt)
      by (apply wrap_small; unfold is_word, kMaxInt, kWordBits; lia).
    rewrite Hmax, Hi. reflexivity.
Qed.

Lemma trap_handler_round_trip_witness :
  WasmCode_destructor (WasmCode_set_trap_handler_index 7 sample_function) = Done (Some 7).
Proof.
  destruct (trap_handler_round_trip sample_function 7) as (_ & _ & _ & H).
  - lia.
  - reflexivity.
  - destruct H as (code' & _ & -> & _ & _ & H); [lia |]. exact H.
Defined.

(** ** [AddCode], [AddCodeCopy] and [AddInterpreterEntry] *)

(** The object [AddOwnedCode] returned, once written through the pointer. *)
Lemma write_code_effect E sz rs sp ix kd cpo ss spo hto tier c code c' code' :
  AddOwnedCode E sz rs sp ix kd cpo ss spo hto tier c = Done (code, c') ->
  WasmCode.instruction_start code' = WasmCode.instruction_start code ->
  NativeModule.owned_code_ (write_code (inserted_at (this c) code') code' (this c'))
    = vector_insert (inserted_at (this c) code) code' (NativeModule.owned_code_ (this c)).
Proof.
  intros Hadd Hstart.
  destruct (AddOwnedCode_effect _ _ _ _ _ _ _ _ _ _ _ _ _ _ Hadd) as (_ & _ & Howned & _).
  unfold write_code. cbn. rewrite Howned.
  assert (Hpos : inserted_at (this c) code' = inserted_at (this c) code)
    by (unfold inserted_at; now rewrite Hstart).
  rewrite Hpos. apply insert_vector_insert, inserted_at_le.
Qed.

Lemma PatchJumpTable_target E nm index target :
  PatchJumpTable E nm index target =
  match GetCallTargetForFunction E nm index with
  | Some slot => Some (slot, target)
  | None => None
  end.
Proof.
  unfold PatchJumpTable, GetCallTargetForFunction.
  now destruct (NativeModule.jump_table_ nm).
Qed.

(** [AddCode] on a declared function: the new code object is owned, is the
    entry of its index in the code table, leaves the other entries alone, is
    of kind [kFunction] with the tier and size asked for, has a trap handler
    index exactly when the module uses the trap handler, and the jump table
    slot of the index is patched with its instruction start. *)
Theorem add_code_installs (E : Env) (desc : CodeDesc)
    (frame_slots index safepoint_table_offset handler_table_offset
     source_pos_table_length : Z) (tier : Tier) (registered : Z)
    (c c' : Ctx) (ret : WasmCode.t) (patch : option (Address * Address)) :
  declared (this c) index ->
  length (NativeModule.code_table_ (this c))
    = Z.to_nat (NativeModule.num_wasm_functions (this c)) ->
  - 2 ^ 31 <= registered < 2 ^ 31 ->
  AddCode E desc frame_slots index safepoint_table_offset handler_table_offset
    source_pos_table_length tier registered c = Done (ret, patch, c') ->
  code (this c') index = Some ret /\
  (forall j, declared (this c) j -> j <> index -> code (this c') j = code (this c) j) /\
  NativeModule.owned_code_ (this c') ≡ₚ ret :: NativeModule.owned_code_ (this c) /\
  WasmCode.index_ ret = Some index /\
  WasmCode.kind_ ret = kFunction /\
  WasmCode.tier_ ret = tier /\
  WasmCode.instructions_size ret = wrap (instr_size desc) /\
  WasmCode.instruction_start ret <> kNullAddress /\
  WasmCode.HasTrapHandlerIndex ret = NativeModule.use_trap_handler_ (this c) /\
  (NativeModule.use_trap_handler_ (this c) = true -> 0 <= registered) /\
  patch = match GetCallTargetForFunction E (this c) index with
          | Some slot => Some (slot, WasmCode.instruction_start ret)
          | None => None
          end /\
  directory c' = directory c.
Proof.
  intros Hd Hlen Hint. unfold AddCode.
  destruct (AddOwnedCode E _ _ _ _ _ _ _ _ _ _ c) as [[ret0 c1] |] eqn:Hadd;
    [| discriminate].
  destruct (AddOwnedCode_effect _ _ _ _ _ _ _ _ _ _ _ _ _ _ Hadd)
    as (Hret0 & Hnz & Howned & Htable & Hdir).
  assert (Htrap : NativeModule.use_trap_handler_ (this c1)
                  = NativeModule.use_trap_handler_ (this c)).
  { unfold directory in Hdir. injection Hdir. auto. }
  rewrite Htrap.
  assert (Hreg : forall ret1,
            (if NativeModule.use_trap_handler_ (this c)
             then RegisterTrapHandlerData registered ret0 else Done ret0) = Done ret1 ->
            ret1 = WasmCode_set_trap_handler_index
                     (if NativeModule.use_trap_handler_ (this c) then registered else -1)
                     ret0 /\
            (NativeModule.use_trap_handler_ (this c) = true -> 0 <= registered)).
  { intros ret1. destruct (NativeModule.use_trap_handler_ (this c)).
    - unfold RegisterTrapHandlerData. rewrite Hret0. cbn [WasmCode.kind_].
      destruct (Z.leb_spec 0 registered) as [Hpos |]; [| discriminate].
      intros [= <-]. unfold set_trap_handler_index.
      destruct (registered_index registered) as (_ & -> & _); [lia |].
      split; [reflexivity | auto].
    - intros [= <-]. split; [| discriminate]. rewrite Hret0 at 1. now rewrite Hret0. }
  destruct (if NativeModule.use_trap_handler_ (this c) then _ else _) as [ret1 |];
    [| discriminate].
  destruct (Hreg ret1 eq_refl) as [Hret1 Hpos]. clear Hreg.
  intros [= <- <- <-].
  assert (Hstart : WasmCode.instruction_start ret1 = WasmCode.instruction_start ret0)
    by now rewrite Hret1.
  pose proof (write_code_effect _ _ _ _ _ _ _ _ _ _ _ _ _ _ ret1 Hadd Hstart) as Hwrite.
  set (c2 := with_this (write_code (inserted_at (this c) ret1) ret1) c1).
  assert (Htable2 : NativeModule.code_table_ (this c2) = NativeModule.code_table_ (this c))
    by exact Htable.
  assert (Hdir2 : directory c2 = directory c) by exact Hdir.
  assert (Hni : NativeModule.num_imported_functions_ (this c2)
                = NativeModule.num_imported_functions_ (this c)).
  { unfold directory in Hdir2. injection Hdir2. auto. }
  assert (Hnf : NativeModule.num_functions_ (this c2) = NativeModule.num_functions_ (this c)).
  { unfold directory in Hdir2. injection Hdir2. auto. }
  assert (Hjt : NativeModule.jump_table_ (this c2) = NativeModule.jump_table_ (this c)).
  { unfold directory in Hdir2. injection Hdir2. auto. }
  assert (Hd2 : declared (this c2) index) by (unfold declared; now rewrite Hni, Hnf).
  assert (Hlen2 : length (NativeModule.code_table_ (this c2))
                  = Z.to_nat (NativeModule.num_wasm_functions (this c2))).
  { unfold NativeModule.num_wasm_functions. now rewrite Htable2, Hni, Hnf. }
  destruct (code_set_code (this c2) index ret1 Hd2 Hlen2) as (Hcode & _ & Hother).
  assert (Hpatch : PatchJumpTable E (this (with_this (set_code index ret1) c2)) index
                     (WasmCode.instruction_start ret1)
                   = match GetCallTargetForFunction E (this c) index with
                     | Some slot => Some (slot, WasmCode.instruction_start ret1)
                     | None => None
                     end).
  { rewrite PatchJumpTable_target. unfold GetCallTargetForFunction.
    change (NativeModule.jump_table_ (this (with_this (set_code index ret1) c2)))
      with (NativeModule.jump_table_ (this c2)).
    change (NativeModule.num_imported_functions_
              (this (with_this (set_code index ret1) c2)))
      with (NativeModule.num_imported_functions_ (this c2)).
    now rewrite Hjt, Hni. }
  cbn [this with_this].
  split; [exact Hcode |].
  split.
  { intros j Hj Hne. rewrite Hother; [| unfold declared; now rewrite Hni, Hnf | exact Hne].
    unfold code. now rewrite Htable2, Hni. }
  split.
  { change (NativeModule.owned_code_ (set_code index ret1 (this c2)))
      with (NativeModule.owned_code_ (this c2)).
    subst c2. cbn [this with_this]. rewrite Hwrite. apply vector_insert_Permutation. }
  split; [rewrite Hret1, Hret0; reflexivity |].
  split; [rewrite Hret1, Hret0; reflexivity |].
  split; [rewrite Hret1, Hret0; reflexivity |].
  split; [rewrite Hret1, Hret0; reflexivity |].
  split; [now rewrite Hstart |].
  split.
  { rewrite Hret1. unfold WasmCode.HasTrapHandlerIndex. cbn.
    destruct (NativeModule.use_trap_handler_ (this c)) eqn:Hu; [| reflexivity].
    rewrite Z.geb_leb. apply Z.leb_le. now apply Hpos. }
  split; [exact Hpos |].
  split; [exact Hpatch | exact Hdir2].
Qed.

Lemma add_code_installs_witness :
  match AddCode (obliging sample_platform) sample_desc 2 2 100 100 0 kLiftoff 3
          (sample_ctx 8192) with
  | Done (ret, _, c') => code (this c') 2 = Some ret
  | Fatal => False
  end.
Proof.
  destruct (AddCode _ _ _ _ _ _ _ _ _ _) as [[[ret patch] c'] |] eqn:Hrun.
  - refine (proj1 (add_code_installs _ _ _ _ _ _ _ _ _ _ _ _ _ _ _ _ Hrun)).
    + unfold declared. cbn. lia.
    + reflexivity.
    + lia.
  - vm_compute in Hrun. discriminate.
Defined.

Lemma AddAnonymousCode_effect E code kind c ret c' :
  AddAnonymousCode E code kind c = Done (ret, c') ->
  WasmCode.index_ ret = None /\ WasmCode.kind_ ret = kind /\
  WasmCode.tier_ ret = kOther /\
  WasmCode.instructions_size ret = wrap (InstructionSize code) /\
  WasmCode.trap_handler_index_ ret = -1 /\
  WasmCode.instruction_start ret <> kNullAddress /\
  NativeModule.owned_code_ (this c')
    = vector_insert (inserted_at (this c) ret) ret (NativeModule.owned_code_ (this c)) /\
  NativeModule.code_table_ (this c') = NativeModule.code_table_ (this c) /\
  directory c' = directory c.
Proof.
  unfold AddAnonymousCode. intros Hadd.
  destruct (AddOwnedCode_effect _ _ _ _ _ _ _ _ _ _ _ _ _ _ Hadd)
    as (Hret & Hnz & Howned & Htable & Hdir).
  rewrite Hret at 1 2 3 4 5. cbn. auto 10.
Qed.

(** [AddInterpreterEntry] owns the new [kInterpreterEntry] object and
    patches the jump table slot of its index with it, but leaves the code
    table as it was: [code(index)] still answers the entry it held. *)
Theorem interpreter_entry_stays_out_of_code_table (E : Env) (wrapper : Code) (index : Z)
    (c c' : Ctx) (ret : WasmCode.t) (patch : option (Address * Address)) :
  AddInterpreterEntry E wrapper index c = Done (ret, patch, c') ->
  NativeModule.code_table_ (this c') = NativeModule.code_table_ (this c) /\
  (forall j, code (this c') j = code (this c) j) /\
  NativeModule.owned_code_ (this c') ≡ₚ ret :: NativeModule.owned_code_ (this c) /\
  WasmCode.index_ ret = Some index /\
  WasmCode.kind_ ret = kInterpreterEntry /\
  WasmCode.instruction_start ret <> kNullAddress /\
  patch = match GetCallTargetForFunction E (this c) index with
          | Some slot => Some (slot, WasmCode.instruction_start ret)
          | None => None
          end /\
  directory c' = directory c.
Proof.
  unfold AddInterpreterEntry.
  destruct (AddAnonymousCode E wrapper kInterpreterEntry c) as [[ret0 c1] |] eqn:Hadd;
    [| discriminate].
  destruct (AddAnonymousCode_effect _ _ _ _ _ _ Hadd)
    as (_ & Hkind & _ & _ & _ & Hnz & _ & Htable & Hdir).
  set (ret1 := WasmCode_set_index (Some index) ret0).
  assert (Hstart : WasmCode.instruction_start ret1 = WasmCode.instruction_start ret0)
    by reflexivity.
  pose proof (write_code_effect _ _ _ _ _ _ _ _ _ _ _ _ _ _ ret1 Hadd Hstart) as Hwrite.
  assert (Hpatch : PatchJumpTable E
                     (this (with_this (write_code (inserted_at (this c) ret1) ret1) c1))
                     index (WasmCode.instruction_start ret1)
                   = match GetCallTargetForFunction E (this c) index with
                     | Some slot => Some (slot, WasmCode.instruction_start ret1)
                     | None => None
                     end).
  { rewrite PatchJumpTable_target. unfold GetCallTargetForFunction.
    unfold directory in Hdir. injection Hdir as _ Hni Hjt _.
    cbn [this with_this write_code NativeModule.jump_table_ NativeModule.set_owned_code
         NativeModule.num_imported_functions_].
    now rewrite Hjt, Hni. }
  intros [= <- <- <-]. cbn [this with_this].
  assert (Htable2 : NativeModule.code_table_
                      (write_code (inserted_at (this c) ret1) ret1 (this c1))
                    = NativeModule.code_table_ (this c)) by exact Htable.
  split; [exact Htable2 |].
  split.
  { intros j. unfold code. rewrite Htable2.
    unfold directory in Hdir. injection Hdir as _ Hni _ _.
    cbn [write_code NativeModule.num_imported_functions_ NativeModule.set_owned_code].
    now rewrite Hni. }
  split; [rewrite Hwrite; apply vector_insert_Permutation |].
  split; [reflexivity |]. split; [exact Hkind |]. split; [exact Hnz |].
  split; [exact Hpatch | exact Hdir].
Qed.

Lemma interpreter_entry_stays_out_of_code_table_witness :
  match AddInterpreterEntry (obliging sample_platform) sample_wrapper 1 (sample_ctx 8192) with
  | Done (_, _, c') => code (this c') 1 = Some sample_function
  | Fatal => False
  end.
Proof.
  destruct (AddInterpreterEntry _ _ _ _) as [[[ret patch] c'] |] eqn:Hrun.
  - destruct (interpreter_entry_stays_out_of_code_table _ _ _ _ _ _ _ Hrun)
      as (_ & Hcode & _).
    rewrite Hcode. reflexivity.
  - vm_compute in Hrun. discriminate.
Defined.

(** [AddCodeCopy] owns the copy, of the kind asked for and tier [kOther],
    without trap handler index, and writes it into the code table exactly
    when its index is not below the number of imported functions. *)
Theorem code_copy_enters_table_unless_imported (E : Env) (wrapper : Code) (kind : Kind)
    (index : Z) (c c' : Ctx) (ret : WasmCode.t) :
  AddCodeCopy E wrapper kind index c = Done (ret, c') ->
  NativeModule.code_table_ (this c') =
    (if index >=? NativeModule.num_imported_functions_ (this c)
     then <[Z.to_nat (u32 (index - NativeModule.num_imported_functions_ (this c)))
            := Some ret]> (NativeModule.code_table_ (this c))
     else NativeModule.code_table_ (this c)) /\
  NativeModule.owned_code_ (this c') ≡ₚ ret :: NativeModule.owned_code_ (this c) /\
  WasmCode.index_ ret = Some index /\
  WasmCode.kind_ ret = kind /\
  WasmCode.tier_ ret = kOther /\
  WasmCode.HasTrapHandlerIndex ret = false /\
  WasmCode.instruction_start ret <> kNullAddress /\
  directory c' = directory c.
Proof.
  unfold AddCodeCopy.
  destruct (AddAnonymousCode E wrapper kind c) as [[ret0 c1] |] eqn:Hadd; [| discriminate].
  destruct (AddAnonymousCode_effect _ _ _ _ _ _ Hadd)
    as (_ & Hkind & Htier & _ & Hno & Hnz & _ & Htable & Hdir).
  set (ret1 := WasmCode_set_index (Some index) ret0).
  assert (Hstart : WasmCode.instruction_start ret1 = WasmCode.instruction_start ret0)
    by reflexivity.
  pose proof (write_code_effect _ _ _ _ _ _ _ _ _ _ _ _ _ _ ret1 Hadd Hstart) as Hwrite.
  assert (Hni : NativeModule.num_imported_functions_ (this c1)
                = NativeModule.num_imported_functions_ (this c)).
  { unfold directory in Hdir. injection Hdir. auto. }
  cbn [this with_this write_code NativeModule.num_imported_functions_
       NativeModule.set_owned_code]. rewrite Hni.
  assert (Hret : WasmCode.index_ ret1 = Some index /\ WasmCode.kind_ ret1 = kind /\
                 WasmCode.tier_ ret1 = kOther /\
                 WasmCode.HasTrapHandlerIndex ret1 = false /\
                 WasmCode.instruction_start ret1 <> kNullAddress).
  { split; [reflexivity |]. split; [exact Hkind |]. split; [exact Htier |].
    split; [| exact Hnz]. unfold WasmCode.HasTrapHandlerIndex. cbn. now rewrite Hno. }
  destruct (index >=? NativeModule.num_imported_functions_ (this c)).
  - intros [= <- <-]. cbn [this with_this].
    split.
    { unfold set_code. cbn. now rewrite Htable, Hni. }
    split.
    { change (NativeModule.owned_code_ (set_code index ret1 ?nm))
        with (NativeModule.owned_code_ nm).
      fold (write_code (inserted_at (this c) ret1) ret1 (this c1)).
      rewrite Hwrite. apply vector_insert_Permutation. }
    repeat (split; [apply Hret |]). exact Hdir.
  - intros [= <- <-]. cbn [this with_this].
    split; [exact Htable |].
    split.
    { fold (write_code (inserted_at (this c) ret1) ret1 (this c1)).
      rewrite Hwrite. apply vector_insert_Permutation. }
    repeat (split; [apply Hret |]). exact Hdir.
Qed.

Lemma code_copy_enters_table_unless_imported_witness :
  match AddCodeCopy (obliging sample_platform) sample_wrapper kWasmToJsWrapper 0
          (sample_ctx 8192) with
  | Done (_, c') => NativeModule.code_table_ (this c') = NativeModule.code_table_ sample_module
  | Fatal => False
  end.
Proof.
  destruct (AddCodeCopy _ _ _ _ _) as [[ret c'] |] eqn:Hrun.
  - destruct (code_copy_enters_table_unless_imported _ _ _ _ _ _ _ Hrun) as (Htable & _).
    exact Htable.
  - vm_compute in Hrun. discriminate.
Defined.

(** ** Alignment *)

Lemma RoundUp_aligned x m : m <> 0 -> IsAligned (RoundUp x m) m.
Proof.
  intros Hm. unfold IsAligned, RoundUp. cbv zeta.
  rewrite Zminus_mod, Z.mod_mod, Z.sub_diag by exact Hm. now apply Z.mod_0_l.
Qed.

Lemma wrap_aligned z m :
  0 < m -> IsAligned (2 ^ kWordBits) m -> IsAligned z m -> IsAligned (wrap z) m.
Proof.
  unfold IsAligned, wrap. intros Hm Hdiv Hz.
  rewrite Z.mod_mod_divide; [exact Hz |].
  apply Z.mod_divide; [lia | exact Hdiv].
Qed.

Lemma aligned_add a b m : IsAligned a m -> IsAligned b m -> IsAligned (a + b) m.
Proof. unfold IsAligned. intros Ha Hb. now rewrite Zplus_mod, Ha, Hb. Qed.

Lemma aligned_sub a b m : IsAligned a m -> IsAligned b m -> IsAligned (a - b) m.
Proof. unfold IsAligned. intros Ha Hb. now rewrite Zminus_mod, Ha, Hb. Qed.

Lemma aligned_zero m : IsAligned 0 m.
Proof. unfold IsAligned. apply Zmod_0_l. Qed.

Section PageAlignment.

Variable E : Env.
Hypothesis page_positive : 0 < AllocatePageSize (platform E).
Hypothesis page_divides : IsAligned (2 ^ kWordBits) (AllocatePageSize (platform E)).
Hypothesis os_aligned :
  V8_OS_WIN (platform E) = true -> reserves_aligned E (AllocatePageSize (platform E)).

Abbreviation keeps_pages := (keeps_pages E).

Lemma keeps_pages_refl c : keeps_pages c c.
Proof. unfold keeps_pages. auto. Qed.

Lemma keeps_pages_trans c1 c2 c3 :
  keeps_pages c1 c2 -> keeps_pages c2 c3 -> keeps_pages c1 c3.
Proof. unfold keeps_pages. auto. Qed.

Lemma keeps_pages_same c c' :
  same (fun c => (NativeModule.committed_code_space_ (this c),
                  NativeModule.owned_code_space_ (this c))) c c' ->
  keeps_pages c c'.
Proof.
  unfold same, keeps_pages, page_aligned. intros H.
  injection H as H1 H2. now rewrite H1, H2.
Qed.

Lemma Commit_this start size : follows (same this) (Commit E start size).
Proof.
  apply (follows_Commit E _ (same_refl _) (same_trans _)); unchanged.
Qed.

(** A commit of a whole number of pages, credited to the module. *)
Lemma commit_and_credit_pages start commit_size (k : M bool) :
  IsAligned commit_size (AllocatePageSize (platform E)) ->
  follows keeps_pages k ->
  follows keeps_pages
    (ok <- Commit E start commit_size ;;
     if negb ok then ret false else add_committed commit_size ;;; k).
Proof.
  intros Hsize Hk c. unfold bind.
  pose proof (Commit_this start commit_size c) as Hthis. unfold same in Hthis.
  destruct (Commit E start commit_size c) as [ok c1]. cbn [snd] in *.
  destruct ok; cbn [negb].
  - unfold add_committed, modify_this.
    match goal with |- context [k ?c0] => set (c2 := c0) end.
    apply (keeps_pages_trans _ c2); [| apply Hk].
    unfold keeps_pages, page_aligned. subst c2. cbn. rewrite Hthis.
    intros [Hc Hs]. split; [| exact Hs].
    apply wrap_aligned; [exact page_positive | exact page_divides |].
    now apply aligned_add.
  - cbn. apply keeps_pages_same. unfold same. now rewrite Hthis.
Qed.

Lemma commit_chunks_pages spaces :
  Forall (fun v => IsAligned (VirtualMemory.address v) (AllocatePageSize (platform E)))
    spaces ->
  forall commit_start commit_end,
    IsAligned commit_start (AllocatePageSize (platform E)) ->
    IsAligned commit_end (AllocatePageSize (platform E)) ->
    follows keeps_pages (commit_chunks E spaces commit_start commit_end).
Proof.
  induction 1 as [| it spaces Hit _ IH]; intros commit_start commit_end Hs He;
    cbn [commit_chunks]; [apply follows_ret, keeps_pages_refl |].
  apply follows_if; [apply follows_ret, keeps_pages_refl |].
  apply follows_if; [now apply IH |].
  assert (Hmax : IsAligned (Z.max commit_start (VirtualMemory.address it))
                   (AllocatePageSize (platform E))).
  { destruct (Z.max_spec commit_start (VirtualMemory.address it)) as [[_ ->] | [_ ->]];
      assumption. }
  apply commit_and_credit_pages.
  - apply wrap_aligned; [exact page_positive | exact page_divides |].
    now apply aligned_sub.
  - now apply IH.
Qed.

Lemma commit_for_pages mem : follows keeps_pages (commit_for E mem).
Proof.
  unfold commit_for.
  assert (Hs : IsAligned (RoundUp (r_start mem) (AllocatePageSize (platform E)))
                 (AllocatePageSize (platform E))) by (apply RoundUp_aligned; lia).
  assert (He : IsAligned (RoundUp (r_end mem) (AllocatePageSize (platform E)))
                 (AllocatePageSize (platform E))) by (apply RoundUp_aligned; lia).
  apply follows_if; [| apply follows_ret, keeps_pages_refl].
  destruct (V8_OS_WIN (platform E)) eqn:Hwin.
  - intros c Hc. unfold bind, get_this.
    apply (commit_chunks_pages _ (Forall_rev (proj2 Hc Hwin)) _ _ Hs He c Hc).
  - apply commit_and_credit_pages.
    + apply wrap_aligned; [exact page_positive | exact page_divides |].
      now apply aligned_sub.
    + apply follows_ret, keeps_pages_refl.
Qed.

Lemma reserve_aligned o size hint :
  V8_OS_WIN (platform E) = true ->
  IsAligned (VirtualMemory.address (reserve E o size hint)) (AllocatePageSize (platform E)).
Proof.
  intros Hwin. unfold reserve. cbv zeta.
  destruct (reservation E _ _ _) as [a |] eqn:Ha; cbn.
  - eapply os_aligned; eassumption.
  - apply aligned_zero.
Qed.

Lemma grow_code_space_pages size : follows keeps_pages (grow_code_space E size).
Proof.
  intros c. rewrite grow_code_space_eq. cbv zeta.
  destruct (negb (NativeModule.can_request_more_memory_ (this c)));
    [apply keeps_pages_refl |].
  set (new_mem := reserve E (os c) size _).
  set (c1 := with_this (push_back_space new_mem) (with_os (after_reserve (os c)) c)).
  assert (H1 : keeps_pages c c1).
  { unfold keeps_pages, page_aligned. cbn. intros [Hc Hs]. split; [exact Hc |].
    intros Hwin. apply Forall_app. split; [now apply Hs |].
    constructor; [now apply reserve_aligned | constructor]. }
  destruct (negb (VirtualMemory.IsReserved new_mem)); [exact H1 |].
  apply (keeps_pages_trans _ _ _ H1).
  set (c2 := snd (AssignRanges _ _ _ c1)).
  apply (keeps_pages_trans _ c2).
  - apply keeps_pages_same. subst c2. revert c1 H1. intros c1 _. revert c1.
    apply AssignRanges_same. unchanged.
  - apply keeps_pages_same. generalize c2. unfold grow_tail.
    apply (follows_bind _ (same_trans _)); [unchanged |]. intros _.
    apply (follows_bind _ (same_trans _)).
    + apply follows_free_Allocate. unchanged.
    + intros mem. destruct (AddressRange.is_empty mem); unchanged.
Qed.

Lemma AllocateForCode_pages size : follows keeps_pages (AllocateForCode E size).
Proof.
  apply (follows_AllocateForCode E _ keeps_pages_refl keeps_pages_trans).
  - intros c v. now apply keeps_pages_same.
  - apply grow_code_space_pages.
  - apply commit_for_pages.
  - intros c v. now apply keeps_pages_same.
Qed.

Lemma method_step_pages c c' : method_step E c c' -> keeps_pages c c'.
Proof.
  apply (follows_method_step E _ keeps_pages_trans).
  - apply (follows_AddOwnedCode E _ keeps_pages_trans).
    + apply AllocateForCode_pages.
    + intros c0 v. now apply keeps_pages_same.
  - intros c0 index code. now apply keeps_pages_same.
  - intros x c0. apply keeps_pages_same. revert c0.
    apply SetExecutable_same; unchanged.
  - intros c0. now apply keeps_pages_same.
  - intros c0 v. now apply keeps_pages_same.
Qed.

Lemma heap_page_aligned cap w :
  reachable E cap w -> map_Forall (fun _ => page_aligned E) (heap w).
Proof.
  apply heap_invariant.
  - intros est nf ni more trap w0 c' Hnew.
    apply NativeModule_new_Done in Hnew.
    assert (H0 : page_aligned E
                   (initialised (S (next_id_ w0)) nf ni more
                      (reserve E (w_os w0) (vmem_size E est) kNullAddress) trap)).
    { split; [apply aligned_zero |]. intros Hwin. cbn.
      constructor; [now apply reserve_aligned | constructor]. }
    destruct Hnew as [[_ ->] | (_ & jt & c1 & Hadd & ->)]; [exact H0 |].
    assert (Hstep : keeps_pages _ c1)
      by (apply method_step_pages; econstructor 1; exact Hadd).
    apply Hstep in H0. exact H0.
  - intros c c' Hstep. now apply method_step_pages.
Qed.

End PageAlignment.

(** In every reachable state, every live module's [committed_code_space_]
    is a multiple of the allocation page size (on Windows, provided that
    reservations start on page boundaries). *)
Theorem committed_is_whole_pages (E : Env) (cap : Z) (w : World) :
  0 < AllocatePageSize (platform E) ->
  IsAligned (2 ^ kWordBits) (AllocatePageSize (platform E)) ->
  (V8_OS_WIN (platform E) = true -> reserves_aligned E (AllocatePageSize (platform E))) ->
  reachable E cap w ->
  map_Forall (fun _ nm => IsAligned (NativeModule.committed_code_space_ nm)
                            (AllocatePageSize (platform E))) (heap w).
Proof.
  intros Hpos Hdiv Hos Hreach id nm Hid.
  exact (proj1 (heap_page_aligned E Hpos Hdiv Hos cap w Hreach id nm Hid)).
Qed.

Lemma committed_is_whole_pages_witness :
  match run (obliging sample_platform_win) growing (initial 16777216) with
  | Done w => map_Forall (fun _ nm => IsAligned (NativeModule.committed_code_space_ nm) 4096)
                (heap w)
  | Fatal => False
  end.
Proof.
  destruct (run _ _ _) as [w |] eqn:Hrun.
  - apply (committed_is_whole_pages (obliging sample_platform_win) 16777216 w).
    + reflexivity.
    + reflexivity.
    + intros _ n size hint a [= <-]. unfold IsAligned.
      change (AllocatePageSize (platform (obliging sample_platform_win))) with 4096.
      replace ((Z.of_nat n + 1) * 2 ^ 33) with ((Z.of_nat n + 1) * 2097152 * 4096) by lia.
      apply Z_mod_mult.
    + eexists. exact Hrun.
  - vm_compute in Hrun. discriminate.
Defined.

Section CodeAlignment.

Variable E : Env.
Hypothesis alignment_positive : 0 < kCodeAlignment (platform E).
Hypothesis alignment_divides : IsAligned (2 ^ kWordBits) (kCodeAlignment (platform E)).
Hypothesis os_aligned : reserves_aligned E (kCodeAlignment (platform E)).

Abbreviation aligned z := (IsAligned z (kCodeAlignment (platform E))).
Abbreviation free_aligned c :=
  (Forall (fun d => aligned (r_start d)) (NativeModule.free_code_space_ (this c))).

Lemma Allocate_aligned p size :
  Forall (fun d => aligned (r_start d)) p -> aligned size ->
  aligned (r_start (fst (Pool.Allocate p size))) /\
  Forall (fun d => aligned (r_start d)) (snd (Pool.Allocate p size)).
Proof.
  intros Hp Hsize. induction Hp as [| it rest Hit Hrest IH]; cbn [Pool.Allocate].
  - split; [apply aligned_zero | constructor].
  - destruct (size >? AddressRange.size it).
    + destruct (Pool.Allocate rest size) as [ret rest']. cbn [fst snd] in *.
      destruct IH as [H1 H2]. split; [exact H1 | now constructor].
    + assert (Hnext : aligned (wrap (r_start it + size))).
      { apply wrap_aligned; [exact alignment_positive | exact alignment_divides |].
        now apply aligned_add. }
      destruct (size =? AddressRange.size it); cbn [fst snd r_start].
      * split; [exact Hit | exact Hrest].
      * split; [exact Hit |]. constructor; [exact Hnext | exact Hrest].
Qed.

Lemma free_Allocate_aligned size c :
  free_aligned c -> aligned size ->
  aligned (r_start (fst (free_Allocate size c))) /\
  free_aligned (snd (free_Allocate size c)).
Proof.
  intros Hp Hsize. unfold free_Allocate, bind, get_this, modify_this, ret.
  destruct (Allocate_aligned _ size Hp Hsize) as [H1 H2].
  destruct (Pool.Allocate (NativeModule.free_code_space_ (this c)) size) as [mem rest].
  cbn in *. auto.
Qed.

Lemma grow_code_space_aligned size c :
  free_aligned c -> aligned size ->
  match fst (grow_code_space E size c) with
  | Some mem => aligned (r_start mem)
  | None => True
  end /\
  free_aligned (snd (grow_code_space E size c)).
Proof.
  intros Hp Hsize. rewrite grow_code_space_eq. cbv zeta.
  destruct (negb (NativeModule.can_request_more_memory_ (this c))); [cbn; auto |].
  set (new_mem := reserve E (os c) size _).
  destruct (negb (VirtualMemory.IsReserved new_mem)); [cbn; auto |].
  assert (Hnew : aligned (VirtualMemory.address new_mem)).
  { subst new_mem. unfold reserve. cbv zeta.
    destruct (reservation E _ _ _) as [a |] eqn:Ha; cbn.
    - eapply os_aligned, Ha.
    - apply aligned_zero. }
  set (c2 := snd (AssignRanges _ _ _ _)).
  unfold grow_tail, bind, modify_this. cbn [snd].
  match goal with |- context [free_Allocate size ?c0] =>
    destruct (free_Allocate_aligned size c0) as [H1 H2]
  end.
  { cbn. apply (Merge_starts (fun z => aligned z)); [exact Hp | exact Hnew]. }
  { exact Hsize. }
  destruct (free_Allocate size _) as [mem c3]. cbn [fst snd] in *.
  destruct (AddressRange.is_empty mem); cbn; auto.
Qed.

(** The address [AllocateForCode] returns is aligned, and so is what is
    left free. *)
Lemma AllocateForCode_aligned size c :
  free_aligned c ->
  aligned (fst (AllocateForCode E size c)) /\
  free_aligned (snd (AllocateForCode E size c)).
Proof.
  intros Hp.
  destruct (AllocateForCode E size c) as [a c'] eqn:Hrun. cbn [fst snd].
  revert Hrun. unfold AllocateForCode. cbv zeta.
  assert (Hsize : aligned (RoundUp size (kCodeAlignment (platform E))))
    by (apply RoundUp_aligned; lia).
  generalize dependent (RoundUp size (kCodeAlignment (platform E))). intros size' Hsize.
  unfold bind.
  destruct (free_Allocate_aligned size' c Hp Hsize) as [Hmem Hp1].
  destruct (free_Allocate size' c) as [mem c1]. cbn [fst snd] in *.
  assert (Hfound : match fst ((if AddressRange.is_empty mem
                               then grow_code_space E size' else ret (Some mem)) c1) with
                   | Some mem' => aligned (r_start mem')
                   | None => True
                   end /\
                   free_aligned (snd ((if AddressRange.is_empty mem
                                       then grow_code_space E size'
                                       else ret (Some mem)) c1))).
  { destruct (AddressRange.is_empty mem); [now apply grow_code_space_aligned |].
    cbn. auto. }
  destruct ((if AddressRange.is_empty mem then grow_code_space E size'
             else ret (Some mem)) c1) as [[mem' |] c2]; cbn [fst snd] in Hfound;
    destruct Hfound as [Hmem' Hp2].
  - pose proof (commit_for_same E (fun c => NativeModule.free_code_space_ (this c))
                  ltac:(unchanged) ltac:(unchanged) ltac:(unchanged) ltac:(unchanged)
                  mem' c2) as Hsame.
    unfold same in Hsame.
    destruct (commit_for E mem' c2) as [ok c3]. cbn [snd] in Hsame.
    destruct ok; cbn; intros [= <- <-].
    + split; [exact Hmem' |]. cbn. now rewrite Hsame.
    + split; [apply aligned_zero | now rewrite Hsame].
  - cbn. intros [= <- <-]. split; [apply aligned_zero | exact Hp2].
Qed.

Lemma method_step_code_aligned c c' :
  method_step E c c' -> keeps_code_aligned E c c'.
Proof.
  assert (Hsame : forall c c',
             same (fun c => (NativeModule.free_code_space_ (this c),
                             NativeModule.owned_code_ (this c))) c c' ->
             keeps_code_aligned E c c').
  { unfold same, keeps_code_aligned, code_aligned. intros c0 c0' H.
    injection H as H1 H2. now rewrite H1, H2. }
  apply (follows_method_step E (keeps_code_aligned E)).
  - unfold keeps_code_aligned. auto.
  - intros sz rs sp ix k cpo ss spo hto tier c0 code c0' Hadd [Hfree Hcode].
    destruct (AddOwnedCode_Done _ _ _ _ _ _ _ _ _ _ _ _ _ _ Hadd) as (_ & Hret & ->).
    destruct (AllocateForCode_aligned sz c0 Hfree) as [Hbuf Hfree'].
    destruct (AllocateForCode E sz c0) as [buffer c1]. cbn [fst snd] in *.
    split; [exact Hfree' |]. cbn.
    apply Forall_vector_insert; [now rewrite Hret | exact Hcode].
  - intros c0 index code. now apply Hsame.
  - intros x c0. apply Hsame. revert c0. apply SetExecutable_same; unchanged.
  - intros c0. now apply Hsame.
  - intros c0 v. now apply Hsame.
Qed.

Lemma heap_code_aligned cap w :
  reachable E cap w -> map_Forall (fun _ => code_aligned E) (heap w).
Proof.
  apply heap_invariant.
  - intros est nf ni more trap w0 c' Hnew.
    apply NativeModule_new_Done in Hnew.
    assert (H0 : code_aligned E
                   (NativeModule.set_code_table (repeat None (Z.to_nat (u32 (nf - ni))))
                      (initialised (S (next_id_ w0)) nf ni more
                         (reserve E (w_os w0) (vmem_size E est) kNullAddress) trap))).
    { split; [| constructor]. cbn. constructor; [| constructor]. cbn.
      unfold reserve. cbv zeta.
      destruct (reservation E _ _ _) as [a |] eqn:Ha; cbn.
      - eapply os_aligned, Ha.
      - apply aligned_zero. }
    destruct Hnew as [[_ ->] | (_ & jt & c1 & Hadd & ->)]; [exact H0 |].
    assert (Hstep : keeps_code_aligned E _ c1)
      by (apply method_step_code_aligned; econstructor 1; exact Hadd).
    apply Hstep in H0. exact H0.
  - intros c c' Hstep. now apply method_step_code_aligned.
Qed.

End CodeAlignment.

(** In every reachable state, every code object of every live module starts
    at a multiple of [kCodeAlignment], provided that reservations do: the
    [DCHECK] at the end of [AllocateForCode] always holds. *)
Theorem code_starts_aligned (E : Env) (cap : Z) (w : World) :
  0 < kCodeAlignment (platform E) ->
  IsAligned (2 ^ kWordBits) (kCodeAlignment (platform E)) ->
  reserves_aligned E (kCodeAlignment (platform E)) ->
  reachable E cap w ->
  map_Forall (fun _ nm =>
                Forall (fun code => IsAligned (WasmCode.instruction_start code)
                                      (kCodeAlignment (platform E)))
                  (NativeModule.owned_code_ nm)) (heap w).
Proof.
  intros Hpos Hdiv Hos Hreach id nm Hid.
  exact (proj2 (heap_code_aligned E Hpos Hdiv Hos cap w Hreach id nm Hid)).
Qed.

Lemma code_starts_aligned_witness :
  match run (obliging sample_platform_wide) growing (initial 16777216) with
  | Done w => map_Forall (fun _ nm =>
                Forall (fun code => IsAligned (WasmCode.instruction_start code) 32)
                  (NativeModule.owned_code_ nm)) (heap w)
  | Fatal => False
  end.
Proof.
  destruct (run _ _ _) as [w |] eqn:Hrun.
  - apply (code_starts_aligned (obliging sample_platform_wide) 16777216 w).
    + reflexivity.
    + reflexivity.
    + intros n size hint a [= <-]. unfold IsAligned.
      change (kCodeAlignment (platform (obliging sample_platform_wide))) with 32.
      replace ((Z.of_nat n + 1) * 2 ^ 33) with ((Z.of_nat n + 1) * 268435456 * 32) by lia.
      apply Z_mod_mult.
    + eexists. exact Hrun.
  - vm_compute in Hrun. discriminate.
Defined.

(** ** Call targets *)

(** [GetCallTargetForFunction] on a declared function of a module with a
    jump table: the target is the slot at [slot_idx * kJumpTableSlotSize]
    from the start of the jump table, [is_jump_table_slot] accepts it, the
    whole slot lies inside the jump table, and the targets of two functions
    lie their index distance in slots apart. *)
Theorem call_targets_are_slots (E : Env) (nm : NativeModule.t) (jt : WasmCode.t) (f : Z) :
  0 < kJumpTableSlotSize (platform E) ->
  32 <= kSlotProductBits (platform E) ->
  table_shape E nm ->
  NativeModule.jump_table_ nm = Some jt ->
  declared nm f ->
  (NativeModule.num_functions_ nm - NativeModule.num_imported_functions_ nm)
    * kJumpTableSlotSize (platform E) < 2 ^ 32 ->
  0 <= WasmCode.instruction_start jt ->
  WasmCode.instruction_start jt + WasmCode.instructions_size jt < 2 ^ kWordBits ->
  let target := WasmCode.instruction_start jt
                + (f - NativeModule.num_imported_functions_ nm)
                  * kJumpTableSlotSize (platform E) in
  GetCallTargetForFunction E nm f = Some target /\
  is_jump_table_slot nm target = true /\
  target + kJumpTableSlotSize (platform E) <= WasmCode.instructions_end jt /\
  forall g, declared nm g ->
            GetCallTargetForFunction E nm g
              = Some (target + (g - f) * kJumpTableSlotSize (platform E)).
Proof.
  intros Hk Hbits [_ Hshape] Hjt [Hni Hnf] Hsize Hstart Hend target.
  rewrite Hjt in Hshape. destruct Hshape as (Hn & _ & _ & _ & Hjtsize).
  unfold NativeModule.num_wasm_functions in *.
  set (ni := NativeModule.num_imported_functions_ nm) in *.
  set (nf := NativeModule.num_functions_ nm) in *.
  set (k := kJumpTableSlotSize (platform E)) in *.
  assert (Hnum : u32 (nf - ni) = nf - ni) by (apply u32_small; lia).
  rewrite Hnum in *.
  rewrite (slot_offset_small E (nf - ni) Hbits) in Hjtsize by (fold k; nia).
  fold k in Hjtsize.
  assert (Hcall : forall g, declared nm g ->
             GetCallTargetForFunction E nm g
             = Some (WasmCode.instruction_start jt + (g - ni) * k)).
  { intros g [Hgi Hgf]. fold ni nf in Hgi, Hgf.
    unfold GetCallTargetForFunction. rewrite Hjt. fold ni.
    rewrite (u32_small (g - ni)) by lia.
    assert (Hprod : 0 <= (g - ni) * k < 2 ^ 32) by nia.
    rewrite (slot_offset_small E (g - ni) Hbits) by (fold k; exact Hprod). fold k.
    f_equal. apply wrap_small. unfold is_word, kWordBits in *. nia. }
  assert (Hf : 0 <= (f - ni) * k /\ (f - ni) * k + k <= (nf - ni) * k) by nia.
  assert (Hjend : WasmCode.instructions_end jt
                  = WasmCode.instruction_start jt + (nf - ni) * k).
  { unfold WasmCode.instructions_end, WasmCode.instruction_start in *.
    rewrite Hjtsize. apply wrap_small. unfold is_word, kWordBits in *. lia. }
  split; [apply Hcall; split; assumption |].
  split.
  { unfold is_jump_table_slot. rewrite Hjt. apply contains_spec.
    rewrite Hjend. subst target. lia. }
  split; [rewrite Hjend; subst target; lia |].
  intros g Hg. rewrite (Hcall g Hg). f_equal. subst target. lia.
Qed.

Lemma call_targets_are_slots_witness :
  is_jump_table_slot sample_module (8192 + (4 - 1) * 16) = true.
Proof.
  refine (proj1 (proj2 (call_targets_are_slots (obliging sample_platform) sample_module
                          sample_jump_table 4 _ _ _ _ _ _ _ _))).
  - reflexivity.
  - discriminate.
  - split; [reflexivity |]. cbn.
    split; [reflexivity |]. split; [| auto].
    apply list_elem_of_here.
  - reflexivity.
  - unfold declared. cbn. lia.
  - reflexivity.
  - discriminate.
  - reflexivity.
Defined.

(** ** The constant pool *)

(** [constant_pool] is null when embedded constant pools are off or the
    offset is at or past the end of the instructions; a non-null constant
    pool is the start plus the offset and lies inside the instructions. *)
Theorem constant_pool_lies_in_code (flag : bool) (code : WasmCode.t) :
  0 <= WasmCode.instruction_start code ->
  0 <= WasmCode.constant_pool_offset_ code ->
  WasmCode.instruction_start code + WasmCode.instructions_size code < 2 ^ kWordBits ->
  (constant_pool flag code <> kNullAddress ->
   flag = true /\
   constant_pool flag code
     = WasmCode.instruction_start code + WasmCode.constant_pool_offset_ code /\
   WasmCode.contains code (constant_pool flag code) = true) /\
  (flag = false -> constant_pool flag code = kNullAddress) /\
  (WasmCode.instructions_size code <= WasmCode.constant_pool_offset_ code ->
   constant_pool flag code = kNullAddress).
Proof.
  intros Hstart Hoff Hend. unfold constant_pool.
  split; [| split].
  - destruct flag; [| congruence].
    destruct (Z.ltb_spec (WasmCode.constant_pool_offset_ code)
                (WasmCode.instructions_size code)) as [Hlt |]; [| congruence].
    intros _. split; [reflexivity |].
    assert (Hw : wrap (WasmCode.instruction_start code + WasmCode.constant_pool_offset_ code)
                 = WasmCode.instruction_start code + WasmCode.constant_pool_offset_ code).
    { apply wrap_small. unfold is_word, kWordBits in *. lia. }
    rewrite Hw. split; [reflexivity |].
    apply contains_spec. unfold WasmCode.instructions_end, WasmCode.instruction_start in *.
    rewrite wrap_small by (unfold is_word, kWordBits in *; lia). lia.
  - intros ->. reflexivity.
  - intros Hge. destruct flag; [| reflexivity].
    destruct (Z.ltb_spec (WasmCode.constant_pool_offset_ code)
                (WasmCode.instructions_size code)); [lia | reflexivity].
Qed.

Lemma constant_pool_lies_in_code_witness :
  constant_pool true (WasmCode.mk 8256 64 0 0 (Some 1) kFunction 48 0 0 0 (-1) kLiftoff)
  = 8304.
Proof.
  destruct (constant_pool_lies_in_code true
              (WasmCode.mk 8256 64 0 0 (Some 1) kFunction 48 0 0 0 (-1) kLiftoff))
    as [H _].
  - discriminate.
  - discriminate.
  - reflexivity.
  - destruct H as (_ & H & _); [discriminate | exact H].
Defined.

(** ** Adding code that fits *)

Lemma Commit_granted_full E start size c :
  size <= remaining c -> os_grants E c = true ->
  Commit E start size c =
  (true,
   {| os := {| permission_log :=
                 log_of c ++ [{| sc_start := start; sc_size := size;
                                 sc_perm := commit_permission E |}];
               reservation_count := reservation_count (os c);
               cas_count := S (cas_count (os c)) |};
      manager := WasmCodeManager.set_remaining (wrap (remaining c - size)) (manager c);
      this := this c |}).
Proof.
  intros H Hos. unfold os_grants in Hos.
  unfold Commit, next_cas_failures, SetPermissions, commit_permission. run_monad.
  rewrite Commit_cas_enough by exact H. cbn. rewrite Hos. reflexivity.
Qed.

Lemma free_Allocate_eq size c :
  free_Allocate size c =
  (fst (Pool.Allocate (NativeModule.free_code_space_ (this c)) size),
   with_this (NativeModule.set_free_code_space
                (snd (Pool.Allocate (NativeModule.free_code_space_ (this c)) size))) c).
Proof.
  unfold free_Allocate, bind, get_this, modify_this, ret.
  now destruct (Pool.Allocate (NativeModule.free_code_space_ (this c)) size).
Qed.

(** The success path of [AddOwnedCode] off Windows: when the free pool has a
    first fit for the size rounded up to the code alignment, and the pages
    the fit touches fit the budget and are granted, the new object starts at
    the start of that fit, the fit moves from the free to the allocated
    pool, the object is inserted at its upper bound, and exactly the pages
    from the fit's start rounded up to its end rounded up are committed
    (none when that range is empty). *)
Theorem add_owned_code_takes_first_fit (E : Env) (sz rs sp : Z) (ix : option Z)
    (kd : Kind) (cpo ss spo hto : Z) (tier : Tier) (c : Ctx) (mem : range)
    (rest : Pool.t) :
  V8_OS_WIN (platform E) = false ->
  Pool.Allocate (NativeModule.free_code_space_ (this c))
    (RoundUp sz (kCodeAlignment (platform E))) = (mem, rest) ->
  AddressRange.is_empty mem = false ->
  r_start mem <> kNullAddress ->
  let commit_start := RoundUp (r_start mem) (AllocatePageSize (platform E)) in
  let commit_end := RoundUp (r_end mem) (AllocatePageSize (platform E)) in
  let commit_size := wrap (commit_end - commit_start) in
  (commit_start < commit_end -> commit_size <= remaining c /\ os_grants E c = true) ->
  exists code c',
    AddOwnedCode E sz rs sp ix kd cpo ss spo hto tier c = Done (code, c') /\
    code = WasmCode.mk (r_start mem) sz rs sp ix kd cpo ss spo hto (-1) tier /\
    NativeModule.free_code_space_ (this c') = rest /\
    NativeModule.allocated_code_space_ (this c')
      = Pool.Merge (NativeModule.allocated_code_space_ (this c)) mem /\
    NativeModule.owned_code_space_ (this c') = NativeModule.owned_code_space_ (this c) /\
    NativeModule.owned_code_ (this c')
      = vector_insert (inserted_at (this c) code) code (NativeModule.owned_code_ (this c)) /\
    (if commit_start <? commit_end
     then committed (this c') = wrap (committed (this c) + commit_size) /\
          remaining c' = wrap (remaining c - commit_size) /\
          log_of c' = log_of c ++ [{| sc_start := commit_start; sc_size := commit_size;
                                      sc_perm := commit_permission E |}]
     else committed (this c') = committed (this c) /\
          remaining c' = remaining c /\ log_of c' = log_of c).
Proof.
  intros Hwin Halloc Hempty Hstart commit_start commit_end commit_size Hcommit.
  unfold AddOwnedCode, AllocateForCode, bind. cbv zeta.
  rewrite free_Allocate_eq, Halloc. cbn [fst snd]. rewrite Hempty. cbn [ret].
  unfold commit_for. rewrite Hwin. fold commit_start commit_end. fold commit_size.
  apply Z.eqb_neq in Hstart.
  destruct (Z.ltb_spec commit_start commit_end) as [Hlt | Hge].
  - destruct (Hcommit Hlt) as [Hbudget Hos].
    unfold bind. rewrite Commit_granted_full by assumption.
    cbn. rewrite Hstart. cbn.
    eexists _, _. split; [reflexivity |]. cbn.
    unfold inserted_at. cbn. repeat split; reflexivity.
  - cbn. rewrite Hstart. cbn.
    eexists _, _. split; [reflexivity |]. cbn.
    unfold inserted_at. cbn. repeat split; reflexivity.
Qed.

Lemma add_owned_code_takes_first_fit_witness :
  exists code c',
    AddOwnedCode (obliging sample_platform) 5000 0 0 (Some 2) kFunction 5000 0 0 0 kTurbofan
      (sample_ctx 8192) = Done (code, c') /\
    WasmCode.instruction_start code = 8320.
Proof.
  destruct (add_owned_code_takes_first_fit (obliging sample_platform) 5000 0 0 (Some 2)
              kFunction 5000 0 0 0 kTurbofan (sample_ctx 8192)
              (Range 8320 13344) [Range 13344 24576])
    as (code & c' & Hrun & Hcode & _).
  - reflexivity.
  - reflexivity.
  - reflexivity.
  - discriminate.
  - intros _. split; [vm_compute; discriminate | reflexivity].
  - exists code, c'. split; [exact Hrun |]. now rewrite Hcode.
Defined.

(** ** Looking up code that was just added *)

Lemma lookup_vector_insert_lt {A} (i n : nat) (x : A) (v : list A) :
  (i < n)%nat -> (n <= length v)%nat -> vector_insert n x v !! i = v !! i.
Proof.
  intros Hi Hn. unfold vector_insert.
  rewrite lookup_app_l by (rewrite length_take; lia).
  now apply lookup_take_lt.
Qed.

Lemma lookup_vector_insert_gt {A} (i n : nat) (x : A) (v : list A) :
  (n < i)%nat -> (n <= length v)%nat -> vector_insert n x v !! i = v !! (i - 1)%nat.
Proof.
  intros Hi Hn. unfold vector_insert.
  rewrite lookup_app_r by (rewrite length_take; lia).
  rewrite length_take, Nat.min_l by lia.
  destruct (i - n)%nat as [| k] eqn:Hk; [lia |].
  change ((x :: drop n v) !! S k) with (drop n v !! k).
  rewrite lookup_drop. f_equal. lia.
Qed.

(** [AddOwnedCode] then [Lookup]: a lookup of the instruction start of the
    object just added returns that object, and lookups of lower addresses
    answer as before. *)
Theorem lookup_finds_added_code (E : Env) (sz rs sp : Z) (ix : option Z) (kd : Kind)
    (cpo ss spo hto : Z) (tier : Tier) (c c' : Ctx) (code : WasmCode.t) :
  starts_sorted (NativeModule.owned_code_ (this c)) ->
  AddOwnedCode E sz rs sp ix kd cpo ss spo hto tier c = Done (code, c') ->
  0 < sz -> 0 <= WasmCode.instruction_start code ->
  WasmCode.instruction_start code + sz < 2 ^ kWordBits ->
  Lookup (this c') (WasmCode.instruction_start code) = Some code /\
  forall pc, pc < WasmCode.instruction_start code ->
             Lookup (this c') pc = Lookup (this c) pc.
Proof.
  intros Hs Hadd Hsz Hstart Hend.
  destruct (AddOwnedCode_effect _ _ _ _ _ _ _ _ _ _ _ _ _ _ Hadd)
    as (Hcode & _ & Howned & _).
  set (v := NativeModule.owned_code_ (this c)) in *.
  set (pos := inserted_at (this c) code) in *.
  assert (Hpos : (pos <= length v)%nat) by apply inserted_at_le.
  assert (Hlen : length (vector_insert pos code v) = S (length v)).
  { unfold vector_insert. rewrite length_app, length_take. cbn. rewrite length_drop. lia. }
  assert (Hbound : forall pc,
             pc <= WasmCode.instruction_start code ->
             partition_point (WasmCodeUniquePtrComparator pc) (vector_insert pos code v)
               (if pc <? WasmCode.instruction_start code
                then count_upto pc v else S pos)).
  { intros pc Hpc.
    destruct (count_upto_partition (WasmCode.instruction_start code) v Hs) as [_ Hpart].
    destruct (count_upto_partition pc v Hs) as [Hn' Hpart'].
    assert (Hpos' : pos = count_upto (WasmCode.instruction_start code) v).
    { subst pos. unfold inserted_at. now apply upper_bound_owned_code. }
    rewrite <- Hpos' in Hpart.
    assert (Hle : (count_upto pc v <= pos)%nat).
    { destruct (Nat.le_gt_cases (count_upto pc v) pos) as [| Hgt]; [assumption |].
      destruct (lookup_lt_is_Some_2 v pos) as [x Hx]; [lia |].
      assert (Hx1 : WasmCodeUniquePtrComparator (WasmCode.instruction_start code) x = true)
        by (apply (Hpart pos x Hx); lia).
      assert (Hx2 : WasmCodeUniquePtrComparator pc x <> true)
        by (rewrite (Hpart' pos x Hx); lia).
      unfold WasmCodeUniquePtrComparator in *.
      apply Z.ltb_lt in Hx1. rewrite Z.ltb_lt in Hx2. lia. }
    unfold WasmCodeUniquePtrComparator in *.
    destruct (Z.ltb_spec pc (WasmCode.instruction_start code)) as [Hlt | Hge].
    - split; [lia |]. intros i x Hi.
      destruct (Nat.lt_trichotomy i pos) as [Hip | [-> | Hip]].
      + rewrite lookup_vector_insert_lt in Hi by lia. now apply Hpart'.
      + rewrite lookup_vector_insert in Hi by lia. injection Hi as <-.
        split; [lia |]. intros _. now apply Z.ltb_lt.
      + rewrite lookup_vector_insert_gt in Hi by lia.
        rewrite (Hpart' _ x Hi). split; [lia |]. intros _.
        apply (Hpart' _ x Hi).
        assert (Hx1 : (WasmCode.instruction_start code <? WasmCode.instruction_start x) = true)
          by (apply (Hpart _ x Hi); lia).
        apply Z.ltb_lt in Hx1. apply Z.ltb_lt. lia.
    - assert (pc = WasmCode.instruction_start code) by lia. subst pc.
      split; [lia |]. intros i x Hi.
      destruct (Nat.lt_trichotomy i pos) as [Hip | [-> | Hip]].
      + rewrite lookup_vector_insert_lt in Hi by lia.
        rewrite (Hpart i x Hi). lia.
      + rewrite lookup_vector_insert in Hi by lia. injection Hi as <-.
        rewrite Z.ltb_irrefl. split; [discriminate | lia].
      + rewrite lookup_vector_insert_gt in Hi by lia.
        rewrite (Hpart _ x Hi). lia. }
  split.
  - unfold Lookup. rewrite Howned.
    rewrite (upper_bound_partition_point _ _ _ (Hbound _ (Z.le_refl _))).
    rewrite Z.ltb_irrefl, lookup_vector_insert by exact Hpos.
    assert (Hc : WasmCode.contains code (WasmCode.instruction_start code) = true).
    { assert (Hsize : WasmCode.instructions_size code = sz) by now rewrite Hcode.
      apply contains_spec. unfold WasmCode.instructions_end, WasmCode.instruction_start in *.
      rewrite Hsize, wrap_small by (unfold is_word, kWordBits in *; lia). lia. }
    rewrite Hc. unfold vector_insert. now destruct (take pos v).
  - intros pc Hpc. unfold Lookup. rewrite Howned. fold v.
    assert (Hle : pc <= WasmCode.instruction_start code) by lia.
    rewrite (upper_bound_partition_point _ _ _ (Hbound pc Hle)).
    rewrite (proj2 (Z.ltb_lt _ _) Hpc).
    rewrite (upper_bound_owned_code pc v Hs).
    assert (Hcount : (count_upto pc v <= pos)%nat).
    { destruct (Hbound pc Hle) as [_ Hp]. rewrite (proj2 (Z.ltb_lt _ _) Hpc) in Hp.
      destruct (Nat.le_gt_cases (count_upto pc v) pos) as [| Hgt]; [assumption |].
      assert (Hx := lookup_vector_insert pos code v Hpos).
      apply Hp in Hx. unfold WasmCodeUniquePtrComparator in Hx.
      assert (Hlt : (pc <? WasmCode.instruction_start code) = true) by now apply Z.ltb_lt.
      apply Hx in Hlt. lia. }
    destruct (count_upto pc v) as [| prev] eqn:Hn.
    + destruct (vector_insert pos code v); now destruct v.
    + rewrite lookup_vector_insert_lt by lia.
      destruct (vector_insert pos code v); [discriminate Hlen |].
      destruct v; [cbn in Hn; discriminate | reflexivity].
Qed.

Lemma lookup_finds_added_code_witness :
  exists code c',
    AddOwnedCode (obliging sample_platform) 5000 0 0 (Some 2) kFunction 5000 0 0 0 kTurbofan
      (sample_ctx 8192) = Done (code, c') /\
    Lookup (this c') (WasmCode.instruction_start code) = Some code.
Proof.
  destruct (AddOwnedCode (obliging sample_platform) 5000 0 0 (Some 2) kFunction 5000 0 0 0
              kTurbofan (sample_ctx 8192)) as [[code c'] |] eqn:Hrun.
  - exists code, c'. split; [reflexivity |].
    refine (proj1 (lookup_finds_added_code _ _ _ _ _ _ _ _ _ _ _ _ _ _ _ Hrun _ _ _)).
    + unfold starts_sorted. cbn. repeat constructor. cbn. lia.
    + lia.
    + vm_compute in Hrun. injection Hrun as <- _. discriminate.
    + vm_compute in Hrun. injection Hrun as <- _. reflexivity.
  - vm_compute in Hrun. discriminate.
Defined.

(** ** The helpers of the tests *)

Lemma lookup_copy_entries {A} (n i : nat) (src dst : list A) :
  (n <= length src)%nat ->
  copy_entries n src dst !! i = if decide (i < n)%nat then src !! i else dst !! i.
Proof.
  intros Hn. unfold copy_entries. destruct (decide (i < n)%nat) as [Hi | Hi].
  - rewrite lookup_app_l by (rewrite length_take; lia). now apply lookup_take_lt.
  - rewrite lookup_app_r by (rewrite length_take; lia).
    rewrite length_take, Nat.min_l, lookup_drop by lia. f_equal. lia.
Qed.

Lemma lookup_repeat {A} (x y : A) (n i : nat) : repeat x n !! i = Some y -> y = x.
Proof.
  revert i. induction n as [| n IH]; intros [| i] H; try discriminate.
  - now injection H.
  - exact (IH i H).
Qed.

Lemma length_copy_entries {A} (n : nat) (src dst : list A) :
  (n <= length src)%nat -> (n <= length dst)%nat ->
  length (copy_entries n src dst) = length dst.
Proof.
  intros Hs Hd. unfold copy_entries.
  rewrite length_app, length_take, length_drop. lia.
Qed.

(** [ReserveCodeTableForTesting]: the declared functions keep their code,
    the entries up to [max_functions] are null and can be written with
    [SetCodeForTesting] once [SetNumFunctionsForTesting(max_functions)] has
    run, which also restores the shape of the tables: the code table has one
    entry per function then declared, and the new jump table has the size
    [CreateEmptyJumpTable] computes for that many slots, which is one slot
    for each unless the product wraps.  The code objects, the old jump
    table among them, stay owned. *)
Theorem reserve_code_table_for_testing (E : Env) (max_functions : Z) (c c' : Ctx) :
  0 <= NativeModule.num_imported_functions_ (this c) <= NativeModule.num_functions_ (this c) ->
  NativeModule.num_functions_ (this c) <= max_functions < 2 ^ 32 ->
  length (NativeModule.code_table_ (this c))
    = Z.to_nat (NativeModule.num_wasm_functions (this c)) ->
  ReserveCodeTableForTesting E max_functions c = Done c' ->
  let grown := SetNumFunctionsForTesting max_functions (this c') in
  NativeModule.num_functions_ (this c') = NativeModule.num_functions_ (this c) /\
  (forall index, declared (this c) index -> code (this c') index = code (this c) index) /\
  (forall index, NativeModule.num_functions_ (this c) <= index < max_functions ->
                 has_code grown index = false) /\
  (forall index x, declared grown index ->
                   code (SetCodeForTesting index (Some x) grown) index = Some x) /\
  (forall x, x ∈ NativeModule.owned_code_ (this c) -> x ∈ NativeModule.owned_code_ (this c')) /\
  (NativeModule.num_imported_functions_ (this c) < max_functions ->
   table_shape E grown /\ one_slot_each E grown).
Proof.
  intros Hni Hmax Hlen Hrun grown.
  unfold ReserveCodeTableForTesting in Hrun.
  set (ni := NativeModule.num_imported_functions_ (this c)) in *.
  set (nf := NativeModule.num_functions_ (this c)) in *.
  set (table := copy_entries _ _ _) in Hrun.
  set (c1 := with_this _ c) in Hrun.
  destruct (CreateEmptyJumpTable E _ c1) as [[jt c2] |] eqn:Hjt; [| discriminate].
  injection Hrun as <-.
  unfold CreateEmptyJumpTable in Hjt.
  destruct (AddOwnedCode_effect _ _ _ _ _ _ _ _ _ _ _ _ _ _ Hjt)
    as (Hcode & _ & Howned & Htable & Hdir).
  unfold directory in Hdir. injection Hdir as Hnf Hni' _ _.
  change (NativeModule.num_functions_ (this c1)) with nf in Hnf.
  change (NativeModule.num_imported_functions_ (this c1)) with ni in Hni'.
  change (NativeModule.code_table_ (this c1)) with table in Htable.
  change (NativeModule.owned_code_ (this c1)) with (NativeModule.owned_code_ (this c))
    in Howned.
  unfold NativeModule.num_wasm_functions in Hlen. fold ni nf in Hlen.
  rewrite u32_small in Hlen by lia.
  assert (Hmw : u32 (max_functions - ni) = max_functions - ni) by (apply u32_small; lia).
  assert (Hnw : u32 (nf - ni) = nf - ni) by (apply u32_small; lia).
  assert (Htl : length table = Z.to_nat (max_functions - ni)).
  { subst table. rewrite Hnw, Hmw, length_copy_entries; rewrite ?repeat_length; lia. }
  assert (Hget : forall i : nat,
             table !! i = if decide (i < Z.to_nat (nf - ni))%nat
                          then NativeModule.code_table_ (this c) !! i
                          else repeat None (Z.to_nat (max_functions - ni)) !! i).
  { intros i. subst table. rewrite Hnw, Hmw. apply lookup_copy_entries. lia. }
  assert (Hthis : NativeModule.code_table_ grown = table /\
                  NativeModule.num_imported_functions_ grown = ni /\
                  NativeModule.num_functions_ grown = max_functions /\
                  NativeModule.jump_table_ grown = Some jt /\
                  NativeModule.owned_code_ grown = NativeModule.owned_code_ (this c2)).
  { subst grown. cbn. rewrite Htable, Hni'. repeat split; reflexivity. }
  destruct Hthis as (Hgt & Hgni & Hgnf & Hgjt & Hgo).
  split; [cbn; exact Hnf |].
  split.
  { intros index [Hlo Hhi]. fold ni nf in Hlo, Hhi.
    unfold code. cbn. rewrite Htable, Hni'. fold ni.
    rewrite u32_small by lia. rewrite Hget.
    destruct (decide _) as [| Hn]; [reflexivity | lia]. }
  split.
  { intros index Hi. unfold has_code. rewrite Hgt, Hgni, u32_small by lia.
    rewrite Hget. destruct (decide _) as [Hn | Hn]; [lia |].
    destruct (repeat None _ !! _) as [e |] eqn:He; [| reflexivity].
    now rewrite (lookup_repeat _ _ _ _ He). }
  split.
  { intros index x Hd.
    change (SetCodeForTesting index (Some x) grown) with (set_code index x grown).
    apply code_set_code; [exact Hd |].
    unfold NativeModule.num_wasm_functions. now rewrite Hgt, Hgni, Hgnf, Hmw. }
  split.
  { intros x Hx. cbn. rewrite Howned. apply elem_of_vector_insert. now right. }
  intros Hpos.
  assert (Hshape : table_shape E grown).
  { unfold table_shape, NativeModule.num_wasm_functions.
    rewrite Hgt, Hgni, Hgnf, Hgjt, Hgo, Hmw.
    split; [exact Htl |].
    split; [lia |].
    split; [rewrite Howned; apply elem_of_vector_insert; now left |].
    rewrite Hcode. cbn. rewrite Hmw. repeat split; reflexivity. }
  split; [exact Hshape | now apply table_shape_one_slot_each].
Qed.

Lemma reserve_code_table_for_testing_witness :
  match ReserveCodeTableForTesting (obliging sample_platform) 9 (sample_ctx 8192) with
  | Done c' =>
      code (this c') 1 = Some sample_function /\
      has_code (SetNumFunctionsForTesting 9 (this c')) 7 = false /\
      length (NativeModule.code_table_ (this c')) = 8%nat /\
      exists jt, NativeModule.jump_table_ (this c') = Some jt /\
                 WasmCode.instructions_size jt = 8 * 16
  | Fatal => False
  end.
Proof.
  destruct (ReserveCodeTableForTesting _ _ _) as [c' |] eqn:Hrun.
  - destruct (reserve_code_table_for_testing (obliging sample_platform) 9 (sample_ctx 8192) c')
      as (_ & Hold & Hnew & _ & _ & Hshape).
    + cbn. lia.
    + cbn. lia.
    + reflexivity.
    + exact Hrun.
    + split; [rewrite Hold; [reflexivity | unfold declared; cbn; lia] |].
      split; [apply Hnew; cbn; lia |].
      destruct Hshape as [[Hlen _] Hslots]; [cbn; lia |].
      pose proof Hrun as Hc. vm_compute in Hc. injection Hc as Hc.
      split; [rewrite <- Hc in Hlen |- *; exact Hlen |].
      eexists. split; [rewrite <- Hc; reflexivity |].
      rewrite <- Hc in Hslots. apply Hslots; [| reflexivity].
      split; [vm_compute; discriminate | vm_compute; reflexivity].
  - vm_compute in Hrun. discriminate.
Defined.
